(** * Tour image lifecycle: upload naming, payload merge, update and cleanup

    A shallow embedding of [controllers/tourControllerAdvanced.js]
    (together with [utils/catchAsync.js]) and the properties of the image
    replacement protocol it implements:

    - [safeJoinInTours], [safeUnlink]   : the file helpers;
    - [resizeTourImages]                : transcode-and-store + payload merge;
    - [updateTour]                      : record update followed by cleanup.

    Parts of the application that these handlers call, or that stand in
    front of them, are embedded alongside: [AppError] and [multerFilter];
    [aliasTopTours] with [APIFeatures.sort] and [limitFields]; the geo
    handlers and [getTourStats] with the aggregate hook of the tour model;
    [restrictTo] with the guards of the tour routes; [protect] with the
    password timestamp of the user model.

    Collaborators that are not part of the repository are modelled through
    narrow interfaces: Node's [path] module (POSIX flavour) as functions on
    strings, the image directory as a finite map from paths to entries, the
    Mongoose model as a [RecordStore] class, sharp as a transcoding oracle
    next to an oracle for the paths the file system refuses to write, and
    the event loop as an explicit schedule that decides which pending
    asynchronous operation completes next. *)

From Stdlib Require Import Ascii String.
From stdpp Require Import base numbers list strings pretty gmap fin_maps sorting.

Open Scope string_scope.
Open Scope list_scope.
Open Scope nat_scope.

(** ** Node's [path] module, POSIX flavour *)

Module Path.

(** [s.split('/')]: the pieces between separators; never empty. *)
Fixpoint split (s : string) : list string :=
  match s with
  | EmptyString => [""]
  | String c s' =>
      if Ascii.eqb c "/" then "" :: split s'
      else match split s' with
           | [] => [String c ""]
           | seg :: segs => String c seg :: segs
           end
  end.

(** [segs.join('/')]. *)
Fixpoint unsplit (segs : list string) : string :=
  match segs with
  | [] => ""
  | [seg] => seg
  | seg :: rest => seg +:+ "/" +:+ unsplit rest
  end.

Definition nonempty (s : string) : bool :=
  match s with EmptyString => false | _ => true end.

(** [path.basename(p)]: the last portion of [p]; trailing separators are
    skipped, and a path made of separators only has the empty basename. *)
Definition basename (p : string) : string :=
  default "" (last (filter (λ seg, nonempty seg = true) (split p))).

(** [normalizeString]: resolves "." and ".." portions, scanning left to
    right.  [res] holds the portions kept so far, most recent first.  With
    [allowAboveRoot] (relative paths) a ".." that has nothing to cancel is
    kept; without it (absolute paths) it is dropped. *)
Fixpoint normalizeString (allowAboveRoot : bool) (res segs : list string)
  : list string :=
  match segs with
  | [] => rev res
  | seg :: rest =>
      if bool_decide (seg = "") || bool_decide (seg = ".") then
        normalizeString allowAboveRoot res rest
      else if bool_decide (seg = "..") then
        match res with
        | prev :: res' =>
            if bool_decide (prev = "..") then
              normalizeString allowAboveRoot
                (if allowAboveRoot then ".." :: res else res) rest
            else normalizeString allowAboveRoot res' rest
        | [] =>
            normalizeString allowAboveRoot
              (if allowAboveRoot then [".."] else []) rest
        end
      else normalizeString allowAboveRoot (seg :: res) rest
  end.

Definition isAbsolute (p : string) : bool :=
  match p with String c _ => Ascii.eqb c "/" | EmptyString => false end.

Fixpoint trailingSeparator (p : string) : bool :=
  match p with
  | EmptyString => false
  | String c EmptyString => Ascii.eqb c "/"
  | String _ p' => trailingSeparator p'
  end.

(** [path.normalize(p)]. *)
Definition normalize (p : string) : string :=
  if nonempty p then
    let body := unsplit (normalizeString (negb (isAbsolute p)) [] (split p)) in
    if nonempty body then
      (if isAbsolute p then "/" else "") +:+ body
        +:+ (if trailingSeparator p then "/" else "")
    else if isAbsolute p then "/"
    else if trailingSeparator p then "./" else "."
  else ".".

(** [path.join(...args)]: the non-empty arguments glued with "/", then
    normalized; "." when nothing is left. *)
Definition join (args : list string) : string :=
  match filter (λ a, nonempty a = true) args with
  | [] => "."
  | parts => normalize (unsplit parts)
  end.

(** [p] is [dir] itself or lies below it, both being normalized. *)
Definition inside (dir p : string) : bool :=
  bool_decide (p = dir) || String.prefix (dir +:+ "/") p.

End Path.

(** ** Data *)

(** JSON-like values carried by [req.body]. *)
#[local] Set Warnings "-register-all".
Inductive value :=
| VNull
| VBool (b : bool)
| VNum (n : Z)
| VStr (s : string)
| VArr (l : list value).

(** A file accepted by multer: [file.buffer] and [file.mimetype]. *)
Record upload := Upload { buffer : list N; mimetype : string }.

(** [req.files] as produced by [upload.fields]: one optional array per
    field name. *)
Record uploads := Uploads {
  files_imageCover : option (list upload);
  files_images : option (list upload) }.

(** The parts of the request the two handlers read and write:
    [req.params.id], [req.body] and [req.files]. *)
Record request := Request {
  params_id : string;
  body : gmap string value;
  files : option uploads }.

(** The image fields of a tour document ([imageCover: String],
    [images: [String]] in the schema); an absent cover is [undefined].
    The gallery is an array, as the schema's cast and default make it: a
    gallery that is missing, which the guards of [updateTour] skip as they
    skip an empty one, is the empty list, and a document whose gallery has
    been set to [null] is not represented. *)
Record tour := Tour { imageCover : option string; images : list string }.

(** What a handler can pass to [next]: an [AppError] built by the handler
    itself, or whatever a collaborator rejected with. *)
Inductive error :=
| AppError (message : string) (statusCode : nat)
| Rejected (message : string).

(** How a handler run ends: [next()] / [next(err)], or
    [res.status(code).json({status: 'success', data: {data: doc}})]. *)
Inductive outcome :=
| Next (err : option error)
| Json (status : nat) (doc : tour).

(** An entry of the image directory: a regular file, or something that
    [fsp.unlink] refuses with the given message (a directory, a file the
    process may not remove). *)
Inductive entry :=
| File (data : list N)
| Locked (reason : string).

(** Calls issued to the collaborators, in the order they take effect. *)
Inductive event :=
| EvFindById (id : string)
| EvFindByIdAndUpdate (id : string) (payload : gmap string value)
| EvToFile (fullPath : string)
| EvAccess (fullPath : string)
| EvUnlink (fullPath : string)
| EvConsoleError (fullPath msg : string).

(** The record store as the handlers consume it.  [findById] and
    [findByIdAndUpdate] either reject (the awaited promise throws), or
    resolve to a document or to [null]. *)
Class RecordStore (S : Type) := {
  findById : S → string → error + option tour;
  findByIdAndUpdate :
    S → string → gmap string value → (error + option tour) * S }.

(** Everything the handlers act upon: the record store (in some state of
    type [S]), the image directory, the wall clock read by [Date.now()],
    and the calls made so far. *)
Record world (S : Type) := World {
  db : S;
  disk : gmap string entry;
  clock : N;
  trace : list event }.
Arguments World {S} db disk clock trace.
Arguments db {S} w.
Arguments disk {S} w.
Arguments clock {S} w.
Arguments trace {S} w.

(** Result object of [safeUnlink]: [{ ok, skipped?, error? }]. *)
Record unlink_result := UnlinkResult {
  ok : bool; skipped : bool; unlink_error : option string }.

(** ** truthiness and small JavaScript idioms *)

(** A string is truthy unless it is empty. *)
Definition truthy (s : string) : bool := Path.nonempty s.

(** [a || b] on strings. *)
Definition or_else (a b : string) : string := if truthy a then a else b.

(** [Object.prototype.hasOwnProperty.call(obj, key)]. *)
Definition hasOwnProperty (obj : gmap string value) (key : string) : bool :=
  bool_decide (is_Some (obj !! key)).

(** [{ ...base, ...over }]: keys of [over] win. *)
Definition spread (base over : gmap string value) : gmap string value :=
  over ∪ base.

(** [arr.includes(x)]. *)
Definition includes (arr : list string) (x : string) : bool :=
  bool_decide (x ∈ arr).

(** ** The event loop as a scheduler

    Several asynchronous operations are in flight at once after
    [Promise.all(xs.map(async ...))] or [Promise.allSettled(...)].  Which
    one completes next is not decided by the program.  A schedule is a list
    of choices; each choice selects one of the tasks that are still pending
    (counted from the first, modulo their number) and lets it take one
    step.  A schedule that runs out selects the first pending task. *)

Section Scheduler.
Context {St T : Type}.
Variable pending : T → bool.
Variable step : St → T → St * T.

Definition waiting (ts : list T) : nat :=
  length (filter (λ t, pending t = true) ts).

(** Let the [k]-th pending task of [ts] take a step. *)
Fixpoint advance (k : nat) (st : St) (ts : list T) : St * list T :=
  match ts with
  | [] => (st, [])
  | t :: ts' =>
      if pending t then
        match k with
        | 0 => let '(st', t') := step st t in (st', t' :: ts')
        | S k' => let '(st', ts'') := advance k' st ts' in (st', t :: ts'')
        end
      else let '(st', ts'') := advance k st ts' in (st', t :: ts'')
  end.

Fixpoint run (fuel : nat) (sched : list nat) (st : St) (ts : list T)
  : St * list T :=
  match fuel with
  | 0 => (st, ts)
  | S fuel' =>
      match waiting ts with
      | 0 => (st, ts)
      | S _ as n =>
          let '(st', ts') := advance (hd 0 sched `mod` n) st ts in
          run fuel' (tl sched) st' ts'
      end
  end.
End Scheduler.

(** ** Two record stores

    The handlers are stated against any [RecordStore].  These two are used
    to run them on concrete inputs. *)

(** The schema's cast to [String]: a number or a boolean is written out,
    an array is refused. *)
Definition as_string (v : value) : option string :=
  match v with
  | VStr s => Some s
  | VNum n => Some (pretty n)
  | VBool b => Some (if b then "true" else "false")
  | VNull | VArr _ => None
  end.

(** The cast to [[String]]: a value that is not an array is wrapped into
    one. *)
Definition as_strings (v : value) : option (list string) :=
  match v with
  | VArr l => mapM as_string l
  | VNull => None
  | v => (λ s, [s]) <$> as_string v
  end.

(** The cast of the cover: [null] stays [null]. *)
Definition cast_cover (v : value) : error + option string :=
  match v with
  | VNull => inr None
  | v =>
      match as_string v with
      | Some c => inr (Some c)
      | None => inl (Rejected "Cast to string failed at path imageCover")
      end
  end.

Definition cast_gallery (v : value) : error + list string :=
  match as_strings v with
  | Some g => inr g
  | None => inl (Rejected "Cast to [string] failed at path images")
  end.

(** The [required] validator of [imageCover], run on an update that sets
    the field: [null] and the empty string are refused. *)
Definition require_cover (c : option string) : error + string :=
  match c with
  | Some c =>
      if truthy c then inr c
      else inl (Rejected "Validation failed: imageCover: An image is required")
  | None =>
      inl (Rejected "Validation failed: imageCover: An image is required")
  end.

(** Applying an update payload to the image fields of a document: the
    schema's casts first, then the validators of the fields that are set.
    The documents of this store always carry a gallery array: a payload
    whose gallery is [null], or holds a [null], is refused here. *)
Definition apply_payload (payload : gmap string value) (t : tour)
  : error + tour :=
  let cover :=
    match payload !! "imageCover" with
    | Some c => Some (cast_cover c)
    | None => None
    end in
  let gallery :=
    match payload !! "images" with
    | Some g => cast_gallery g
    | None => inr (images t)
    end in
  match cover, gallery with
  | Some (inl e), _ => inl e
  | _, inl e => inl e
  | Some (inr c), inr g =>
      match require_cover c with
      | inr c => inr (Tour (Some c) g)
      | inl e => inl e
      end
  | None, inr g => inr (Tour (imageCover t) g)
  end.

(** Documents by id, updated in place.  Ids are taken as they come: the
    [Tour] model rejects an id that is not an ObjectId, which is the [inl]
    answer of a [RecordStore]. *)
#[export] Instance mem_store : RecordStore (gmap string tour) := {|
  findById s id := inr (s !! id);
  findByIdAndUpdate s id payload :=
    match s !! id with
    | None => (inr None, s)
    | Some t =>
        match apply_payload payload t with
        | inl e => (inl e, s)
        | inr t' => (inr (Some t'), <[id := t']> s)
        end
    end |}.

(** A store in which another request removes the document between the read
    and the write: [findByIdAndUpdate] resolves to [null]. *)
Record racing_store := RacingStore { docs : gmap string tour }.

#[export] Instance racing : RecordStore racing_store := {|
  findById s id := inr (docs s !! id);
  findByIdAndUpdate s id payload := (inr None, RacingStore (delete id (docs s))) |}.

(** ** JavaScript strings: [split] on a one-character separator, [join] *)

Module Str.

(** [s.split(sep)]: the pieces between separators; never empty. *)
Fixpoint split (sep : ascii) (s : string) : list string :=
  match s with
  | EmptyString => [""]
  | String c s' =>
      if Ascii.eqb c sep then "" :: split sep s'
      else match split sep s' with
           | [] => [String c ""]
           | seg :: segs => String c seg :: segs
           end
  end.

(** [segs.join(sep)]. *)
Fixpoint join (sep : string) (segs : list string) : string :=
  match segs with
  | [] => ""
  | [seg] => seg
  | seg :: rest => seg +:+ sep +:+ join sep rest
  end.

(** [s] with every [a] replaced by [b]. *)
Fixpoint replace (a b : ascii) (s : string) : string :=
  match s with
  | EmptyString => ""
  | String c s' => String (if Ascii.eqb c a then b else c) (replace a b s')
  end.

(** [a] does not occur in [s]. *)
Fixpoint free (a : ascii) (s : string) : bool :=
  match s with
  | EmptyString => true
  | String c s' => negb (Ascii.eqb c a) && free a s'
  end.

End Str.

(** ** [utils/appError.js] and the upload filter *)

(** [this.status] of [new AppError(message, statusCode)]:
    [`${statusCode}`.startsWith('4') ? 'fail' : 'error']. *)
Definition AppError_status (statusCode : nat) : string :=
  if String.prefix "4" (pretty statusCode) then "fail" else "error".

(** [multerFilter]: the arguments it calls [cb] with. *)
Definition multerFilter (file : upload) : option error * bool :=
  if String.prefix "image" (mimetype file) then (None, true)
  else (Some (AppError "Not an image! Please upload only images." 400),
        false).

(** ** Query strings, [aliasTopTours] and [utils/apiFeatures.js] *)

(** A value of [req.query]: a string, or the array or object the parser
    builds from repeated and bracketed parameters. *)
Inductive param :=
| PStr (s : string)
| PArr (l : list param)
| PObj (o : list (string * param)).

(** Truthiness of a property that may be missing. *)
Definition param_truthy (p : option param) : bool :=
  match p with
  | Some (PStr s) => truthy s
  | Some _ => true
  | None => false
  end.

(** [aliasTopTours]: the object [req.query] is replaced with,
    [{ ...req.query, limit: '5', sort: '-ratingsAverage,price',
       fields: 'name,price,ratingsAverage,difficulty' }]. *)
Definition aliasTopTours (query : gmap string param) : gmap string param :=
  <["fields" := PStr "name,price,ratingsAverage,difficulty"]>
    (<["sort" := PStr "-ratingsAverage,price"]>
       (<["limit" := PStr "5"]> query)).

(** The [sort] and [limitFields] methods.  ([filter] goes through JSON
    text and a regular expression, [pagination] through floating-point
    numbers; they are not embedded.) *)
Module APIFeatures.

(** The calls made on the Mongoose query. *)
Inductive call :=
| Sort (arg : string)
| Select (arg : string).

(** An instance: [this.query], as the calls chained onto the query it was
    built with, and [this.queryString]. *)
Record t := Make { query : list call; queryString : gmap string param }.

(** How a method ends: it throws the [TypeError] of calling a missing
    [split], or returns [this], having written lines to the console. *)
Inductive result :=
| Threw
| Returned (this : t) (console : list string).

(** [p.split(',').join(' ')]; strings only have a [split] method. *)
Definition split_join (p : param) : option string :=
  match p with
  | PStr s => Some (Str.join " " (Str.split "," s))
  | _ => None
  end.

Definition sort (this : t) : result :=
  if param_truthy (queryString this !! "sort") then
    match queryString this !! "sort" ≫= split_join with
    | Some sortBy =>
        Returned (Make (query this ++ [Sort sortBy]) (queryString this))
          [sortBy]
    | None => Threw
    end
  else
    Returned (Make (query this ++ [Sort "-createdAt"]) (queryString this)) [].

Definition limitFields (this : t) : result :=
  if param_truthy (queryString this !! "fields") then
    match queryString this !! "fields" ≫= split_join with
    | Some fields =>
        Returned (Make (query this ++ [Select fields]) (queryString this)) []
    | None => Threw
    end
  else
    Returned (Make (query this ++ [Select "-__v"]) (queryString this)) [].

End APIFeatures.

(** ** Aggregations and geo queries *)

Module Geo.

(** Which branch of [unit === 'mi'] was taken: the Earth's radius is
    3963.2 (miles) or 6378.1 (kilometres), the distance multiplier
    0.000621371 or 0.001. *)
Inductive length_unit := Miles | Kilometres.

Definition unit_of (unit : string) : length_unit :=
  if bool_decide (unit = "mi") then Miles else Kilometres.

(** The stage specifications the handlers use.  Coordinates and distances
    are kept as the strings of the route parameters. *)
Inductive spec :=
| NotSecret
    (* { secretTour: { $ne: true } } *)
| Near (lng lat : string) (multiplier : length_unit)
    (* { near: { type: 'Point', coordinates: [lng * 1, lat * 1] },
         distanceField: 'distance', distanceMultiplier: multiplier } *)
| DistanceAndName
    (* { distance: 1, name: 1 } *)
| RatingsFrom45
    (* { ratingsAverage: { $gte: 4.5 } } *)
| ByDifficulty
    (* { _id: { $toUpper: '$difficulty' }, numTours: ..., maxPrice: ... } *)
| ByAvgPrice.
    (* { avgPrice: 1 } *)

(** A pipeline stage [{ operator: spec }]. *)
Record stage := Stage { operator : string; stage_spec : spec }.

(** [tourSchema.pre('aggregate', ...)]: the pipeline after the hook. *)
Definition pre_aggregate (pipeline : list stage) : list stage :=
  if negb (bool_decide (0 < length pipeline) &&
           match pipeline !! 0 with
           | Some first => bool_decide (operator first = "$geoNear")
           | None => false
           end)
  then Stage "$match" NotSecret :: pipeline
  else pipeline.

(** [{ startLocation: { $geoWithin: { $centerSphere:
       [[lng, lat], radius] } } }], the radius being [distance] divided by
    the Earth's radius in the unit. *)
Record within := Within {
  center_lng : string; center_lat : string;
  distance : string; radius_unit : length_unit }.

(** [latlng] reads [lat,lng] or [lat,lng,more]: [lat] and [lng] are not
    empty and hold no comma. *)
Definition well_formed (latlng lat lng : string) : Prop :=
  lat ≠ "" ∧ lng ≠ "" ∧
  Str.free "," lat = true ∧ Str.free "," lng = true ∧
  (latlng = lat +:+ "," +:+ lng ∨
   ∃ more, latlng = lat +:+ "," +:+ lng +:+ "," +:+ more).

(** How a handler ends: [next(err)] or [res.status(code).json(...)],
    with [results] when the answer carries a count. *)
Inductive outcome (D : Type) :=
| Next (err : error)
| Json (status : nat) (results : option nat) (data : list D).
Arguments Next {D} err.
Arguments Json {D} status results data.

Section Queries.
(** Documents. *)
Context {D : Type}.
(** [await Tour.find(filter)] and the aggregation proper, behind the
    hook: they reject or resolve to documents. *)
Variable find : within → error + list D.
Variable aggregate : list stage → error + list D.

Definition bad_latlng : error :=
  AppError "Please provide latitude and longitude in the format lat, lng."
    400.

(** [getToursWithin], wrapped in [catchAsync]. *)
Definition getToursWithin (distance latlng unit : string) : outcome D :=
  let parts := Str.split "," latlng in
  let lat := parts !! 0 in
  let lng := parts !! 1 in
  let radius := unit_of unit in
  match lat, lng with
  | Some lat, Some lng =>
      if negb (truthy lat) || negb (truthy lng) then Next bad_latlng
      else
        match find (Within lng lat distance radius) with
        | inl e => Next e
        | inr tours => Json 200 (Some (length tours)) tours
        end
  | _, _ => Next bad_latlng
  end.

(** [getDistances], wrapped in [catchAsync]. *)
Definition getDistances (latlng unit : string) : outcome D :=
  let parts := Str.split "," latlng in
  let lat := parts !! 0 in
  let lng := parts !! 1 in
  let multiplier := unit_of unit in
  match lat, lng with
  | Some lat, Some lng =>
      if negb (truthy lat) || negb (truthy lng) then Next bad_latlng
      else
        match aggregate
                (pre_aggregate [Stage "$geoNear" (Near lng lat multiplier);
                                Stage "$project" DistanceAndName]) with
        | inl e => Next e
        | inr distances => Json 200 None distances
        end
  | _, _ => Next bad_latlng
  end.


End Queries.

End Geo.

(** ** Route guards *)




(** ** Authentication: [protect] and the password timestamp *)

Module Auth.

(** The fields of a user document that the guards read;
    [passwordChangedAt] in milliseconds since the epoch. *)
Record user := User { role : string; passwordChangedAt : option Z }.

(** The payload of a verified token: [decoded.id], [decoded.iat]. *)
Record decoded := Decoded { id : string; iat : Z }.

(** The first [userSchema.pre('save', ...)] hook, [now] being
    [Date.now()]. *)
Definition pre_save (isModified_password isNew : bool) (now : Z) (u : user)
  : user :=
  if negb isModified_password || isNew then u
  else User (role u) (Some (now - 1000)%Z).

(** [changedPasswordAfter(JWTTimestamp)]; [parseInt(ms / 1000, 10)] drops
    the fraction. *)
Definition changedPasswordAfter (u : user) (JWTTimestamp : Z) : bool :=
  match passwordChangedAt u with
  | Some ms =>
      let changedTimestamp := (ms ÷ 1000)%Z in
      bool_decide (JWTTimestamp < changedTimestamp)%Z
  | None => false
  end.

(** How [protect] ends: [next(err)], or [req.user = currentUser],
    [res.locals.user = currentUser] and [next()]. *)
Inductive outcome :=
| Denied (err : error)
| Granted (currentUser : user).

Section Protect.
(** [await promisify(jwt.verify)(token, process.env.JWT_SECRET)] and
    [await User.findById(id)]: they reject or resolve. *)
Variable verify : string → error + decoded.
Variable findById : string → error + option user.

(** Step 1 of [protect]: the token, from [req.headers.authorization] or
    [req.cookies.jwt]. *)
Definition token (authorization cookie : option string) : option string :=
  match authorization with
  | Some header =>
      if truthy header && String.prefix "Bearer" header
      then Str.split " " header !! 1
      else match cookie with
           | Some jwt => if truthy jwt then Some jwt else None
           | None => None
           end
  | None =>
      match cookie with
      | Some jwt => if truthy jwt then Some jwt else None
      | None => None
      end
  end.

(** [protect], wrapped in [catchAsync]; the [console.log] of the decoded
    payload is left out. *)
Definition protect (authorization cookie : option string) : outcome :=
  match token authorization cookie with
  | Some (String _ _ as token) =>
      (* 2) verify token *)
      match verify token with
      | inl e => Denied e
      | inr decoded =>
          (* 3) check if user still exists *)
          match findById (id decoded) with
          | inl e => Denied e
          | inr None =>
              Denied (AppError
                        "The user belonging to this token no longer exists."
                        401)
          | inr (Some currentUser) =>
              (* 4) check if user changed password after the token was
                 issued *)
              if changedPasswordAfter currentUser (iat decoded)
              then Denied (AppError
                             "Password was changed. Please log in again."
                             401)
              else Granted currentUser
          end
      end
  | _ => Denied (AppError "You are not logged in! Please log in." 401)
  end.

End Protect.

End Auth.

(** ** A deployment to run the handlers in

    The scenario of the specification: tour "1" has the cover
    [tour-1-100-cover.jpeg] and the gallery [tour-1-100-1.jpeg],
    [tour-1-100-2.jpeg]; the clock reads 200 when the request arrives. *)

Module Sample.

Definition cwd : string := "/app".

(** sharp rejects an empty buffer and otherwise returns the bytes. *)
Definition sharp (buffer : list N) : option (list N) :=
  match buffer with [] => None | _ => Some buffer end.

Definition io_time (fullPath : string) : N := 7.

(** The tours directory exists and has no subdirectories: a file can be
    written directly inside it and nowhere else. *)
Definition write_error (fullPath : string) : option string :=
  match Path.split fullPath with
  | ["" ; "app"; "public"; "img"; "tours"; name] =>
      if Path.nonempty name then None
      else Some "unable to open for write"
  | _ => Some "unable to open for write"
  end.

Definition before : tour :=
  Tour (Some "tour-1-100-cover.jpeg")
       ["tour-1-100-1.jpeg"; "tour-1-100-2.jpeg"].

Definition store : gmap string tour := {[ "1" := before ]}.

Definition old_files : gmap string entry :=
  {[ "/app/public/img/tours/tour-1-100-cover.jpeg" := File [10%N];
     "/app/public/img/tours/tour-1-100-1.jpeg" := File [11%N];
     "/app/public/img/tours/tour-1-100-2.jpeg" := File [12%N] ]}.

Definition w0 : world (gmap string tour) := World store old_files 200 [].

(** The same, but the first gallery file is already gone and the second
    cannot be removed. *)
Definition rough_files : gmap string entry :=
  {[ "/app/public/img/tours/tour-1-100-cover.jpeg" := File [10%N];
     "/app/public/img/tours/tour-1-100-2.jpeg"
       := Locked "EPERM: operation not permitted" ]}.

Definition w_rough : world (gmap string tour) :=
  World store rough_files 200 [].

(** The same documents behind the store that loses the race. *)
Definition w_racing : world racing_store :=
  World (RacingStore store) old_files 200 [].

Definition fields : gmap string value :=
  {[ "name" := VStr "The Forest Hiker"; "price" := VNum 397 ]}.

(** One new cover and one new gallery image. *)
Definition req_cover_and_one : request :=
  Request "1" fields
    (Some (Uploads (Some [Upload [1%N; 2%N] "image/png"])
                   (Some [Upload [3%N] "image/jpeg"]))).

(** Two gallery images, and text sent under both image keys. *)
Definition req_two_gallery : request :=
  Request "1"
    (<["images" := VStr "mine.jpeg"]> (<["imageCover" := VStr "x.jpeg"]> fields))
    (Some (Uploads None
             (Some [Upload [3%N] "image/jpeg"; Upload [4%N; 5%N] "image/jpeg"]))).

(** No upload at all. *)
Definition req_plain : request := Request "1" fields None.

(** What [resizeTourImages] hands over for [req_cover_and_one]. *)
Definition req_merged : request :=
  Request "1"
    (<["imageCover" := VStr "tour-1-200-cover.jpeg"]>
       (<["images" := VArr [VStr "tour-1-200-1.jpeg"]]> fields))
    (files req_cover_and_one).

Definition updated : tour :=
  Tour (Some "tour-1-200-cover.jpeg") ["tour-1-200-1.jpeg"].

(** A client that sends names as text fields: a new cover name, and the
    old cover as the only gallery image. *)
Definition req_reuse : request :=
  Request "1"
    {[ "imageCover" := VStr "tour-1-150-cover.jpeg";
       "images" := VArr [VStr "tour-1-100-cover.jpeg"] ]}
    None.

(** A payload the schema rejects, and an id that is not in the store. *)
Definition req_null_cover : request :=
  Request "1" {[ "imageCover" := VNull ]} None.

Definition req_unknown : request := Request "2" fields None.

(** A new cover that sharp accepts and a gallery file it rejects. *)
Definition req_bad_gallery : request :=
  Request "1" fields
    (Some (Uploads (Some [Upload [1%N; 2%N] "image/png"])
                   (Some [Upload [] "image/jpeg"]))).

(** A client that re-sends the cover name the record already has. *)
Definition req_same_cover : request :=
  Request "1" {[ "imageCover" := VStr "tour-1-100-cover.jpeg" ]} None.

(** One token verifies, for the user "u1", an admin who never changed the
    password. *)
Definition verify (token : string) : error + Auth.decoded :=
  if bool_decide (token = "good") then inr (Auth.Decoded "u1" 100)
  else inl (Rejected "invalid token").

Definition findUser (id : string) : error + option Auth.user :=
  inr (if bool_decide (id = "u1") then Some (Auth.User "admin" None)
       else None).

End Sample.

(** ** The handlers *)

Section Handlers.
(** The record store behind the [Tour] model. *)
Context {S : Type} `{!RecordStore S}.
(** [process.cwd()]. *)
Variable cwd : string.
(** The sharp pipeline [resize(2000, 1333).toFormat('jpeg').jpeg({quality:
    90})] on a buffer: the encoded bytes, or [None] when it rejects. *)
Variable sharp : list N → option (list N).
(** The message with which the file system refuses to create or overwrite
    a file at a path, if it does: a directory of the path is missing, the
    process may not write there. *)
Variable write_error : string → option string.
(** Milliseconds that an operation on a given path keeps the image store
    busy. *)
Variable io_time : string → N.

Definition emit (e : event) (w : world S) : world S :=
  World (db w) (disk w) (clock w) (trace w ++ [e]).

Definition elapse (p : string) (w : world S) : world S :=
  World (db w) (disk w) (clock w + io_time p) (trace w).

Definition set_disk (d : gmap string entry) (w : world S) : world S :=
  World (db w) d (clock w) (trace w).

Definition set_db (s : S) (w : world S) : world S :=
  World s (disk w) (clock w) (trace w).

(** *** Helper paths and safe file utilities *)

Definition TOURS_DIR : string := Path.join [cwd; "public"; "img"; "tours"].

Definition safeJoinInTours (filename : string) : string :=
  Path.join [TOURS_DIR; Path.basename (or_else filename "")].

(** [fileExists]: [fsp.access] resolves exactly for the entries present. *)
Definition fileExists (fullPath : string) (w : world S) : bool :=
  bool_decide (is_Some (disk w !! fullPath)).

(** [fsp.unlink]: removes a regular file; rejects on anything else. *)
Definition unlink (fullPath : string) (w : world S) : option string * world S :=
  let w := elapse fullPath (emit (EvUnlink fullPath) w) in
  match disk w !! fullPath with
  | Some (File _) => (None, set_disk (delete fullPath (disk w)) w)
  | Some (Locked reason) => (Some reason, w)
  | None =>
      (Some ("ENOENT: no such file or directory, unlink '" +:+ fullPath
             +:+ "'"), w)
  end.

(** [safeUnlink] is an async function with two suspension points; a call
    is either waiting for [fsp.access], waiting for [fsp.unlink], or
    settled with its result object. *)
Inductive unlink_task :=
| Accessing (fullPath : string)
| Unlinking (fullPath : string)
| Settled (r : unlink_result).

Definition unlink_pending (t : unlink_task) : bool :=
  match t with Settled _ => false | _ => true end.

(** The synchronous prefix of [safeUnlink(fullPath)], up to the first
    [await]. *)
Definition safeUnlink (fullPath : string) : unlink_task :=
  if negb (truthy fullPath) then Settled (UnlinkResult true true None)
  else Accessing fullPath.

(** One completion of an awaited call inside [safeUnlink], and the code
    that runs up to the next [await] or [return]. *)
Definition safeUnlink_step (w : world S) (t : unlink_task)
  : world S * unlink_task :=
  match t with
  | Accessing fullPath =>
      let w := elapse fullPath (emit (EvAccess fullPath) w) in
      if negb (fileExists fullPath w)
      then (w, Settled (UnlinkResult true true None))
      else (w, Unlinking fullPath)
  | Unlinking fullPath =>
      match unlink fullPath w with
      | (None, w) => (w, Settled (UnlinkResult true false None))
      | (Some msg, w) =>
          (emit (EvConsoleError fullPath msg) w,
           Settled (UnlinkResult false false (Some msg)))
      end
  | Settled r => (w, t)
  end.

(** [await Promise.allSettled(toDelete.map((absPath) =>
    safeUnlink(absPath)))]: every call is started, then completions are
    taken in schedule order until nothing is pending.  Each call needs at
    most two completions. *)
Definition cleanup (sched : list nat) (toDelete : list string) (w : world S)
  : world S * list unlink_task :=
  run unlink_pending safeUnlink_step
    (2 * length toDelete) sched w (safeUnlink <$> toDelete).

(** *** Image processing middleware *)

Definition coverName (id : string) (now : N) : string :=
  "tour-" +:+ id +:+ "-" +:+ pretty now +:+ "-cover.jpeg".

(** The template of line 130, [i] being the 0-based position. *)
Definition galleryName (id : string) (now : N) (i : nat) : string :=
  "tour-" +:+ id +:+ "-" +:+ pretty now +:+ "-" +:+ pretty (i + 1)
    +:+ ".jpeg".

(** Why a write to [fullPath] is refused in [w], if it is: an entry that
    is not a regular file is in the way, or the file system refuses the
    path. *)
Definition write_refused (fullPath : string) (w : world S) : option string :=
  match disk w !! fullPath with
  | Some (Locked reason) => Some reason
  | _ => write_error fullPath
  end.

(** [await sharp(buffer)...toFile(fullPath)]: the pipeline rejects when
    sharp cannot read the buffer or the output cannot be written;
    otherwise the path holds the encoded bytes. *)
Definition toFile (file : upload) (fullPath : string) (w : world S)
  : option error * world S :=
  let w := elapse fullPath (emit (EvToFile fullPath) w) in
  match sharp (buffer file) with
  | Some data =>
      match write_refused fullPath w with
      | Some reason => (Some (Rejected reason), w)
      | None => (None, set_disk (<[fullPath := File data]> (disk w)) w)
      end
  | None => (Some (Rejected "Input buffer contains unsupported image format"), w)
  end.

(** One callback of [req.files.images.map(async (file, i) => ...)]: it
    has computed [filename] and awaits the sharp pipeline, or is done. *)
Inductive gallery_task :=
| Transcoding (filename : string) (file : upload)
| Finished.

Definition gallery_pending (t : gallery_task) : bool :=
  match t with Transcoding _ _ => true | Finished => false end.

(** State shared by the callbacks: the world, [newBody.images], and the
    first rejection, which is the one [Promise.all] rejects with. *)
Record gallery_state := GalleryState {
  g_world : world S;
  g_images : list string;
  g_rejection : option error }.

(** Completion of one sharp pipeline and the rest of its callback:
    [newBody.images.push(filename)] unless the pipeline rejected. *)
Definition gallery_step (st : gallery_state) (t : gallery_task)
  : gallery_state * gallery_task :=
  match t with
  | Transcoding filename file =>
      match toFile file (Path.join [TOURS_DIR; filename]) (g_world st) with
      | (None, w) =>
          (GalleryState w (g_images st ++ [filename]) (g_rejection st),
           Finished)
      | (Some e, w) =>
          (GalleryState w (g_images st)
             (Some (default e (g_rejection st))), Finished)
      end
  | Finished => (st, t)
  end.

(** [req.files.images.map(async (file, i) => ...)] up to each callback's
    first [await]. *)
Definition gallery_tasks (id : string) (now : N) (fs : list upload)
  : list gallery_task :=
  imap (λ i file, Transcoding (galleryName id now i) file) fs.

(** [resizeTourImages], wrapped in [catchAsync]: the request as left for
    the next middleware, the argument of [next], and the world.  When a
    gallery pipeline rejects, [Promise.all] rejects and [next(err)] is
    called while the other callbacks are still in flight; the world
    returned is the one in which they have all completed. *)
Definition resizeTourImages (sched : list nat) (req : request) (w : world S)
  : request * option error * world S :=
  let cover := files req ≫= files_imageCover in
  let gallery := files req ≫= files_images in
  match cover, gallery with
  | None, None => (req, None, w)
  | _, _ =>
      let newBody : gmap string value := ∅ in
      let now := clock w in
      (* 1) the cover image *)
      let '(err, newBody, w) :=
        match cover with
        | Some (file :: _) =>
            let name := coverName (params_id req) now in
            match toFile file (Path.join [TOURS_DIR; name]) w with
            | (None, w) => (None, <["imageCover" := VStr name]> newBody, w)
            | (Some e, w) => (Some e, newBody, w)
            end
        | _ => (None, newBody, w)
        end in
      match err with
      | Some e => (req, Some e, w)
      | None =>
          (* 2) the gallery images *)
          let '(err, newBody, w) :=
            match gallery with
            | Some ((_ :: _) as fs) =>
                let '(st, _) :=
                  run gallery_pending gallery_step (length fs) sched
                    (GalleryState w [] None)
                    (gallery_tasks (params_id req) now fs) in
                (g_rejection st,
                 <["images" := VArr (VStr <$> g_images st)]> newBody,
                 g_world st)
            | _ => (None, newBody, w)
            end in
          match err with
          | Some e => (req, Some e, w)
          | None =>
              (Request (params_id req) (spread (body req) newBody)
                 (files req), None, w)
          end
      end
  end.

(** *** Update with safe replacement of old images *)

(** Step 3 of [updateTour]: the absolute paths to delete. *)
Definition toDelete (payload : gmap string value) (before updated : tour)
  : list string :=
  let toDelete : list string := [] in
  let toDelete :=
    if hasOwnProperty payload "imageCover" then
      match imageCover before with
      | Some old =>
          if truthy old && negb (bool_decide (Some old = imageCover updated))
          then toDelete ++ [safeJoinInTours old]
          else toDelete
      | None => toDelete
      end
    else toDelete in
  let toDelete :=
    if hasOwnProperty payload "images" then
      if negb (bool_decide (length (images before) = 0)) then
        fold_left
          (λ toDelete oldName,
             if truthy oldName && negb (includes (images updated) oldName)
             then toDelete ++ [safeJoinInTours oldName]
             else toDelete)
          (images before) toDelete
      else toDelete
    else toDelete in
  toDelete.

(** [updateTour], wrapped in [catchAsync]. *)
Definition updateTour (sched : list nat) (req : request) (w : world S)
  : outcome * world S :=
  (* 1) load the current document *)
  let w := emit (EvFindById (params_id req)) w in
  match findById (db w) (params_id req) with
  | inl e => (Next (Some e), w)
  | inr None => (Next (Some (AppError "No tour found with that ID" 404)), w)
  | inr (Some before) =>
      (* 2) perform the update *)
      let w := emit (EvFindByIdAndUpdate (params_id req) (body req)) w in
      match findByIdAndUpdate (db w) (params_id req) (body req) with
      | (inl e, s) => (Next (Some e), set_db s w)
      | (inr None, s) =>
          (Next (Some (AppError "Failed to update the tour" 500)),
           set_db s w)
      | (inr (Some updated), s) =>
          let w := set_db s w in
          (* 3) decide what to delete *)
          let toDelete := toDelete (body req) before updated in
          (* 4) delete old files on disk *)
          let w :=
            if negb (bool_decide (length toDelete = 0))
            then (cleanup sched toDelete w).1
            else w in
          (* 5) respond with the updated document *)
          (Json 200 updated, w)
      end
  end.

(** *** The deletion set in the words of the specification

    "If the payload contained a cover field and the new cover differs
    from the before-cover, mark the before-cover for deletion.  If the
    payload contained a gallery field, mark every before-gallery filename
    for deletion unless it still appears in the new gallery array."
    Empty names are never marked. *)

Definition cover_marked (payload : gmap string value) (before updated : tour)
  (f : string) : Prop :=
  is_Some (payload !! "imageCover") ∧ imageCover before = Some f ∧
  f ≠ "" ∧ imageCover updated ≠ Some f.

Definition gallery_marked (payload : gmap string value)
  (before updated : tour) (f : string) : Prop :=
  is_Some (payload !! "images") ∧ f ∈ images before ∧
  f ≠ "" ∧ f ∉ images updated.

Definition marked_cover_spec (payload : gmap string value)
  (before updated : tour) : list string :=
  match payload !! "imageCover", imageCover before with
  | Some _, Some old =>
      if decide (old ≠ "" ∧ imageCover updated ≠ Some old) then [old]
      else []
  | _, _ => []
  end.

Definition marked_gallery_spec (payload : gmap string value)
  (before updated : tour) : list string :=
  match payload !! "images" with
  | Some _ => filter (λ f, f ≠ "" ∧ f ∉ images updated) (images before)
  | None => []
  end.

(** A file name as the middleware generates them: one path portion that
    is not a dot entry. *)
Definition plain (f : string) : Prop :=
  Path.split f = [f] ∧ f ≠ "" ∧ f ≠ "." ∧ f ≠ "..".

(** The names a document refers to. *)
Definition referenced (t : tour) : list string :=
  match imageCover t with Some c => c :: images t | None => images t end.

(** No file was uploaded: each field of [req.files] is missing or holds
    no file. *)
Definition no_uploads (req : request) : Prop :=
  (files req ≫= files_imageCover) ∈ [None; Some []] ∧
  (files req ≫= files_images) ∈ [None; Some []].

(** What [path.join] puts in front of a plain file name. *)
Definition join_prefix (dir : string) : string :=
  (if Path.isAbsolute dir then "/" else "") +:+
  match Path.normalizeString (negb (Path.isAbsolute dir)) []
          (Path.split dir) with
  | [] => ""
  | segs => Path.unsplit segs +:+ "/"
  end.

(** The portions of the tours directory. *)
Definition tours_segs : list string :=
  Path.normalizeString false [] (Path.split cwd) ++ ["public"; "img"; "tours"].

(** The portions of its parent. *)
Definition img_segs : list string :=
  Path.normalizeString false [] (Path.split cwd) ++ ["public"; "img"].

(** *** What a run of the concurrent parts maintains *)

(** The world in which the cleanup starts: both store calls made, the
    store in its updated state. *)
Definition after_update (req : request) (s : S) (w : world S) : world S :=
  set_db s
    (emit (EvFindByIdAndUpdate (params_id req) (body req))
       (emit (EvFindById (params_id req)) w)).

(** The names still to be pushed by the gallery callbacks in flight. *)
Definition pending_names (ts : list gallery_task) : list string :=
  omap (λ t, match t with
             | Transcoding filename _ => Some filename
             | Finished => None
             end) ts.

(** The state of the [safeUnlink] call for path [p], in a cleanup that
    started in world [w0] and has reached world [w]. *)
Definition unlink_tracks (w0 w : world S) (p : string) (t : unlink_task)
  : Prop :=
  match t with
  | Accessing q => q = p
  | Unlinking q =>
      q = p ∧ EvAccess p ∈ trace w ∧ is_Some (disk w0 !! p)
  | Settled r =>
      (p = "" ∧ r = UnlinkResult true true None) ∨
      (EvAccess p ∈ trace w ∧
       ((r = UnlinkResult true true None ∧ disk w !! p = None) ∨
        (r = UnlinkResult true false None ∧ EvUnlink p ∈ trace w ∧
           disk w !! p = None ∧ is_Some (disk w0 !! p)) ∨
        (∃ msg, r = UnlinkResult false false (Some msg) ∧
           EvUnlink p ∈ trace w ∧ EvConsoleError p msg ∈ trace w ∧
           is_Some (disk w0 !! p) ∧
           (disk w !! p = None ∨ disk w0 !! p = Some (Locked msg)))))
  end.

(** An event of a cleanup of [paths] started in [w0]: an existence check
    of one of the paths or, for a path that had an entry, an unlink call
    or the report of its failure. *)
Definition cleanup_event (w0 : world S) (paths : list string) (e : event)
  : Prop :=
  ∃ p, p ∈ paths ∧
    (e = EvAccess p ∨
     (is_Some (disk w0 !! p) ∧
      (e = EvUnlink p ∨ ∃ msg, e = EvConsoleError p msg))).

(** What a cleanup of [paths] started in [w0] may have changed in [w]:
    nothing in the record store, on disk only entries of [paths] that it
    unlinked, and only its own calls in the trace. *)
Definition cleanup_frame (w0 : world S) (paths : list string) (w : world S)
  : Prop :=
  db w = db w0 ∧
  (∀ q, disk w !! q = disk w0 !! q ∨
        (q ∈ paths ∧ disk w !! q = None ∧ EvUnlink q ∈ trace w)) ∧
  ∃ evs, trace w = trace w0 ++ evs ∧ Forall (cleanup_event w0 paths) evs.



Definition unlink_work (t : unlink_task) : nat :=
  match t with Accessing _ => 2 | Unlinking _ => 1 | Settled _ => 0 end.

Definition gallery_work (t : gallery_task) : nat :=
  match t with Transcoding _ _ => 1 | Finished => 0 end.

(** *** What the handlers leave on disk *)

(** The path holds a regular file. *)
Definition is_file (e : option entry) : Prop := ∃ data, e = Some (File data).

(** What the sharp pipelines may have changed in [w] since [w0], writing
    to [paths] only: nothing in the record store; on disk, entries of
    [paths] that now hold a regular file; in the trace, their own calls. *)
Definition write_frame (w0 : world S) (paths : list string) (w : world S)
  : Prop :=
  db w = db w0 ∧
  (clock w0 ≤ clock w)%N ∧
  (∀ q, disk w !! q = disk w0 !! q ∨ (q ∈ paths ∧ is_file (disk w !! q))) ∧
  ∃ evs, trace w = trace w0 ++ evs ∧
         Forall (λ e, ∃ p, p ∈ paths ∧ e = EvToFile p) evs.

(** What a cleanup may have changed on disk: entries that were regular
    files in [w0], belong to [paths] and are gone in [w]. *)
Definition cleanup_shrinks (w0 : world S) (paths : list string) (w : world S)
  : Prop :=
  ∀ q, disk w !! q = disk w0 !! q ∨
       (q ∈ paths ∧ disk w !! q = None ∧ is_file (disk w0 !! q)).

(** The callback still in flight writes one of [names] from one of [fs]. *)
Definition gallery_task_of (names : list string) (fs : list upload)
  (t : gallery_task) : Prop :=
  match t with
  | Transcoding filename file => filename ∈ names ∧ file ∈ fs
  | Finished => True
  end.

(** The callback still in flight is bound to reject: sharp rejects its
    buffer, or its output cannot be written in [w0]. *)
Definition gallery_task_doomed (w0 : world S) (t : gallery_task) : Prop :=
  match t with
  | Transcoding filename file =>
      sharp (buffer file) = None ∨
      is_Some (write_refused (Path.join [TOURS_DIR; filename]) w0)
  | Finished => False
  end.

(** The files [resizeTourImages] runs a pipeline for: the first cover file
    and every gallery file. *)
Definition cover_upload (req : request) : list upload :=
  match files req ≫= files_imageCover with
  | Some (file :: _) => [file]
  | _ => []
  end.

Definition gallery_uploads (req : request) : list upload :=
  default [] (files req ≫= files_images).

(** The paths it writes them to. *)
Definition cover_paths (req : request) (now : N) : list string :=
  (λ _, Path.join [TOURS_DIR; coverName (params_id req) now])
    <$> cover_upload req.

Definition gallery_paths (req : request) (now : N) : list string :=
  (λ i, Path.join [TOURS_DIR; galleryName (params_id req) now i])
    <$> seq 0 (length (gallery_uploads req)).

(** The calls [updateTour] makes to the record store. *)
Definition store_calls (req : request) : list event :=
  [EvFindById (params_id req);
   EvFindByIdAndUpdate (params_id req) (body req)].

(** A call made by the cleanup. *)
Definition is_cleanup_call (e : event) : Prop :=
  match e with
  | EvAccess _ | EvUnlink _ | EvConsoleError _ _ => True
  | _ => False
  end.

(** What the gallery callbacks maintain while they run, started in [w0]
    for the files [fs] under the names [names]. *)
Definition gallery_inv (w0 : world S) (names : list string)
  (fs : list upload) (st : gallery_state) (ts : list gallery_task) : Prop :=
  write_frame w0 ((λ n, Path.join [TOURS_DIR; n]) <$> names) (g_world st) ∧
  (∀ q, is_file (disk w0 !! q) → is_file (disk (g_world st) !! q)) ∧
  Forall (λ n, is_file (disk (g_world st) !! Path.join [TOURS_DIR; n]))
    (g_images st) ∧
  Forall (gallery_task_of names fs) ts ∧
  (∀ q, write_refused q (g_world st) = write_refused q w0) ∧
  (Forall (λ file, is_Some (sharp (buffer file))) fs →
   Forall (λ n, write_refused (Path.join [TOURS_DIR; n]) w0 = None) names →
   g_rejection st = None) ∧
  (Exists (gallery_task_doomed w0) (zip_with Transcoding names fs) →
   is_Some (g_rejection st) ∨ Exists (gallery_task_doomed w0) ts).

(** *** Counting the calls of a cleanup *)

(** How many elements of [l] satisfy [P]. *)
Definition tally {A : Type} (P : A → bool) (l : list A) : nat :=
  sum_list_with (λ x, if P x then 1 else 0) l.

Definition is_access (p : string) (e : event) : bool :=
  match e with EvAccess q => bool_decide (q = p) | _ => false end.

Definition is_unlink (p : string) (e : event) : bool :=
  match e with EvUnlink q => bool_decide (q = p) | _ => false end.

Definition is_console_error (p : string) (e : event) : bool :=
  match e with EvConsoleError q _ => bool_decide (q = p) | _ => false end.

(** The call for [p] has not made its existence check yet. *)
Definition accessing (p : string) (t : unlink_task) : bool :=
  match t with Accessing q => bool_decide (q = p) | _ => false end.

(** The call for [p] has not settled yet. *)
Definition in_flight (p : string) (t : unlink_task) : bool :=
  match t with
  | Accessing q | Unlinking q => bool_decide (q = p)
  | Settled _ => false
  end.

(** The calls made for [p] so far, against what a cleanup started in
    [w0] with the calls [ts0] may make: one existence check per call, at
    most one unlink per call, at most one report per unlink. *)
Definition cleanup_budget (w0 : world S) (ts0 : list unlink_task)
  (w : world S) (ts : list unlink_task) : Prop :=
  ∀ p,
    tally (is_access p) (trace w) + tally (accessing p) ts
    = tally (is_access p) (trace w0) + tally (accessing p) ts0 ∧
    tally (is_unlink p) (trace w) + tally (in_flight p) ts
    ≤ tally (is_unlink p) (trace w0) + tally (in_flight p) ts0 ∧
    tally (is_console_error p) (trace w) + tally (is_unlink p) (trace w0)
    ≤ tally (is_console_error p) (trace w0) + tally (is_unlink p) (trace w).

(** What the gallery callbacks have put on disk so far: the callback at
    position [i] is still in flight for the file uploaded at [i], or it is
    done and, if sharp accepted that file and the path generated for [i]
    can be written, that path holds its encoding. *)
Definition gallery_contents (id : string) (now : N) (fs : list upload)
  (st : gallery_state) (ts : list gallery_task) : Prop :=
  length ts = length fs ∧
  ∀ i file, fs !! i = Some file →
    ts !! i = Some (Transcoding (galleryName id now i) file) ∨
    (ts !! i = Some Finished ∧
     ∀ data, sharp (buffer file) = Some data →
       write_refused (Path.join [TOURS_DIR; galleryName id now i])
         (g_world st) = None →
       disk (g_world st) !! Path.join [TOURS_DIR; galleryName id now i]
       = Some (File data)).

(** ** Facts about the scheduler *)

Section SchedulerFacts.
Context {St T : Type}.
Variable pending : T → bool.
Variable step : St → T → St * T.

Lemma waiting_cons t ts :
  waiting pending (t :: ts)
  = if pending t then Datatypes.S (waiting pending ts)
    else waiting pending ts.
Proof.
  unfold waiting. rewrite filter_cons.
  destruct (pending t); by case_decide.
Qed.

(** A choice below the number of pending tasks selects a pending task,
    steps it, and leaves the other tasks alone. *)
Lemma advance_pick k st ts :
  k < waiting pending ts →
  ∃ ts1 t ts2,
    ts = ts1 ++ t :: ts2 ∧ pending t = true ∧
    advance pending step k st ts
    = ((step st t).1, ts1 ++ (step st t).2 :: ts2).
Proof.
  revert k. induction ts as [|t ts IH]; intros k Hk.
  - unfold waiting in Hk. simpl in Hk. lia.
  - rewrite waiting_cons in Hk. simpl.
    destruct (pending t) eqn:Hp.
    + destruct k as [|k].
      * exists [], t, ts. split; [done|]. split; [done|].
        simpl. by destruct (step st t).
      * destruct (IH k) as (ts1 & u & ts2 & -> & Hu & ->); [lia|].
        by exists (t :: ts1), u, ts2.
    + destruct (IH k) as (ts1 & u & ts2 & -> & Hu & ->); [done|].
      by exists (t :: ts1), u, ts2.
Qed.

(** A property of the shared state and the task list that every single
    step preserves holds when the run stops. *)
Lemma run_invariant (I : St → list T → Prop) :
  (∀ st ts1 t ts2,
     pending t = true → I st (ts1 ++ t :: ts2) →
     I (step st t).1 (ts1 ++ (step st t).2 :: ts2)) →
  ∀ fuel sched st ts,
    I st ts →
    I (run pending step fuel sched st ts).1
      (run pending step fuel sched st ts).2.
Proof.
  intros Hstep fuel.
  induction fuel as [|fuel IH]; intros sched st ts HI; [done|].
  cbn [run]. destruct (waiting pending ts) as [|n] eqn:Hw; [done|].
  destruct (advance_pick (hd 0 sched `mod` Datatypes.S n) st ts)
    as (ts1 & t & ts2 & -> & Hp & ->).
  { rewrite Hw. apply Nat.mod_upper_bound. lia. }
  apply IH, Hstep; done.
Qed.

(** With enough fuel for the work that is left, nothing is pending when
    the run stops. *)
Lemma run_settles (work : T → nat) :
  (∀ st t, pending t = true → work (step st t).2 < work t) →
  ∀ fuel sched st ts,
    sum_list_with work ts ≤ fuel →
    waiting pending (run pending step fuel sched st ts).2 = 0.
Proof.
  intros Hwork fuel.
  induction fuel as [|fuel IH]; intros sched st ts Hfuel.
  - simpl. induction ts as [|t ts IHts]; [done|].
    simpl in Hfuel. rewrite waiting_cons.
    destruct (pending t) eqn:Hp.
    + specialize (Hwork st t Hp). lia.
    + apply IHts. lia.
  - cbn [run]. destruct (waiting pending ts) as [|n] eqn:Hw; [done|].
    destruct (advance_pick (hd 0 sched `mod` Datatypes.S n) st ts)
      as (ts1 & t & ts2 & -> & Hp & ->).
    { rewrite Hw. apply Nat.mod_upper_bound. lia. }
    apply IH. specialize (Hwork st t Hp).
    rewrite sum_list_with_app in *. simpl in *. lia.
Qed.

Lemma waiting_0_Forall ts :
  waiting pending ts = 0 → Forall (λ t, pending t = false) ts.
Proof.
  induction ts as [|t ts IH]; [by constructor|].
  rewrite waiting_cons. destruct (pending t) eqn:Hp; [done|].
  intros. constructor; auto.
Qed.
End SchedulerFacts.

(** ** Facts about the cleanup *)

Lemma unlink_tracks_mono w0 w w' p t :
  trace w ⊆ trace w' →
  (∀ q, disk w !! q = None → disk w' !! q = None) →
  unlink_tracks w0 w p t → unlink_tracks w0 w' p t.
Proof.
  intros Htr Hdisk. destruct t as [q|q|r]; simpl; [done|..].
  - intros (-> & ? & ?). auto.
  - intros [?|(? & [(-> & ?)|[(-> & ? & ? & ?)
                             |(msg & -> & ? & ? & ? & Hwhy)]])].
    + by left.
    + right. auto.
    + right. split; [auto|]. right. left. auto.
    + right. split; [auto|]. right. right. exists msg.
      repeat split; [auto..|]. destruct Hwhy; auto.
Qed.

(** The disk part of the frame survives a step that leaves the disk alone
    and only adds to the trace. *)
Lemma frame_disk_mono (w0 : world S) (paths : list string) (w w' : world S) :
  disk w' = disk w → trace w ⊆ trace w' →
  (∀ q, disk w !! q = disk w0 !! q ∨
        (q ∈ paths ∧ disk w !! q = None ∧ EvUnlink q ∈ trace w)) →
  ∀ q, disk w' !! q = disk w0 !! q ∨
       (q ∈ paths ∧ disk w' !! q = None ∧ EvUnlink q ∈ trace w').
Proof.
  intros -> Htr Hdisk q. destruct (Hdisk q) as [?|(? & ? & ?)]; auto.
Qed.

Lemma cleanup_frame_refl w paths : cleanup_frame w paths w.
Proof.
  split; [done|]. split; [by left|].
  exists []. by rewrite app_nil_r.
Qed.

(** A step of the call for a path of [paths] stays within the frame, and
    moves that call along. *)
Lemma safeUnlink_step_tracks w0 paths w p t :
  p ∈ paths → unlink_pending t = true →
  cleanup_frame w0 paths w → unlink_tracks w0 w p t →
  cleanup_frame w0 paths (safeUnlink_step w t).1 ∧
  unlink_tracks w0 (safeUnlink_step w t).1 p (safeUnlink_step w t).2 ∧
  trace w ⊆ trace (safeUnlink_step w t).1 ∧
  (∀ q, disk w !! q = None → disk (safeUnlink_step w t).1 !! q = None).
Proof.
  clear sharp write_error.
  intros Hp Hpend (Hdb & Hdisk & evs & Htr & Hevs) Ht.
  destruct t as [q|q|r]; [| |done]; simpl in Ht.
  - (* the existence check completes *)
    subst q. simpl. unfold fileExists. simpl.
    assert (cleanup_frame w0 paths
              (elapse p (emit (EvAccess p) w))) as Hframe.
    { split; [done|]. split.
      { apply (frame_disk_mono w0 paths w); [done|simpl; set_solver|done]. }
      exists (evs ++ [EvAccess p]). simpl. rewrite Htr, (assoc_L (++)).
      split; [done|]. apply Forall_app. split; [done|].
      constructor; [|done]. exists p. auto. }
    case_bool_decide as Hex; simpl.
    + split; [done|]. split; [|split; [set_solver|done]].
      split; [done|]. split; [set_solver|].
      destruct (Hdisk p) as [<-|(_ & Hnone & _)]; [done|].
      rewrite Hnone in Hex. by destruct Hex.
    + split; [done|]. split; [|split; [set_solver|done]].
      right. split; [set_solver|]. left. split; [done|].
      by apply eq_None_not_Some.
  - (* the unlink completes *)
    destruct Ht as (-> & Hacc & Hsome). simpl. unfold unlink. simpl.
    destruct (disk w !! p) as [[data|reason]|] eqn:Hlook; simpl.
    + split; [|split; [|split; [set_solver|]]].
      * split; [done|]. split.
        { intros q. simpl. destruct (decide (q = p)) as [->|Hne].
          - right. rewrite lookup_delete_eq. split; [done|].
            split; [done|set_solver].
          - rewrite lookup_delete_ne by done.
            destruct (Hdisk q) as [?|(? & ? & ?)]; [by left|].
            right. split; [done|]. split; [done|set_solver]. }
        exists (evs ++ [EvUnlink p]). simpl. rewrite Htr, (assoc_L (++)).
        split; [done|]. apply Forall_app. split; [done|].
        constructor; [|done]. exists p. auto.
      * right. split; [set_solver|]. right. left. simpl.
        rewrite lookup_delete_eq. repeat split; [set_solver|done].
      * intros q Hq. simpl. destruct (decide (q = p)) as [->|Hne].
        -- by rewrite lookup_delete_eq.
        -- by rewrite lookup_delete_ne.
    + assert (disk w0 !! p = Some (Locked reason)) as Hlocked.
      { destruct (Hdisk p) as [<-|(_ & Hnone & _)]; [done|congruence]. }
      split; [|split; [|split; [set_solver|done]]].
      * split; [done|]. split.
        { apply (frame_disk_mono w0 paths w); [done|simpl; set_solver|done]. }
        exists (evs ++ [EvUnlink p; EvConsoleError p reason]). simpl.
        rewrite Htr, <-!(assoc_L (++)). split; [done|].
        apply Forall_app. split; [done|].
        repeat constructor; exists p; eauto 6.
      * right. split; [set_solver|]. right. right. exists reason. simpl.
        repeat split; [set_solver..|done|by right].
    + split; [|split; [|split; [set_solver|done]]].
      * split; [done|]. split.
        { apply (frame_disk_mono w0 paths w); [done|simpl; set_solver|done]. }
        eexists (evs ++ [EvUnlink p; EvConsoleError p _]). simpl.
        rewrite Htr, <-!(assoc_L (++)). split; [done|].
        apply Forall_app. split; [done|].
        repeat constructor; exists p; eauto 6.
      * right. split; [set_solver|]. right. right. eexists. simpl.
        repeat split; [set_solver..|done|by left].
Qed.

Lemma safeUnlink_step_work (w : world S) t :
  unlink_pending t = true →
  unlink_work (safeUnlink_step w t).2 < unlink_work t.
Proof.
  destruct t as [p|p|r]; [| |done]; intros _; simpl.
  - destruct (negb (fileExists p _)); simpl; lia.
  - destruct (unlink p w) as [[msg|] w']; simpl; lia.
Qed.

Lemma safeUnlink_work paths :
  sum_list_with unlink_work (safeUnlink <$> paths) ≤ 2 * length paths.
Proof.
  induction paths as [|p paths IH]; [simpl; lia|].
  rewrite fmap_cons. cbn [sum_list_with length]. unfold safeUnlink at 1.
  destruct (negb (truthy p)); cbn [unlink_work]; lia.
Qed.

Lemma safeUnlink_tracks w p : unlink_tracks w w p (safeUnlink p).
Proof.
  unfold safeUnlink. destruct p as [|c p]; simpl; [|done].
  by left.
Qed.

(** Whatever the schedule, the cleanup settles every call it started,
    changes nothing outside its frame, and each call's result reflects
    what happened to its path. *)
Lemma cleanup_run sched paths w0 :
  cleanup_frame w0 paths (cleanup sched paths w0).1 ∧
  Forall2 (unlink_tracks w0 (cleanup sched paths w0).1)
    paths (cleanup sched paths w0).2 ∧
  Forall (λ t, unlink_pending t = false) (cleanup sched paths w0).2.
Proof.
  clear write_error.
  unfold cleanup.
  pose (I := λ w ts, cleanup_frame w0 paths w ∧
                     Forall2 (unlink_tracks w0 w) paths ts).
  assert (I (run unlink_pending safeUnlink_step (2 * length paths) sched
               w0 (safeUnlink <$> paths)).1
            (run unlink_pending safeUnlink_step (2 * length paths) sched
               w0 (safeUnlink <$> paths)).2) as [Hframe Htracks].
  { apply run_invariant.
    - intros w ts1 t ts2 Hpend [Hframe Htracks].
      apply Forall2_app_inv_r in Htracks
        as (ps1 & ps2' & H1 & H2 & Hpaths).
      apply Forall2_cons_inv_r in H2 as (p & ps2 & Ht & H2 & ->).
      assert (p ∈ paths) as Hp by (rewrite Hpaths; set_solver).
      destruct (safeUnlink_step_tracks w0 paths w p t Hp Hpend Hframe Ht)
        as (Hframe' & Ht' & Htr & Hdisk).
      split; [done|]. rewrite Hpaths.
      apply Forall2_app; [|constructor; [done|]].
      + eapply Forall2_impl; [exact H1|].
        intros q u. by apply unlink_tracks_mono.
      + eapply Forall2_impl; [exact H2|].
        intros q u. by apply unlink_tracks_mono.
    - split; [apply cleanup_frame_refl|].
      apply Forall2_fmap_r, Forall_Forall2_diag, Forall_forall.
      intros p _. apply safeUnlink_tracks. }
  split; [done|]. split; [done|].
  apply waiting_0_Forall, (run_settles _ _ unlink_work).
  - intros w t. apply safeUnlink_step_work.
  - apply safeUnlink_work.
Qed.





(** ** Facts about strings and paths *)

Lemma app_cons c s t : String c s +:+ t = String c (s +:+ t).
Proof. done. Qed.

Lemma app_empty_r s : s +:+ "" = s.
Proof. induction s as [|c s IH]; [done|]. by rewrite app_cons, IH. Qed.

Lemma app_assoc_str s t u : (s +:+ t) +:+ u = s +:+ t +:+ u.
Proof. induction s as [|c s IH]; [done|]. by rewrite !app_cons, IH. Qed.

Lemma app_length_str s t :
  String.length (s +:+ t) = String.length s + String.length t.
Proof.
  induction s as [|c s IH]; [done|]. rewrite app_cons. simpl.
  by rewrite IH.
Qed.

(** Appending the same suffix is injective. *)
Lemma app_inj_r s1 s2 t : s1 +:+ t = s2 +:+ t → s1 = s2.
Proof.
  revert s2. induction s1 as [|c s1 IH]; intros [|d s2] Heq.
  - done.
  - apply (f_equal String.length) in Heq.
    rewrite !app_length_str in Heq. simpl in Heq. lia.
  - apply (f_equal String.length) in Heq.
    rewrite !app_length_str in Heq. simpl in Heq. lia.
  - rewrite !app_cons in Heq. injection Heq as -> Heq.
    f_equal. by apply IH.
Qed.

Lemma split_not_nil s : Path.split s ≠ [].
Proof.
  destruct s as [|c s]; [done|]. simpl.
  destruct (Ascii.eqb c "/"); [done|]. by destruct (Path.split s).
Qed.

Lemma split_app_sep a b :
  Path.split (a +:+ "/" +:+ b) = Path.split a ++ Path.split b.
Proof.
  induction a as [|c a IH]; [done|].
  rewrite app_cons. simpl. rewrite IH.
  destruct (Ascii.eqb c "/"); [done|].
  pose proof (split_not_nil a). by destruct (Path.split a).
Qed.

Lemma normalizeString_app above res l1 l2 :
  Path.normalizeString above res (l1 ++ l2)
  = Path.normalizeString above
      (rev (Path.normalizeString above res l1)) l2.
Proof.
  revert res. induction l1 as [|seg l1 IH]; intros res.
  - simpl. by rewrite rev_involutive.
  - simpl. repeat case_match; apply IH.
Qed.

Lemma normalizeString_plain above res f :
  f ≠ "" → f ≠ "." → f ≠ ".." →
  Path.normalizeString above res [f] = rev res ++ [f].
Proof.
  intros. simpl. by rewrite !bool_decide_eq_false_2.
Qed.

Lemma unsplit_snoc l f :
  Path.unsplit (l ++ [f])
  = match l with [] => f | _ => Path.unsplit l +:+ "/" +:+ f end.
Proof.
  induction l as [|seg l IH]; [done|].
  destruct l as [|seg' l]; [done|].
  change (Path.unsplit ((seg :: seg' :: l) ++ [f]))
    with (seg +:+ "/" +:+ Path.unsplit ((seg' :: l) ++ [f])).
  rewrite IH.
  change (Path.unsplit (seg :: seg' :: l))
    with (seg +:+ "/" +:+ Path.unsplit (seg' :: l)).
  by rewrite !app_assoc_str.
Qed.

Lemma isAbsolute_app a b : a ≠ "" → Path.isAbsolute (a +:+ b) = Path.isAbsolute a.
Proof. by destruct a. Qed.

Lemma trailingSeparator_app a b :
  b ≠ "" → Path.trailingSeparator (a +:+ b) = Path.trailingSeparator b.
Proof.
  intros Hb. induction a as [|c a IH]; [done|].
  rewrite app_cons. simpl. rewrite IH.
  destruct (a +:+ b) eqn:Heq; [|done].
  destruct a; [|done]. by destruct b.
Qed.

Lemma nonempty_true s : Path.nonempty s = true ↔ s ≠ "".
Proof. by destruct s. Qed.

Lemma plain_no_trailing f : plain f → Path.trailingSeparator f = false.
Proof.
  intros (Hsplit & Hne & _). clear Hne.
  induction f as [|c f IH]; [done|].
  simpl in Hsplit. destruct (Ascii.eqb c "/") eqn:Hc; [done|].
  destruct (Path.split f) as [|seg segs] eqn:Hf; [by destruct (split_not_nil f)|].
  injection Hsplit as -> ->.
  simpl. destruct f as [|d f]; [done|]. by apply IH.
Qed.

Lemma basename_plain f : plain f → Path.basename (or_else f "") = f.
Proof.
  intros (Hsplit & Hne & _). unfold or_else, truthy, Path.basename.
  destruct f as [|c f]; [done|]. simpl Path.nonempty. cbv iota.
  rewrite Hsplit. by rewrite filter_cons_True.
Qed.

Lemma join_plain dir f :
  dir ≠ "" → plain f → Path.join [dir; f] = join_prefix dir +:+ f.
Proof.
  intros Hdir Hf. pose proof Hf as (Hsplit & Hne & Hdot & Hdots).
  unfold Path.join. rewrite !filter_cons_True, filter_nil
    by by apply nonempty_true.
  change (Path.unsplit [dir; f]) with (dir +:+ "/" +:+ f).
  unfold Path.normalize, join_prefix.
  assert (dir +:+ "/" +:+ f ≠ "") as Hne'.
  { destruct dir; done. }
  apply nonempty_true in Hne' as ->.
  rewrite isAbsolute_app by done.
  rewrite <-app_assoc_str, trailingSeparator_app, plain_no_trailing by done.
  rewrite app_assoc_str, split_app_sep, Hsplit.
  rewrite normalizeString_app, normalizeString_plain, rev_involutive by done.
  rewrite unsplit_snoc.
  set (segs := Path.normalizeString _ [] _).
  assert (∀ s, s +:+ f ≠ "") as Hnf.
  { intros s. destruct s; [|done]. done. }
  destruct segs as [|seg segs].
  - apply nonempty_true in Hne as ->. by rewrite !app_empty_r.
  - rewrite <-(app_assoc_str (Path.unsplit _) "/" f) at 1.
    pose proof (Hnf (Path.unsplit (seg :: segs) +:+ "/")) as Hn.
    rewrite app_assoc_str in Hn.
    apply nonempty_true in Hn. rewrite app_assoc_str, Hn.
    by rewrite app_empty_r, !app_assoc_str.
Qed.

Lemma normalize_nonempty p : Path.normalize p ≠ "".
Proof.
  unfold Path.normalize. destruct (Path.nonempty p); [|done].
  destruct (Path.nonempty _) eqn:Hb.
  - apply nonempty_true in Hb. destruct (Path.isAbsolute p); [done|].
    simpl. intros Heq. destruct (Path.unsplit _); done.
  - by repeat case_match.
Qed.

Lemma TOURS_DIR_nonempty : TOURS_DIR ≠ "".
Proof.
  unfold TOURS_DIR, Path.join.
  destruct (filter _ _) eqn:Hf; [done|]. apply normalize_nonempty.
Qed.

(** On plain names [safeJoinInTours] only prepends the directory, so
    distinct names resolve to distinct paths. *)
Lemma safeJoinInTours_plain f :
  plain f → safeJoinInTours f = join_prefix TOURS_DIR +:+ f.
Proof.
  intros Hf. unfold safeJoinInTours. rewrite basename_plain by done.
  apply join_plain; [apply TOURS_DIR_nonempty|done].
Qed.

Lemma safeJoinInTours_plain_inj f g :
  plain f → plain g → safeJoinInTours f = safeJoinInTours g → f = g.
Proof.
  intros Hf Hg. rewrite !safeJoinInTours_plain by done.
  apply (inj (String.app _)).
Qed.

(** ** Where [safeJoinInTours] lands

    With an absolute working directory the helper stays in the tours
    directory for every name whose last portion is not "..". *)

Lemma split_slash_free s : Forall (λ seg, Path.split seg = [seg]) (Path.split s).
Proof.
  induction s as [|c s IH]; [by repeat constructor|].
  simpl. destruct (Ascii.eqb c "/") eqn:Hc; [by constructor|].
  pose proof (split_not_nil s) as Hnil.
  destruct (Path.split s) as [|seg segs]; [done|].
  apply Forall_cons in IH as [Hseg Hsegs]. constructor; [|done].
  simpl. by rewrite Hc, Hseg.
Qed.

Lemma split_unsplit segs :
  segs ≠ [] → Forall (λ seg, Path.split seg = [seg]) segs →
  Path.split (Path.unsplit segs) = segs.
Proof.
  induction segs as [|seg segs IH]; [done|]. intros _ Hfree.
  apply Forall_cons in Hfree as [Hseg Hfree].
  destruct segs as [|seg' segs]; [done|].
  change (Path.unsplit (seg :: seg' :: segs))
    with (seg +:+ "/" +:+ Path.unsplit (seg' :: segs)).
  by rewrite split_app_sep, Hseg, IH.
Qed.

(** Resolving against the root never keeps an empty portion or a dot
    entry. *)
Lemma normalizeString_plain_out res segs :
  Forall (λ seg, Path.split seg = [seg]) segs → Forall plain res →
  Forall plain (Path.normalizeString false res segs).
Proof.
  intros Hsegs. revert res.
  induction Hsegs as [|seg segs Hseg _ IH]; intros res Hres; simpl.
  - by apply Forall_rev.
  - repeat case_bool_decide; simpl; try by apply IH.
    + destruct res as [|prev res]; [apply IH; constructor|].
      case_bool_decide; [by apply IH|].
      apply Forall_cons in Hres as [? ?]. by apply IH.
    + apply IH. by constructor.
Qed.

(** Portions that are already resolved are kept as they are. *)
Lemma normalizeString_id above res segs :
  Forall plain segs →
  Path.normalizeString above res segs = rev res ++ segs.
Proof.
  intros Hsegs. revert res.
  induction Hsegs as [|seg segs (_ & ? & ? & ?) _ IH]; intros res; simpl.
  - by rewrite app_nil_r.
  - rewrite !bool_decide_eq_false_2 by done. simpl.
    rewrite IH. simpl. by rewrite <-(assoc_L (++)).
Qed.

Lemma prefix_app s t : String.prefix s (s +:+ t) = true.
Proof.
  induction s as [|c s IH]; [by destruct t|].
  rewrite app_cons. simpl. by destruct (ascii_dec c c).
Qed.

Lemma basename_cases p :
  Path.basename p = "" ∨ Path.basename p = "." ∨ Path.basename p = ".." ∨
  plain (Path.basename p).
Proof.
  unfold Path.basename.
  destruct (last _) as [seg|] eqn:Hlast; [|by left]. simpl.
  apply last_Some_elem_of, list_elem_of_filter in Hlast as [Hne Hin].
  destruct (decide (seg = ".")) as [->|?]; [by auto|].
  destruct (decide (seg = "..")) as [->|?]; [by auto|].
  do 3 right. split; [|by apply nonempty_true in Hne].
  pose proof (split_slash_free p) as Hfree.
  rewrite Forall_forall in Hfree. by apply Hfree.
Qed.

Lemma tours_segs_plain : Forall plain tours_segs.
Proof.
  apply Forall_app. split.
  - apply normalizeString_plain_out; [apply split_slash_free|constructor].
  - repeat constructor; done.
Qed.

Lemma TOURS_DIR_absolute :
  Path.isAbsolute cwd = true → TOURS_DIR = "/" +:+ Path.unsplit tours_segs.
Proof.
  intros Habs. unfold TOURS_DIR, Path.join.
  assert (cwd ≠ "") as Hne by (by destruct cwd).
  rewrite filter_cons_True by by apply nonempty_true.
  rewrite !filter_cons_True, filter_nil by done.
  change (Path.unsplit [cwd; "public"; "img"; "tours"])
    with (cwd +:+ "/" +:+ "public/img/tours").
  unfold Path.normalize.
  assert (cwd +:+ "/" +:+ "public/img/tours" ≠ "") as Hne'
    by (by destruct cwd).
  apply nonempty_true in Hne' as ->.
  rewrite isAbsolute_app, Habs by done. simpl negb.
  rewrite <-app_assoc_str, trailingSeparator_app by done.
  rewrite app_assoc_str, split_app_sep, normalizeString_app.
  change (Path.split "public/img/tours") with ["public"; "img"; "tours"].
  rewrite normalizeString_id, rev_involutive by (repeat constructor; done).
  fold tours_segs.
  assert (Path.unsplit tours_segs ≠ "") as Hbody.
  { unfold tours_segs.
    change (?l ++ ["public"; "img"; "tours"])
      with (l ++ ["public"; "img"] ++ ["tours"]).
    rewrite (assoc_L (++)), unsplit_snoc.
    destruct (_ ++ _); [done|]. intros Heq.
    apply (f_equal String.length) in Heq.
    rewrite !app_length_str in Heq. simpl in Heq. lia. }
  apply nonempty_true in Hbody as ->. simpl.
  by rewrite app_empty_r.
Qed.

Lemma tours_segs_snoc : tours_segs = img_segs ++ ["tours"].
Proof. unfold tours_segs, img_segs. by rewrite <-(assoc_L (++)). Qed.

Lemma img_segs_not_nil : img_segs ≠ [].
Proof. unfold img_segs. by intros (_ & [=])%app_eq_nil. Qed.

Lemma tours_segs_not_nil : tours_segs ≠ [].
Proof. unfold tours_segs. by intros (_ & [=])%app_eq_nil. Qed.

Lemma unsplit_tours_segs_nonempty : Path.unsplit tours_segs ≠ "".
Proof.
  rewrite tours_segs_snoc, unsplit_snoc.
  destruct img_segs; [done|]. intros Heq.
  apply (f_equal String.length) in Heq.
  rewrite !app_length_str in Heq. simpl in Heq. lia.
Qed.

Lemma split_TOURS_DIR :
  Path.isAbsolute cwd = true → Path.split TOURS_DIR = "" :: tours_segs.
Proof.
  intros Habs. rewrite TOURS_DIR_absolute by done.
  change ("/" +:+ ?s) with (String "/" s). simpl. f_equal.
  apply split_unsplit.
  - apply tours_segs_not_nil.
  - eapply Forall_impl; [apply tours_segs_plain|]. by intros seg [? _].
Qed.

Lemma TOURS_DIR_no_trailing :
  Path.isAbsolute cwd = true → Path.trailingSeparator TOURS_DIR = false.
Proof.
  intros Habs. rewrite TOURS_DIR_absolute, tours_segs_snoc, unsplit_snoc by done.
  pose proof img_segs_not_nil.
  destruct img_segs as [|seg segs]; [done|].
  by rewrite <-!app_assoc_str, trailingSeparator_app.
Qed.

Lemma TOURS_DIR_isAbsolute :
  Path.isAbsolute cwd = true → Path.isAbsolute TOURS_DIR = true.
Proof. intros Habs. by rewrite TOURS_DIR_absolute. Qed.

Lemma join_prefix_TOURS_DIR :
  Path.isAbsolute cwd = true → join_prefix TOURS_DIR = TOURS_DIR +:+ "/".
Proof.
  intros Habs. unfold join_prefix. rewrite split_TOURS_DIR by done.
  rewrite TOURS_DIR_absolute by done. simpl.
  rewrite normalizeString_id by apply tours_segs_plain. simpl.
  pose proof tours_segs_not_nil.
  destruct tours_segs as [|seg segs]; [done|].
  by rewrite !app_assoc_str.
Qed.

(** Joining nothing, or ".", to the tours directory gives it back. *)
Lemma join_TOURS_DIR_here b :
  Path.isAbsolute cwd = true → b = "" ∨ b = "." →
  Path.join [TOURS_DIR; b] = TOURS_DIR.
Proof.
  intros Habs Hb. unfold Path.join.
  rewrite filter_cons_True by apply nonempty_true, TOURS_DIR_nonempty.
  assert (Path.unsplit tours_segs ≠ "") as Hbody.
  { apply unsplit_tours_segs_nonempty. }
  destruct Hb as [-> | ->].
  - rewrite filter_cons_False, filter_nil by (by intros ?).
    change (Path.unsplit [TOURS_DIR]) with TOURS_DIR.
    unfold Path.normalize.
    rewrite (proj2 (nonempty_true TOURS_DIR)) by apply TOURS_DIR_nonempty.
    rewrite split_TOURS_DIR, TOURS_DIR_no_trailing by done.
    rewrite !TOURS_DIR_isAbsolute by done. simpl.
    rewrite normalizeString_id by apply tours_segs_plain. simpl.
    apply nonempty_true in Hbody as ->.
    by rewrite app_empty_r, TOURS_DIR_absolute.
  - rewrite filter_cons_True, filter_nil by done.
    change (Path.unsplit [TOURS_DIR; "."]) with (TOURS_DIR +:+ "/" +:+ ".").
    unfold Path.normalize.
    assert (TOURS_DIR +:+ "/" +:+ "." ≠ "") as Hne.
    { pose proof TOURS_DIR_nonempty. by destruct TOURS_DIR. }
    apply nonempty_true in Hne as ->.
    rewrite isAbsolute_app by apply TOURS_DIR_nonempty.
    rewrite <-app_assoc_str, trailingSeparator_app by done.
    rewrite app_assoc_str, split_app_sep, split_TOURS_DIR by done.
    rewrite !TOURS_DIR_isAbsolute by done. simpl negb. cbv iota.
    rewrite normalizeString_app.
    change (Path.normalizeString false [] ("" :: tours_segs))
      with (Path.normalizeString false [] tours_segs).
    rewrite (normalizeString_id false [] tours_segs)
      by apply tours_segs_plain.
    simpl. rewrite rev_involutive.
    apply nonempty_true in Hbody as ->.
    by rewrite app_empty_r, TOURS_DIR_absolute.
Qed.

(** The helper confines every name, except those whose last portion is
    "..", to the tours directory. *)
Lemma safeJoinInTours_confined f :
  Path.isAbsolute cwd = true →
  Path.basename (or_else f "") ≠ ".." →
  Path.inside TOURS_DIR (safeJoinInTours f) = true.
Proof.
  intros Habs Hdots. unfold safeJoinInTours, Path.inside.
  destruct (basename_cases (or_else f "")) as [Hb|[Hb|[Hb|Hb]]]; [..|done|].
  - rewrite join_TOURS_DIR_here by auto. by rewrite bool_decide_eq_true_2.
  - rewrite join_TOURS_DIR_here by auto. by rewrite bool_decide_eq_true_2.
  - rewrite join_plain by (done || apply TOURS_DIR_nonempty).
    rewrite join_prefix_TOURS_DIR by done.
    by rewrite prefix_app, orb_true_r.
Qed.

Lemma prefix_length s p :
  String.prefix s p = true → String.length s ≤ String.length p.
Proof.
  revert p. induction s as [|c s IH]; intros [|d p]; simpl; try (done || lia).
  destruct (ascii_dec c d); [|done]. intros ?%IH. lia.
Qed.

(** A name whose last portion is ".." resolves to the parent of the tours
    directory, which is not inside it. *)
Lemma safeJoinInTours_dotdot f :
  Path.isAbsolute cwd = true →
  Path.basename (or_else f "") = ".." →
  safeJoinInTours f = "/" +:+ Path.unsplit img_segs ∧
  TOURS_DIR = safeJoinInTours f +:+ "/tours" ∧
  Path.inside TOURS_DIR (safeJoinInTours f) = false.
Proof.
  intros Habs Hb.
  assert (safeJoinInTours f = "/" +:+ Path.unsplit img_segs) as Hparent.
  { unfold safeJoinInTours, Path.join. rewrite Hb.
    rewrite filter_cons_True by apply nonempty_true, TOURS_DIR_nonempty.
    rewrite filter_cons_True, filter_nil by done.
    change (Path.unsplit [TOURS_DIR; ".."]) with (TOURS_DIR +:+ "/" +:+ "..").
    unfold Path.normalize.
    assert (TOURS_DIR +:+ "/" +:+ ".." ≠ "") as Hne.
    { pose proof TOURS_DIR_nonempty. by destruct TOURS_DIR. }
    apply nonempty_true in Hne as ->.
    rewrite isAbsolute_app by apply TOURS_DIR_nonempty.
    rewrite <-app_assoc_str, trailingSeparator_app by done.
    rewrite app_assoc_str, split_app_sep, split_TOURS_DIR by done.
    rewrite !TOURS_DIR_isAbsolute by done. simpl negb. cbv iota.
    rewrite normalizeString_app.
    change (Path.normalizeString false [] ("" :: tours_segs))
      with (Path.normalizeString false [] tours_segs).
    rewrite (normalizeString_id false [] tours_segs)
      by apply tours_segs_plain.
    simpl rev at 1. rewrite app_nil_l, tours_segs_snoc, rev_unit.
    simpl. rewrite rev_involutive.
    assert (Path.unsplit img_segs ≠ "") as Hbody.
    { unfold img_segs.
      change (?l ++ ["public"; "img"]) with (l ++ ["public"] ++ ["img"]).
      rewrite (assoc_L (++)), unsplit_snoc.
      destruct (_ ++ _); [done|]. intros Heq.
      apply (f_equal String.length) in Heq.
      rewrite !app_length_str in Heq. simpl in Heq. lia. }
    apply nonempty_true in Hbody as ->. by rewrite app_empty_r. }
  assert (TOURS_DIR = safeJoinInTours f +:+ "/tours") as Hchild.
  { rewrite Hparent, TOURS_DIR_absolute, tours_segs_snoc, unsplit_snoc by done.
    pose proof img_segs_not_nil.
    destruct img_segs; [done|]. by rewrite !app_assoc_str. }
  split; [done|]. split; [done|].
  unfold Path.inside. apply orb_false_intro.
  - apply bool_decide_eq_false. intros Heq.
    rewrite Heq in Hchild at 1. apply (f_equal String.length) in Hchild.
    rewrite app_length_str in Hchild. simpl in Hchild. lia.
  - destruct (String.prefix _ _) eqn:Hpre; [|done].
    apply prefix_length in Hpre. rewrite Hchild in Hpre.
    rewrite !app_length_str in Hpre. simpl in Hpre. lia.
Qed.

(** ** The deletion set *)

Lemma hasOwnProperty_true (obj : gmap string value) key :
  hasOwnProperty obj key = true ↔ is_Some (obj !! key).
Proof. unfold hasOwnProperty. by rewrite bool_decide_eq_true. Qed.

(** The loop of lines 231-236 pushes, in order, the resolved path of
    every name that passes the guard. *)
Lemma push_loop (guard : string → bool) (P : string → Prop)
  `{!∀ f, Decision (P f)} (names acc : list string) :
  (∀ f, guard f = true ↔ P f) →
  fold_left (λ acc f, if guard f then acc ++ [safeJoinInTours f] else acc)
    names acc
  = acc ++ (safeJoinInTours <$> filter P names).
Proof.
  intros Hguard. revert acc.
  induction names as [|f names IH]; intros acc; simpl.
  - by rewrite app_nil_r.
  - rewrite IH, filter_cons. destruct (guard f) eqn:Hg.
    + rewrite decide_True by by apply Hguard.
      by rewrite <-(assoc_L (++)).
    + rewrite decide_False; [done|].
      rewrite <-Hguard. congruence.
Qed.

Lemma toDelete_refines payload before updated :
  toDelete payload before updated
  = safeJoinInTours <$> (marked_cover_spec payload before updated
                         ++ marked_gallery_spec payload before updated).
Proof.
  assert (∀ acc,
    (if hasOwnProperty payload "images"
     then if negb (bool_decide (length (images before) = 0))
          then fold_left
                 (λ acc f,
                    if truthy f && negb (includes (images updated) f)
                    then acc ++ [safeJoinInTours f] else acc)
                 (images before) acc
          else acc
     else acc)
    = acc ++ (safeJoinInTours <$>
                marked_gallery_spec payload before updated)) as Hgal.
  { intros acc. unfold hasOwnProperty, marked_gallery_spec.
    case_bool_decide as Hown.
    - destruct Hown as [v ->]. case_bool_decide as Hlen; simpl.
      + apply length_zero_iff_nil in Hlen as ->. by rewrite app_nil_r.
      + apply push_loop. intros f. unfold includes.
        rewrite andb_true_iff, negb_true_iff, bool_decide_eq_false.
        unfold truthy. by rewrite nonempty_true.
    - destruct (payload !! "images"); [by destruct Hown|].
      by rewrite app_nil_r. }
  unfold toDelete. cbv zeta. rewrite Hgal, fmap_app. f_equal. clear Hgal.
  unfold hasOwnProperty, marked_cover_spec.
  destruct (payload !! "imageCover") as [v|].
  - rewrite bool_decide_eq_true_2 by eauto.
    destruct (imageCover before) as [old|]; [|done].
    destruct (decide (old ≠ "" ∧ imageCover updated ≠ Some old))
      as [[Hne Hupd]|Hd].
    + unfold truthy. rewrite (proj2 (nonempty_true old)) by done.
      rewrite bool_decide_eq_false_2 by done. done.
    + destruct (truthy old) eqn:Ht; [|reflexivity].
      case_bool_decide as Heq; [reflexivity|].
      destruct Hd. split; [by apply nonempty_true|done].
  - by rewrite bool_decide_eq_false_2 by by intros [??].
Qed.

Lemma elem_of_marked_cover payload before updated f :
  f ∈ marked_cover_spec payload before updated
  ↔ cover_marked payload before updated f.
Proof.
  unfold marked_cover_spec, cover_marked.
  destruct (payload !! "imageCover") as [v|]; simpl.
  - destruct (imageCover before) as [old|].
    + case_decide as Hd.
      * rewrite list_elem_of_singleton. split.
        -- intros ->. destruct Hd. eauto.
        -- by intros (_ & [= ->] & _).
      * split; [by intros ?%elem_of_nil|].
        intros (_ & [= ->] & ? & ?). by destruct Hd.
    + split; [by intros ?%elem_of_nil|]. by intros (_ & ? & _).
  - split; [by intros ?%elem_of_nil|]. by intros ([? ?] & _).
Qed.

Lemma elem_of_marked_gallery payload before updated f :
  f ∈ marked_gallery_spec payload before updated
  ↔ gallery_marked payload before updated f.
Proof.
  unfold marked_gallery_spec, gallery_marked.
  destruct (payload !! "images") as [v|].
  - rewrite list_elem_of_filter. split.
    + intros [[? ?] ?]. eauto.
    + intros (_ & ? & ? & ?). auto.
  - split; [by intros ?%elem_of_nil|]. by intros ([? ?] & _).
Qed.

Lemma safeJoinInTours_nonempty f : safeJoinInTours f ≠ "".
Proof.
  unfold safeJoinInTours, Path.join.
  destruct (filter _ _) eqn:Hf; [done|]. apply normalize_nonempty.
Qed.

(** ** The update handler, case by case *)

Lemma updateTour_success sched req w before updated s :
  findById (db w) (params_id req) = inr (Some before) →
  findByIdAndUpdate (db w) (params_id req) (body req)
    = (inr (Some updated), s) →
  updateTour sched req w
  = (Json 200 updated,
     (cleanup sched (toDelete (body req) before updated)
        (after_update req s w)).1).
Proof.
  intros Hfind Hupd. unfold updateTour. simpl. rewrite Hfind. simpl.
  rewrite Hupd. f_equal.
  case_bool_decide as Hlen; simpl; [|done].
  apply length_zero_iff_nil in Hlen. by rewrite Hlen.
Qed.

(** ** Properties of [updateTour] *)

Lemma marked_is_referenced payload before updated f :
  f ∈ marked_cover_spec payload before updated
      ++ marked_gallery_spec payload before updated →
  f ∈ referenced before.
Proof.
  clear write_error.
  unfold referenced. rewrite elem_of_app.
  intros [(_ & Hc & _)%elem_of_marked_cover
         |(_ & Hg & _)%elem_of_marked_gallery].
  - rewrite Hc. set_solver.
  - destruct (imageCover before); set_solver.
Qed.

(** C3 (amended).  The deletion set.  The list of paths handed to the
    cleanup is the resolved before-cover, when the payload has the cover
    field and the before-cover is non-empty and differs from the
    after-cover, followed by the resolved before-gallery names that are
    non-empty and do not appear in the after-gallery, when the payload has
    the gallery field; nothing else is marked.  A name of the
    after-gallery is never marked by the gallery rule, but it is marked
    when the cover rule marks it: a name present in both galleries is
    marked exactly when it is also the before-cover that is replaced.  For
    plain names the same holds of the files: the path of an after-gallery
    name is handed to the cleanup exactly when that name is the replaced
    before-cover. *)
Theorem toDelete_marks_exactly payload before updated :
  toDelete payload before updated
    = safeJoinInTours <$> (marked_cover_spec payload before updated
                           ++ marked_gallery_spec payload before updated) ∧
  (∀ f, f ∈ marked_cover_spec payload before updated
        ↔ cover_marked payload before updated f) ∧
  (∀ f, f ∈ marked_gallery_spec payload before updated
        ↔ gallery_marked payload before updated f) ∧
  (∀ p, p ∈ toDelete payload before updated
        ↔ ∃ f, p = safeJoinInTours f ∧
               (cover_marked payload before updated f ∨
                gallery_marked payload before updated f)) ∧
  (∀ f, f ∈ images updated →
        f ∉ marked_gallery_spec payload before updated) ∧
  (∀ f, f ∈ images updated →
        (f ∈ marked_cover_spec payload before updated
             ++ marked_gallery_spec payload before updated
         ↔ cover_marked payload before updated f)) ∧
  (∀ f, Forall plain (referenced before) → plain f → f ∈ images updated →
        (safeJoinInTours f ∈ toDelete payload before updated
         ↔ cover_marked payload before updated f)).
Proof.
  clear write_error.
  split; [apply toDelete_refines|].
  split; [apply elem_of_marked_cover|].
  split; [apply elem_of_marked_gallery|]. split; [|split; [|split]].
  - intros p. rewrite toDelete_refines, list_elem_of_fmap.
    setoid_rewrite elem_of_app.
    setoid_rewrite elem_of_marked_cover.
    by setoid_rewrite elem_of_marked_gallery.
  - intros f Hf (_ & _ & _ & Hnot)%elem_of_marked_gallery. done.
  - intros f Hf. rewrite elem_of_app, elem_of_marked_cover. split.
    + intros [?|(_ & _ & _ & Hnot)%elem_of_marked_gallery]; done.
    + by left.
  - intros f Hplain Hf Hin. rewrite toDelete_refines. split.
    + intros (g & Heq & Hg)%list_elem_of_fmap.
      pose proof (marked_is_referenced _ _ _ _ Hg) as Hgb.
      rewrite Forall_forall in Hplain.
      apply safeJoinInTours_plain_inj in Heq; [|done|by apply Hplain].
      subst g.
      apply elem_of_app in Hg
        as [?%elem_of_marked_cover
           |(_ & _ & _ & Hnot)%elem_of_marked_gallery]; done.
    + intros Hc. apply list_elem_of_fmap_2, elem_of_app. left.
      by apply elem_of_marked_cover.
Qed.

(** C6. When no record has the given id, the handler passes a 404
    [AppError] to [next]; the only call it made is the read: the record
    store and the image directory are as before. *)
Theorem updateTour_not_found sched req w :
  findById (db w) (params_id req) = inr None →
  (updateTour sched req w).1
    = Next (Some (AppError "No tour found with that ID" 404)) ∧
  db (updateTour sched req w).2 = db w ∧
  disk (updateTour sched req w).2 = disk w ∧
  trace (updateTour sched req w).2
    = trace w ++ [EvFindById (params_id req)].
Proof.
  intros Hfind. unfold updateTour. simpl. by rewrite Hfind.
Qed.

(** C4. When the record-store update fails, by rejecting the write or by
    resolving to no document, the handler passes an error to [next]; the
    image directory is as before and the only calls made are the read and
    the attempted write, so no deletion was issued. *)
Theorem updateTour_update_failed sched req w before r s :
  findById (db w) (params_id req) = inr (Some before) →
  findByIdAndUpdate (db w) (params_id req) (body req) = (r, s) →
  (∀ updated, r ≠ inr (Some updated)) →
  (updateTour sched req w).1
    = Next (Some match r with
                 | inl e => e
                 | inr _ => AppError "Failed to update the tour" 500
                 end) ∧
  disk (updateTour sched req w).2 = disk w ∧
  trace (updateTour sched req w).2
    = trace w ++ [EvFindById (params_id req);
                  EvFindByIdAndUpdate (params_id req) (body req)].
Proof.
  intros Hfind Hupd Hfail. unfold updateTour. simpl.
  rewrite Hfind. simpl. rewrite Hupd.
  destruct r as [e|[updated|]]; simpl.
  - by rewrite <-(assoc_L (++)).
  - by destruct (Hfail updated).
  - by rewrite <-(assoc_L (++)).
Qed.


(** The cleanup leaves alone every path it was not given. *)
Lemma cleanup_keeps sched paths w0 q :
  q ∉ paths → disk (cleanup sched paths w0).1 !! q = disk w0 !! q.
Proof.
  clear write_error.
  intros Hq. destruct (cleanup_run sched paths w0) as ((_ & Hdisk & _) & _).
  by destruct (Hdisk q) as [?|(? & _)].
Qed.

(** C2 (amended).  After a successful update whose documents carry plain
    file names, in which the old cover is not reused as a new gallery
    name and the new cover is not an old gallery name, no file the
    updated document refers to is handed to the cleanup, and each such
    file is on disk after the request exactly if it was before. *)
Theorem updateTour_keeps_referenced sched req w before updated s :
  findById (db w) (params_id req) = inr (Some before) →
  findByIdAndUpdate (db w) (params_id req) (body req)
    = (inr (Some updated), s) →
  Forall plain (referenced before) →
  Forall plain (referenced updated) →
  (∀ c, imageCover before = Some c → c ∉ images updated) →
  (∀ c, imageCover updated = Some c → c ∉ images before) →
  (updateTour sched req w).1 = Json 200 updated ∧
  ∀ f, f ∈ referenced updated →
    (safeJoinInTours f ∉ toDelete (body req) before updated) ∧
    disk (updateTour sched req w).2 !! safeJoinInTours f
      = disk w !! safeJoinInTours f.
Proof.
  clear write_error.
  intros Hfind Hupd Hpb Hpu Hcross1 Hcross2.
  rewrite (updateTour_success _ _ _ _ _ _ Hfind Hupd).
  split; [done|]. intros f Hf.
  assert (safeJoinInTours f ∉ toDelete (body req) before updated) as Hnot.
  { rewrite toDelete_refines. intros (g & Heq & Hg)%list_elem_of_fmap.
    pose proof (marked_is_referenced _ _ _ _ Hg) as Hgb.
    rewrite Forall_forall in Hpb, Hpu.
    apply safeJoinInTours_plain_inj in Heq; [|by auto..]. subst g.
    apply elem_of_app in Hg
      as [(_ & Hc & _ & Hne)%elem_of_marked_cover
         |(_ & Hin & _ & Hout)%elem_of_marked_gallery].
    - unfold referenced in Hf. destruct (imageCover updated) as [c|] eqn:Hu.
      + apply elem_of_cons in Hf as [->|Hf]; [done|].
        by apply (Hcross1 f).
      + by apply (Hcross1 f).
    - unfold referenced in Hf. destruct (imageCover updated) as [c|] eqn:Hu.
      + apply elem_of_cons in Hf as [->|Hf]; [|done].
        by apply (Hcross2 c).
      + done. }
  split; [done|]. simpl. by rewrite cleanup_keeps.
Qed.

(** ** Facts about the gallery fan-out *)

Lemma pending_names_tasks (name : nat → string) (fs : list upload) :
  pending_names (imap (λ i file, Transcoding (name i) file) fs)
  = name <$> seq 0 (length fs).
Proof.
  revert name. induction fs as [|file fs IH]; intros name; [done|].
  rewrite imap_cons. simpl. f_equal.
  rewrite <-fmap_S_seq, <-list_fmap_compose. apply (IH (name ∘ Datatypes.S)).
Qed.

Lemma pending_names_settled ts :
  Forall (λ t, gallery_pending t = false) ts → pending_names ts = [].
Proof.
  induction 1 as [|t ts Ht _ IH]; [done|]. by destruct t.
Qed.

Lemma gallery_step_work (st : gallery_state) t :
  gallery_pending t = true →
  gallery_work (gallery_step st t).2 < gallery_work t.
Proof.
  destruct t as [filename file|]; [|done]. intros _. simpl.
  destruct (toFile _ _ _) as [[e|] w]; simpl; lia.
Qed.

Lemma imap_gallery_work (mk : nat → upload → gallery_task) fs :
  sum_list_with gallery_work (imap mk fs) ≤ length fs.
Proof.
  revert mk. induction fs as [|file fs IH]; intros mk; [done|].
  rewrite imap_cons. cbn [sum_list_with length].
  specialize (IH (mk ∘ Datatypes.S)).
  assert (gallery_work (mk 0 file) ≤ 1)
    by (destruct (mk 0 file); simpl; lia).
  lia.
Qed.

(** While nothing was rejected, the names pushed so far together with
    the names of the callbacks in flight are the names handed out. *)
Lemma gallery_step_names names st ts1 t ts2 :
  gallery_pending t = true →
  (g_rejection st = None →
   g_images st ++ pending_names (ts1 ++ t :: ts2) ≡ₚ names) →
  g_rejection (gallery_step st t).1 = None →
  g_images (gallery_step st t).1
    ++ pending_names (ts1 ++ (gallery_step st t).2 :: ts2) ≡ₚ names.
Proof.
  destruct t as [filename file|]; [|done]. intros _ HI. simpl.
  destruct (toFile _ _ _) as [[e|] w]; simpl; [done|].
  intros Hrej. rewrite <-(HI Hrej). unfold pending_names.
  rewrite !omap_app. simpl.
  rewrite <-(assoc_L (++)). apply Permutation_app_head.
  simpl. by rewrite Permutation_middle.
Qed.

(** If [Promise.all] fulfils, [newBody.images] holds each generated
    gallery name exactly once. *)
Lemma gallery_run sched id now fs w :
  let st := (run gallery_pending gallery_step (length fs) sched
               (GalleryState w [] None) (gallery_tasks id now fs)).1 in
  g_rejection st = None →
  g_images st ≡ₚ galleryName id now <$> seq 0 (length fs).
Proof.
  intros st.
  pose (ts := (run gallery_pending gallery_step (length fs) sched
                 (GalleryState w [] None) (gallery_tasks id now fs)).2).
  pose (names := galleryName id now <$> seq 0 (length fs)).
  assert (g_rejection st = None →
          g_images st ++ pending_names ts ≡ₚ names) as HI.
  { apply (run_invariant gallery_pending gallery_step
             (λ st ts, g_rejection st = None →
                       g_images st ++ pending_names ts ≡ₚ names)).
    - intros st0 ts1 t ts2. apply gallery_step_names.
    - intros _. simpl. unfold gallery_tasks, names.
      by rewrite pending_names_tasks. }
  assert (pending_names ts = []) as Hdone.
  { apply pending_names_settled, waiting_0_Forall.
    apply (run_settles _ _ gallery_work).
    - intros st0 t. apply gallery_step_work.
    - apply imap_gallery_work. }
  intros Hrej. specialize (HI Hrej).
  by rewrite Hdone, app_nil_r in HI.
Qed.

(** ** The middleware, when it calls [next()] *)

Lemma lookup_spread base over k :
  spread base over !! k
  = match over !! k with Some v => Some v | None => base !! k end.
Proof.
  unfold spread. rewrite lookup_union.
  by destruct (over !! k), (base !! k).
Qed.

Lemma resizeTourImages_next sched req w req' w' :
  resizeTourImages sched req w = (req', None, w') →
  params_id req' = params_id req ∧ files req' = files req ∧
  body req' !! "imageCover"
    = match files req ≫= files_imageCover with
      | Some (_ :: _) => Some (VStr (coverName (params_id req) (clock w)))
      | _ => body req !! "imageCover"
      end ∧
  match files req ≫= files_images with
  | Some ((_ :: _) as fs) =>
      ∃ names,
        body req' !! "images" = Some (VArr (VStr <$> names)) ∧
        names ≡ₚ galleryName (params_id req) (clock w)
                   <$> seq 0 (length fs)
  | _ => body req' !! "images" = body req !! "images"
  end ∧
  ∀ k, k ≠ "imageCover" → k ≠ "images" → body req' !! k = body req !! k.
Proof.
  intros Hres. unfold resizeTourImages in Hres.
  destruct (files req ≫= files_imageCover) as [[|cf crest]|] eqn:Hc;
    destruct (files req ≫= files_images) as [[|gf gfs]|] eqn:Hg;
    cbv beta iota zeta in Hres;
    repeat match type of Hres with
      | context [toFile ?f ?p ?w0] =>
          destruct (toFile f p w0) as [[e|] w1] eqn:?;
          cbv beta iota zeta in Hres
      end;
    try discriminate Hres;
    try match type of Hres with
      | context [run ?a ?b ?c ?d (GalleryState ?w0 [] None) ?f] =>
          pose proof (gallery_run sched (params_id req) (clock w)
                        (gf :: gfs) w0) as Hrun;
          cbv zeta in Hrun;
          destruct (run a b c d (GalleryState w0 [] None) f)
            as [st ts] eqn:Heq;
          cbv beta iota zeta in Hres;
          destruct (g_rejection st) eqn:Hrej;
          cbv beta iota zeta in Hres
      end;
    try discriminate Hres.
  all: simplify_eq; simpl.
  all: split; [done|]; split; [done|].
  all: split; [try rewrite lookup_spread; by simplify_map_eq|].
  all: split;
    [|intros k ??; try rewrite lookup_spread; by simplify_map_eq].
  all: try (try rewrite lookup_spread; by simplify_map_eq).
  all: exists (g_images st);
    (split; [rewrite lookup_spread; by simplify_map_eq|by apply Hrun]).
Qed.

(** When every pipeline succeeds and the completions arrive in upload
    order (each choice selects the first pending callback), the names are
    pushed in upload order. *)
Lemma advance_skip_settled {St T} (pending : T → bool)
    (step : St → T → St * T) k st settled ts :
  Forall (λ t, pending t = false) settled →
  advance pending step k st (settled ++ ts)
  = ((advance pending step k st ts).1,
     settled ++ (advance pending step k st ts).2).
Proof.
  induction 1 as [|t settled Ht _ IH].
  - simpl. by destruct (advance _ _ _ _ _).
  - rewrite <-!app_comm_cons. cbn [advance]. by rewrite Ht, IH.
Qed.

Lemma waiting_skip_settled {T} (pending : T → bool) settled ts :
  Forall (λ t, pending t = false) settled →
  waiting pending (settled ++ ts) = waiting pending ts.
Proof.
  induction 1 as [|t settled Ht _ IH]; [done|].
  rewrite <-app_comm_cons, waiting_cons, Ht. done.
Qed.

(** A pipeline leaves every path as writable, or not, as it was. *)
Lemma toFile_write_refused file p w q :
  write_refused q (toFile file p w).2 = write_refused q w.
Proof.
  unfold toFile, write_refused.
  destruct (sharp (buffer file)) as [data|]; [|done]. simpl.
  destruct (disk w !! p) as [[d|reason]|] eqn:Hp; [|done|];
    (destruct (write_error p); [done|]); simpl;
    (destruct (decide (q = p)) as [->|Hne];
     [by rewrite lookup_insert_eq, Hp|by rewrite lookup_insert_ne]).
Qed.

Lemma toFile_ok file p w data :
  sharp (buffer file) = Some data → write_refused p w = None →
  toFile file p w
  = (None, set_disk (<[p := File data]> (disk w))
             (elapse p (emit (EvToFile p) w))).
Proof.
  intros Hdata Hp. unfold toFile. rewrite Hdata.
  change (write_refused p (elapse p (emit (EvToFile p) w)))
    with (write_refused p w).
  by rewrite Hp.
Qed.

Lemma gallery_run_in_order sched settled st names fs :
  Forall (λ c, c = 0) sched →
  Forall (λ t, gallery_pending t = false) settled →
  Forall (λ file, is_Some (sharp (buffer file))) fs →
  Forall (λ n, write_refused (Path.join [TOURS_DIR; n]) (g_world st) = None)
    names →
  length names = length fs →
  g_images (run gallery_pending gallery_step (length fs) sched st
              (settled ++ zip_with Transcoding names fs)).1
  = g_images st ++ names ∧
  g_rejection (run gallery_pending gallery_step (length fs) sched st
                 (settled ++ zip_with Transcoding names fs)).1
  = g_rejection st.
Proof.
  intros Hsched Hsettled Hsharp. revert sched Hsched settled Hsettled st names.
  induction Hsharp as [|file fs [data Hdata] _ IH];
    intros sched Hsched settled Hsettled st [|name names] Hwr Hlen;
    try discriminate Hlen.
  - simpl. by rewrite app_nil_r.
  - apply Forall_cons in Hwr as [Hname Hnames].
    cbn [length zip_with run].
    rewrite waiting_skip_settled, waiting_cons by done. cbn [gallery_pending].
    assert (hd 0 sched = 0) as -> by (by destruct Hsched).
    rewrite Nat.Div0.mod_0_l, advance_skip_settled by done.
    cbn [advance gallery_pending gallery_step].
    pose proof (toFile_write_refused file (Path.join [TOURS_DIR; name])
                  (g_world st)) as Hsame.
    rewrite (toFile_ok _ _ _ data) in Hsame |- * by done. cbn [fst snd] in *.
    rewrite (cons_middle Finished), (assoc_L (++)).
    assert (Forall (λ c, c = 0) (tl sched)) as Htl by (by destruct Hsched).
    assert (Forall (λ t, gallery_pending t = false) (settled ++ [Finished]))
      as Hsettled' by (apply Forall_app; by repeat constructor).
    assert (length names = length fs) as Hlen' by (simpl in Hlen; lia).
    match goal with
    | |- context [run _ _ _ _ ?st' _] =>
        destruct (IH (tl sched) Htl _ Hsettled' st' names) as [Himgs Hrej];
          [|done|]
    end.
    { eapply Forall_impl; [exact Hnames|]. intros n Hn. simpl.
      by rewrite Hsame. }
    rewrite Himgs, Hrej. simpl. by rewrite <-(assoc_L (++)).
Qed.

Lemma imap_zip_names (name : nat → string) (fs : list upload) :
  imap (λ i file, Transcoding (name i) file) fs
  = zip_with Transcoding (name <$> seq 0 (length fs)) fs.
Proof.
  revert name. induction fs as [|file fs IH]; intros name; [done|].
  rewrite imap_cons. simpl. f_equal.
  rewrite <-fmap_S_seq, <-list_fmap_compose. apply (IH (name ∘ Datatypes.S)).
Qed.

(** So the payload lists the gallery names in upload order whenever the
    transcodings complete in upload order and every pipeline fulfils. *)
Lemma resizeTourImages_in_order sched req w fs :
  Forall (λ c, c = 0) sched →
  (∀ file rest, files req ≫= files_imageCover = Some (file :: rest) →
                is_Some (sharp (buffer file)) ∧
                write_refused
                  (Path.join [TOURS_DIR;
                              coverName (params_id req) (clock w)]) w
                = None) →
  files req ≫= files_images = Some fs → fs ≠ [] →
  Forall (λ file, is_Some (sharp (buffer file))) fs →
  Forall (λ i, write_refused
                 (Path.join [TOURS_DIR;
                             galleryName (params_id req) (clock w) i]) w
               = None) (seq 0 (length fs)) →
  body (resizeTourImages sched req w).1.1 !! "images"
  = Some (VArr (VStr <$> (galleryName (params_id req) (clock w)
                            <$> seq 0 (length fs)))).
Proof.
  intros Hsched Hcover Hfs Hne Hsharp Hwr. unfold resizeTourImages.
  rewrite Hfs.
  destruct fs as [|gf gfs]; [done|]. clear Hne.
  assert (∀ w0 : world S,
    (∀ q, write_refused q w0 = write_refused q w) →
    let r := run gallery_pending gallery_step (length (gf :: gfs)) sched
               (GalleryState w0 [] None)
               (gallery_tasks (params_id req) (clock w) (gf :: gfs)) in
    g_images r.1 = galleryName (params_id req) (clock w)
                     <$> seq 0 (length (gf :: gfs)) ∧
    g_rejection r.1 = None) as Hrun.
  { intros w0 Hsame. unfold gallery_tasks. rewrite imap_zip_names.
    apply (gallery_run_in_order sched [] (GalleryState w0 [] None));
      [done|constructor|done| |by rewrite length_fmap, length_seq].
    apply Forall_fmap. eapply Forall_impl; [exact Hwr|].
    intros i Hi. simpl. by rewrite Hsame. }
  destruct (files req ≫= files_imageCover) as [[|cf crest]|] eqn:Hc;
    cbv beta iota zeta.
  - destruct (Hrun w) as [Himgs Hrej]; [done|].
    destruct (run _ _ _ _ _ _) as [st ts]. simpl in Himgs, Hrej.
    rewrite Hrej. cbv beta iota zeta. simpl.
    rewrite lookup_spread, lookup_insert_eq. by rewrite Himgs.
  - destruct (Hcover cf crest eq_refl) as [[data Hdata] Hcw].
    pose proof (toFile_write_refused cf
                  (Path.join [TOURS_DIR;
                              coverName (params_id req) (clock w)]) w)
      as Hsame.
    rewrite (toFile_ok _ _ _ data) in Hsame |- * by done.
    cbv beta iota zeta.
    match goal with
    | |- context [run _ _ _ _ (GalleryState ?w1 [] None) _] =>
        destruct (Hrun w1) as [Himgs Hrej]; [exact Hsame|]
    end.
    destruct (run _ _ _ _ _ _) as [st ts]. simpl in Himgs, Hrej.
    rewrite Hrej. cbv beta iota zeta. simpl.
    rewrite lookup_spread, lookup_insert_eq. by rewrite Himgs.
  - destruct (Hrun w) as [Himgs Hrej]; [done|].
    destruct (run _ _ _ _ _ _) as [st ts]. simpl in Himgs, Hrej.
    rewrite Hrej. cbv beta iota zeta. simpl.
    rewrite lookup_spread, lookup_insert_eq. by rewrite Himgs.
Qed.

(** ** Generated names *)

Lemma pretty_N_go_not_c x s :
  (∀ s', s ≠ String "c" s') → ∀ s', pretty_N_go x s ≠ String "c" s'.
Proof.
  revert s. induction (N.lt_wf_0 x) as [x _ IH]; intros s Hs s'.
  destruct (decide (x = 0)%N) as [->|Hx].
  - rewrite pretty_N_go_0. apply Hs.
  - rewrite pretty_N_go_step by lia. apply IH.
    + apply N.div_lt; lia.
    + intros s''. unfold pretty_N_char. by repeat case_match.
Qed.

(** A printed number does not start with the letter of "cover". *)
Lemma pretty_nat_not_c (n : nat) s : pretty n ≠ String "c" s.
Proof.
  unfold pretty, pretty_nat, pretty, pretty_N.
  case_decide; [done|]. by apply pretty_N_go_not_c.
Qed.

Lemma coverName_galleryName id now i :
  coverName id now ≠ galleryName id now i.
Proof.
  unfold coverName, galleryName. intros Heq.
  do 4 apply (inj (String.app _)) in Heq.
  change "-cover.jpeg" with ("-" +:+ "cover.jpeg") in Heq.
  apply (inj (String.app _)) in Heq. symmetry in Heq.
  destruct (pretty (i + 1)) as [|c s] eqn:Hp; [done|].
  rewrite app_cons in Heq. injection Heq as -> _.
  by apply pretty_nat_not_c in Hp.
Qed.

Global Instance galleryName_inj id now : Inj (=) (=) (galleryName id now).
Proof.
  intros i j Heq. unfold galleryName in Heq.
  do 5 apply (inj (String.app _)) in Heq.
  apply app_inj_r, (inj pretty) in Heq. lia.
Qed.



(** ** Properties of [resizeTourImages] *)


(** C9. Without uploads the middleware calls [next()] and leaves the
    request and the world as they were: every field of the body keeps
    its value, a cover or gallery field is present exactly if the client
    sent it, and when both are absent the update handler marks nothing
    for deletion. *)
Theorem resizeTourImages_no_uploads sched req w :
  no_uploads req →
  resizeTourImages sched req w = (req, None, w) ∧
  (∀ k, body (resizeTourImages sched req w).1.1 !! k = body req !! k) ∧
  (∀ before updated,
     body req !! "imageCover" = None → body req !! "images" = None →
     toDelete (body (resizeTourImages sched req w).1.1) before updated
     = []).
Proof.
  intros [Hc Hg].
  assert (resizeTourImages sched req w = (req, None, w)) as Hres.
  { unfold resizeTourImages.
    assert (spread (body req) ∅ = body req) as Hspread.
    { unfold spread. by rewrite (left_id_L ∅ (∪)). }
    rewrite !elem_of_cons in Hc, Hg.
    destruct Hc as [->|[->|?%elem_of_nil]]; [..|done];
      destruct Hg as [->|[->|?%elem_of_nil]]; try done;
      cbv beta iota zeta; rewrite ?Hspread; by destruct req. }
  rewrite Hres. split; [done|]. split; [done|].
  intros before updated Hnc Hng. simpl.
  rewrite toDelete_refines.
  unfold marked_cover_spec, marked_gallery_spec. by rewrite Hnc, Hng.
Qed.

(** C10. Payload merge.  In a run that reaches [next()], the cover field
    of the payload is the generated cover name when a cover was uploaded
    and the gallery field is the array of generated gallery names when
    gallery files were uploaded, whatever the client sent under those
    keys; a field for which nothing was uploaded and every other field
    keep the client's value. *)
Theorem resizeTourImages_merge sched req w req' w' :
  resizeTourImages sched req w = (req', None, w') →
  (∀ file rest,
     files req ≫= files_imageCover = Some (file :: rest) →
     body req' !! "imageCover"
     = Some (VStr (coverName (params_id req) (clock w)))) ∧
  (∀ file rest,
     files req ≫= files_images = Some (file :: rest) →
     ∃ names,
       body req' !! "images" = Some (VArr (VStr <$> names)) ∧
       names ≡ₚ galleryName (params_id req) (clock w)
                  <$> seq 0 (Datatypes.S (length rest))) ∧
  (files req ≫= files_imageCover ∈ [None; Some []] →
   body req' !! "imageCover" = body req !! "imageCover") ∧
  (files req ≫= files_images ∈ [None; Some []] →
   body req' !! "images" = body req !! "images") ∧
  (∀ k, k ≠ "imageCover" → k ≠ "images" →
        body req' !! k = body req !! k).
Proof.
  intros Hres.
  destruct (resizeTourImages_next _ _ _ _ _ Hres)
    as (_ & _ & Hcover & Hgallery & Hother).
  repeat split; [| | | |done].
  - intros file rest Hfiles. by rewrite Hfiles in Hcover.
  - intros file rest Hfiles. by rewrite Hfiles in Hgallery.
  - rewrite !elem_of_cons.
    intros [Hn|[Hn|?%elem_of_nil]]; [..|done]; by rewrite Hn in Hcover.
  - rewrite !elem_of_cons.
    intros [Hn|[Hn|?%elem_of_nil]]; [..|done]; by rewrite Hn in Hgallery.
Qed.

(** ** What the pipelines and the cleanup leave on disk *)

Lemma write_frame_refl w paths : write_frame w paths w.
Proof.
  split; [done|]. split; [lia|]. split; [by left|].
  exists []. by rewrite app_nil_r.
Qed.

Lemma write_frame_mono w0 (paths paths' : list string) w :
  paths ⊆ paths' → write_frame w0 paths w → write_frame w0 paths' w.
Proof.
  intros Hsub (Hdb & Hclock & Hdisk & evs & Htr & Hevs).
  split; [done|]. split; [done|]. split.
  - intros q. destruct (Hdisk q) as [?|[? ?]]; [by left|right]. split; [|done].
    by apply Hsub.
  - exists evs. split; [done|].
    eapply Forall_impl; [exact Hevs|].
    intros e (p & Hp & ->). exists p. split; [by apply Hsub|done].
Qed.

Lemma write_frame_trans w0 (paths : list string) w1 w2 :
  write_frame w0 paths w1 → write_frame w1 paths w2 → write_frame w0 paths w2.
Proof.
  intros (Hdb & Hclock & Hdisk & evs & Htr & Hevs)
         (Hdb' & Hclock' & Hdisk' & evs' & Htr' & Hevs').
  split; [congruence|]. split; [lia|]. split.
  - intros q. destruct (Hdisk' q) as [Heq|?]; [|by right].
    rewrite Heq. apply Hdisk.
  - exists (evs ++ evs'). split.
    + by rewrite Htr', Htr, <-(assoc_L (++)).
    + by apply Forall_app.
Qed.

(** One sharp pipeline: the call is recorded; it fulfils exactly when
    sharp accepts the buffer and the target can be written, and then the
    target holds the encoded bytes; otherwise nothing changes on disk. *)
Lemma toFile_frame file p w :
  write_frame w [p] (toFile file p w).2 ∧
  ((toFile file p w).1 = None
   ↔ is_Some (sharp (buffer file)) ∧ write_refused p w = None) ∧
  ((toFile file p w).1 = None → is_file (disk (toFile file p w).2 !! p)) ∧
  (∀ q, is_file (disk w !! q) → is_file (disk (toFile file p w).2 !! q)).
Proof.
  clear. unfold toFile, write_frame, is_file.
  assert (∃ evs, trace (elapse p (emit (EvToFile p) w)) = trace w ++ evs ∧
                 Forall (λ e, ∃ p0, p0 ∈ [p] ∧ e = EvToFile p0) evs) as Htr.
  { exists [EvToFile p]. split; [done|].
    constructor; [|done]. exists p. split; [apply list_elem_of_here|done]. }
  destruct (sharp (buffer file)) as [data|].
  - change (write_refused p (elapse p (emit (EvToFile p) w)))
      with (write_refused p w).
    destruct (write_refused p w) as [reason|] eqn:Hwr; simpl.
    + split; [|split; [|split]]; [|split; [done|by intros [_ ?]]|done..].
      split; [done|]. split; [lia|]. split; [by left|done].
    + split; [|split; [|split]].
      * split; [done|]. split; [lia|]. split; [|done].
        intros q. destruct (decide (q = p)) as [->|Hne].
        -- right. split; [apply list_elem_of_here|]. exists data.
           by rewrite lookup_insert_eq.
        -- left. by rewrite lookup_insert_ne.
      * split; [by split; [eexists|]|done].
      * intros _. exists data. by rewrite lookup_insert_eq.
      * intros q [d Hq]. destruct (decide (q = p)) as [->|Hne].
        -- exists data. by rewrite lookup_insert_eq.
        -- exists d. by rewrite lookup_insert_ne.
  - simpl. split; [|split; [|split]];
      [|split; [done|by intros [[? ?] _]]|done..].
    split; [done|]. split; [lia|]. split; [by left|done].
Qed.

Lemma zip_tasks_of (names : list string) (fs : list upload) :
  Forall (gallery_task_of names fs) (zip_with Transcoding names fs).
Proof.
  clear. apply Forall_lookup_2. intros i t Hi.
  apply lookup_zip_with_Some in Hi as (n & f & -> & Hn & Hf).
  split; eapply list_elem_of_lookup_2; eauto.
Qed.

Lemma doomed_zip_names w0 (names : list string) (fs : list upload) :
  length names = length fs →
  Exists (λ file, sharp (buffer file) = None) fs ∨
  Exists (λ n, is_Some (write_refused (Path.join [TOURS_DIR; n]) w0)) names →
  Exists (gallery_task_doomed w0) (zip_with Transcoding names fs).
Proof.
  revert fs. induction names as [|n names IH]; intros [|f fs] Hlen;
    try discriminate Hlen.
  - intros [H|H]; by apply Exists_nil in H.
  - simpl. intros [H|H]; apply Exists_cons in H as [H|H].
    + left. by left.
    + right. apply IH; [simpl in Hlen; lia|by left].
    + left. by right.
    + right. apply IH; [simpl in Hlen; lia|by right].
Qed.

Lemma gallery_step_inv w0 names fs st ts1 t ts2 :
  gallery_pending t = true →
  gallery_inv w0 names fs st (ts1 ++ t :: ts2) →
  gallery_inv w0 names fs (gallery_step st t).1
    (ts1 ++ (gallery_step st t).2 :: ts2).
Proof.
  intros Hpend (Hframe & Hkeep & Himgs & Htasks & Hsame & Hok & Hbad).
  destruct t as [n f|]; [clear Hpend|done].
  apply Forall_app in Htasks as [Htasks1 Htasks2].
  apply Forall_cons in Htasks2 as [[Hn Hf] Htasks2].
  pose proof (toFile_frame f (Path.join [TOURS_DIR; n]) (g_world st))
    as (Hw & Hacc & Hnew & Hfiles).
  rewrite Hsame in Hacc.
  assert (write_frame w0 ((λ n, Path.join [TOURS_DIR; n]) <$> names)
            (toFile f (Path.join [TOURS_DIR; n]) (g_world st)).2) as Hframe'.
  { eapply write_frame_trans; [exact Hframe|].
    eapply write_frame_mono; [|exact Hw].
    intros q ->%list_elem_of_singleton.
    by apply (list_elem_of_fmap_2 (λ n, Path.join [TOURS_DIR; n])). }
  assert (Forall (gallery_task_of names fs) (ts1 ++ Finished :: ts2))
    as Htasks'.
  { apply Forall_app. split; [done|]. by constructor. }
  assert (∀ q, write_refused q
                 (toFile f (Path.join [TOURS_DIR; n]) (g_world st)).2
               = write_refused q w0) as Hsame'.
  { intros q. by rewrite toFile_write_refused. }
  simpl.
  destruct (toFile f (Path.join [TOURS_DIR; n]) (g_world st))
    as [[e|] w1] eqn:Hto; simpl in *.
  - split; [done|]. split; [intros q Hq; by apply Hfiles, Hkeep|].
    split; [eapply Forall_impl; [exact Himgs|]; intros m Hm; by apply Hfiles|].
    split; [done|]. split; [done|]. split.
    + intros Hall Hwr. rewrite Forall_forall in Hall.
      rewrite Forall_forall in Hwr.
      assert (Some e = None) as Habs; [|done].
      apply Hacc. split; [by apply Hall|by apply Hwr].
    + intros _. left. by eexists.
  - split; [done|]. split; [intros q Hq; by apply Hfiles, Hkeep|].
    split.
    { apply Forall_app. split.
      - eapply Forall_impl; [exact Himgs|]. intros m Hm. by apply Hfiles.
      - constructor; [|done]. by apply Hnew. }
    split; [done|]. split; [done|]. split; [done|].
    intros Hex. destruct (Hbad Hex) as [?|Hd]; [by left|right].
    apply Exists_app in Hd as [Hd|Hd]; apply Exists_app; [by left|right].
    apply Exists_cons in Hd as [Hd|Hd]; [|by right].
    destruct Hacc as [[[? Hs] Hwr] _]; [done|].
    destruct Hd as [Hd|[? Hd]]; congruence.
Qed.

(** Whatever the schedule: the gallery pipelines write only to the
    generated paths, keep every regular file, leave a file behind for each
    name they push, leave every path as writable as it was, and
    [Promise.all] fulfils exactly when sharp accepts every buffer and every
    generated path can be written. *)
Lemma gallery_run_world sched id now fs w :
  let names := galleryName id now <$> seq 0 (length fs) in
  let paths := (λ n, Path.join [TOURS_DIR; n]) <$> names in
  let st := (run gallery_pending gallery_step (length fs) sched
               (GalleryState w [] None) (gallery_tasks id now fs)).1 in
  write_frame w paths (g_world st) ∧
  (∀ q, is_file (disk w !! q) → is_file (disk (g_world st) !! q)) ∧
  Forall (λ n, is_file (disk (g_world st) !! Path.join [TOURS_DIR; n]))
    (g_images st) ∧
  (∀ q, write_refused q (g_world st) = write_refused q w) ∧
  (g_rejection st = None
   ↔ Forall (λ file, is_Some (sharp (buffer file))) fs ∧
     Forall (λ p, write_refused p w = None) paths).
Proof.
  intros names paths st.
  pose (ts := (run gallery_pending gallery_step (length fs) sched
                 (GalleryState w [] None) (gallery_tasks id now fs)).2).
  assert (length names = length fs) as Hlen.
  { unfold names. by rewrite length_fmap, length_seq. }
  assert (gallery_inv w names fs st ts)
    as (Hframe & Hkeep & Himgs & _ & Hsame & Hok & Hbad).
  { apply (run_invariant gallery_pending gallery_step
             (gallery_inv w names fs)).
    - intros st0 ts1 t ts2. apply gallery_step_inv.
    - split; [apply write_frame_refl|]. split; [done|]. split; [done|].
      split; [|split; [done|split; [done|]]].
      + unfold gallery_tasks, names. rewrite imap_zip_names.
        apply zip_tasks_of.
      + intros Hex. right. unfold gallery_tasks.
        by rewrite imap_zip_names. }
  assert (Forall (λ t, gallery_pending t = false) ts) as Hdone.
  { apply waiting_0_Forall, (run_settles _ _ gallery_work).
    - intros st0 t. apply gallery_step_work.
    - apply imap_gallery_work. }
  split; [done|]. split; [done|]. split; [done|]. split; [done|]. split.
  - intros Hnone.
    destruct (decide (Forall (λ file, is_Some (sharp (buffer file))) fs))
      as [Hfs|Hnot].
    + split; [done|]. unfold paths. apply Forall_fmap.
      destruct (decide (Forall (λ n, write_refused (Path.join [TOURS_DIR; n])
                                       w = None) names))
        as [|Hnot]; [done|].
      apply not_Forall_Exists in Hnot; [|apply _].
      destruct Hbad as [[e He]|Hd].
      * apply doomed_zip_names; [done|right].
        eapply Exists_impl; [exact Hnot|]. intros n Hn.
        by apply not_eq_None_Some.
      * congruence.
      * apply Exists_exists in Hd as (t & Ht & Hd).
        rewrite Forall_forall in Hdone. specialize (Hdone t Ht).
        by destruct t.
    + apply not_Forall_Exists in Hnot; [|apply _].
      destruct Hbad as [[e He]|Hd].
      * apply doomed_zip_names; [done|left].
        eapply Exists_impl; [exact Hnot|]. intros f Hf.
        by apply eq_None_not_Some.
      * congruence.
      * apply Exists_exists in Hd as (t & Ht & Hd).
        rewrite Forall_forall in Hdone. specialize (Hdone t Ht).
        by destruct t.
  - intros [Hfs Hwr]. apply Hok; [done|]. by apply Forall_fmap in Hwr.
Qed.

(** ** The middleware and the image directory *)

Ltac sub_paths :=
  let q := fresh "q" in
  let Hq := fresh "Hq" in
  intros q Hq;
  first [ exact Hq
        | apply list_elem_of_further; exact Hq
        | apply list_elem_of_singleton in Hq as ->; apply list_elem_of_here ].

Lemma writable_ext (w1 w2 : world S) (l : list string) :
  (∀ q, write_refused q w1 = write_refused q w2) →
  Forall (λ p, write_refused p w1 = None) l
  ↔ Forall (λ p, write_refused p w2 = None) l.
Proof.
  intros Hsame. apply Forall_proper; [|done]. intros p. by rewrite Hsame.
Qed.

Lemma resizeTourImages_world sched req w :
  let r := resizeTourImages sched req w in
  let paths := cover_paths req (clock w) ++ gallery_paths req (clock w) in
  write_frame w paths r.2 ∧
  (∀ q, is_file (disk w !! q) → is_file (disk r.2 !! q)) ∧
  (r.1.2 = None
   ↔ Forall (λ file, is_Some (sharp (buffer file)))
       (cover_upload req ++ gallery_uploads req) ∧
     Forall (λ p, write_refused p w = None) paths) ∧
  (r.1.2 = None → Forall (λ p, is_file (disk r.2 !! p)) paths) ∧
  (is_Some r.1.2 → r.1.1 = req).
Proof.
  unfold cover_paths, gallery_paths, cover_upload, gallery_uploads,
    resizeTourImages.
  destruct (files req ≫= files_imageCover) as [[|cf crest]|] eqn:Hc;
    destruct (files req ≫= files_images) as [[|gf gfs]|] eqn:Hg;
    cbv beta iota zeta.
  all: try match goal with
    | |- context [toFile ?f ?p ?w0] =>
        pose proof (toFile_frame f p w0) as (Hcw & Hcacc & Hcnew & Hckeep);
        pose proof (toFile_write_refused f p w0) as Hcsame;
        destruct (toFile f p w0) as [[e|] w1] eqn:?;
        cbv beta iota zeta
    end.
  all: try match goal with
    | |- context [run ?a ?b ?c ?d (GalleryState ?w0 [] None) ?f] =>
        pose proof (gallery_run_world sched (params_id req) (clock w)
                      (gf :: gfs) w0)
          as (Hgw & Hgkeep & Hgimgs & _ & Hgacc);
        pose proof (gallery_run sched (params_id req) (clock w)
                      (gf :: gfs) w0) as Hgnames;
        cbv zeta in Hgw, Hgkeep, Hgimgs, Hgacc, Hgnames;
        destruct (run a b c d (GalleryState w0 [] None) f)
          as [st ts] eqn:Heq;
        cbv beta iota zeta;
        destruct (g_rejection st) eqn:Hrej;
        cbv beta iota zeta
    end.
  all: cbn [fmap list_fmap from_option app id].
  all: cbn [fst snd] in *.
  all: try (rewrite <-list_fmap_compose in Hgw).
  all: try (rewrite <-list_fmap_compose in Hgacc).
  all: try (rewrite (writable_ext w1 w) in Hgacc by exact Hcsame).
  all: split;
    [first
       [ apply write_frame_refl
       | eapply write_frame_trans;
         [eapply write_frame_mono; [|exact Hcw]; sub_paths
         |eapply write_frame_mono; [|exact Hgw]; sub_paths]
       | eapply write_frame_mono; [|exact Hcw]; sub_paths
       | eapply write_frame_mono; [|exact Hgw]; sub_paths ]|].
  all: split;
    [intros q Hq; try apply Hgkeep; try apply Hckeep; exact Hq|].
  all: split;
    [split;
     [intros Hnone; try discriminate Hnone;
      try (destruct Hcacc as [Hcacc _];
           destruct (Hcacc eq_refl) as [Hcf Hcp]);
      try (destruct Hgacc as [Hgacc _];
           destruct (Hgacc Hrej) as [Hgf Hgp]);
      split;
      repeat first
        [ apply Forall_nil_2
        | assumption
        | apply Forall_cons_2; [assumption|] ];
      fail
     |intros [Hall Hwr];
      try (apply Forall_cons in Hall as [Hcf Hall];
           apply Forall_cons in Hwr as [Hcp Hwr];
           destruct Hcacc as [_ Hcacc]; specialize (Hcacc (conj Hcf Hcp)));
      try (destruct Hgacc as [_ Hgacc]; specialize (Hgacc (conj Hall Hwr)));
      congruence]|].
  all: split; [|intros [e' He']; by try discriminate He'].
  all: intros Hnone; try discriminate Hnone.
  all: repeat first
    [ apply Forall_nil_2
    | apply Forall_cons_2; [try apply Hgkeep; by apply Hcnew|] ].
  all: apply Forall_fmap, Forall_forall; intros i Hi;
    rewrite Forall_forall in Hgimgs; apply Hgimgs;
    rewrite (Hgnames Hrej); by apply list_elem_of_fmap_2.
Qed.


(** X1. [resizeTourImages] never deletes ("We do NOT delete here"): the
    record store is untouched, every path outside the generated ones keeps
    its entry, no entry disappears, a regular file stays a regular file,
    and the only calls made are sharp pipelines writing to the generated
    paths. *)
Theorem resizeTourImages_never_deletes sched req w :
  let w' := (resizeTourImages sched req w).2 in
  let written := cover_paths req (clock w) ++ gallery_paths req (clock w) in
  db w' = db w ∧
  (∀ q, q ∉ written → disk w' !! q = disk w !! q) ∧
  (∀ q, is_Some (disk w !! q) → is_Some (disk w' !! q)) ∧
  (∀ q, is_file (disk w !! q) → is_file (disk w' !! q)) ∧
  ∃ evs, trace w' = trace w ++ evs ∧
         Forall (λ e, ∃ p, p ∈ written ∧ e = EvToFile p) evs.
Proof.
  intros w' written.
  destruct (resizeTourImages_world sched req w)
    as ((Hdb & _ & Hdisk & Hevs) & Hkeep & _).
  split; [done|]. split; [|split; [|split; [done|done]]].
  - intros q Hq. by destruct (Hdisk q) as [?|[? _]].
  - intros q Hq. destruct (Hdisk q) as [Heq|[_ [d Hd]]].
    + unfold w'. by rewrite Heq.
    + unfold w'. by rewrite Hd.
Qed.

(** X2. All or nothing.  [resizeTourImages] calls [next()] without an
    error exactly when every pipeline it starts fulfils: sharp accepts the
    first cover file and every gallery file, and every generated path can
    be written (no entry that is not a regular file in the way, no refusal
    by the file system, as for an id with a separator, whose directory does
    not exist); when it calls [next(err)] the request is handed on as it
    came in, so no generated name reaches [req.body]. *)
Theorem resizeTourImages_all_or_nothing sched req w :
  let r := resizeTourImages sched req w in
  (r.1.2 = None
   ↔ Forall (λ file, is_Some (sharp (buffer file)))
       (cover_upload req ++ gallery_uploads req) ∧
     Forall (λ p, write_refused p w = None)
       (cover_paths req (clock w) ++ gallery_paths req (clock w))) ∧
  (∀ e, r.1.2 = Some e → r.1.1 = req).
Proof.
  intros r.
  destruct (resizeTourImages_world sched req w)
    as (_ & _ & Hiff & _ & Hreq).
  split; [done|]. intros e He. apply Hreq. by exists e.
Qed.

(** X3. In a run that reaches [next()], every name the middleware put
    into the payload for an uploaded field denotes a regular file in the
    tours directory. *)
Theorem resizeTourImages_files_written sched req w req' w' :
  resizeTourImages sched req w = (req', None, w') →
  (∀ name,
     cover_upload req ≠ [] →
     body req' !! "imageCover" = Some (VStr name) →
     is_file (disk w' !! Path.join [TOURS_DIR; name])) ∧
  (∀ names,
     gallery_uploads req ≠ [] →
     body req' !! "images" = Some (VArr (VStr <$> names)) →
     Forall (λ name, is_file (disk w' !! Path.join [TOURS_DIR; name]))
       names).
Proof.
  intros Hres.
  destruct (resizeTourImages_world sched req w)
    as (_ & _ & _ & Hfiles & _).
  rewrite Hres in Hfiles. specialize (Hfiles eq_refl).
  apply Forall_app in Hfiles as [Hcover Hgallery].
  destruct (resizeTourImages_next _ _ _ _ _ Hres)
    as (_ & _ & Hc & Hg & _).
  unfold cover_paths, cover_upload in *.
  unfold gallery_paths, gallery_uploads in *.
  split.
  - intros name Hup Hname.
    destruct (files req ≫= files_imageCover) as [[|cf crest]|]; [done| |done].
    rewrite Hc in Hname. injection Hname as <-.
    by apply Forall_cons in Hcover as [? _].
  - intros names Hup Hnames.
    destruct (files req ≫= files_images) as [[|gf gfs]|]; [done| |done].
    destruct Hg as (names' & Hbody & Hperm).
    rewrite Hbody in Hnames. injection Hnames as Hnames.
    assert (Inj (=) (=) VStr) by (by intros ?? [=]).
    apply (inj (fmap VStr)) in Hnames as <-.
    rewrite Hperm. apply Forall_fmap, Forall_forall. intros i Hi.
    rewrite Forall_forall in Hgallery. apply Hgallery.
    by apply (list_elem_of_fmap_2
                (λ i, Path.join [TOURS_DIR;
                                 galleryName (params_id req) (clock w) i])).
Qed.

(** A cover pipeline whose output cannot be written rejects: the
    middleware calls [next(err)] with the request as it came in, and the
    only trace it leaves is the pipeline call; no file is written. *)
Lemma resizeTourImages_cover_refused sched req w file rest reason :
  files req ≫= files_imageCover = Some (file :: rest) →
  is_Some (sharp (buffer file)) →
  let cover := Path.join [TOURS_DIR; coverName (params_id req) (clock w)] in
  write_refused cover w = Some reason →
  resizeTourImages sched req w
  = (req, Some (Rejected reason), elapse cover (emit (EvToFile cover) w)).
Proof.
  intros Hc [data Hdata] cover Hwr.
  unfold resizeTourImages. rewrite Hc. cbv beta iota zeta. fold cover.
  unfold toFile. rewrite Hdata.
  change (write_refused cover (elapse cover (emit (EvToFile cover) w)))
    with (write_refused cover w).
  rewrite Hwr. by destruct (files req ≫= files_images).
Qed.

(** X4. What a failed upload leaves behind.  When the cover pipeline
    fulfils (sharp accepts the cover and its path can be written) but
    sharp rejects one of the gallery files, [resizeTourImages] calls
    [next(err)] and hands the request on unchanged, the record store is
    not touched, and the cover file it wrote stays in the tours
    directory: nothing removes it. *)
Theorem resizeTourImages_leaves_written_cover sched req w file rest :
  files req ≫= files_imageCover = Some (file :: rest) →
  is_Some (sharp (buffer file)) →
  write_refused
    (Path.join [TOURS_DIR; coverName (params_id req) (clock w)]) w = None →
  Exists (λ f, sharp (buffer f) = None) (gallery_uploads req) →
  let r := resizeTourImages sched req w in
  is_Some r.1.2 ∧ r.1.1 = req ∧ db r.2 = db w ∧
  is_file (disk r.2 !! Path.join [TOURS_DIR;
                                  coverName (params_id req) (clock w)]).
Proof.
  intros Hc Hacc Hwr Hex r.
  destruct (resizeTourImages_world sched req w)
    as ((Hdb & _) & _ & Hiff & _ & Hreq).
  assert (is_Some r.1.2) as Herr.
  { destruct (r.1.2) as [e|] eqn:Hr; [by eexists|]. exfalso.
    apply Hiff in Hr as [Hr _]. apply Forall_app in Hr as [_ Hr].
    apply Exists_exists in Hex as (f & Hf & Hrej).
    rewrite Forall_forall in Hr. destruct (Hr f Hf) as [? ?]. congruence. }
  split; [done|]. split; [by apply Hreq|]. split; [done|].
  unfold r, resizeTourImages. unfold gallery_uploads in Hex. rewrite Hc.
  destruct (files req ≫= files_images) as [[|gf gfs]|];
    [by apply Exists_nil in Hex| |by apply Exists_nil in Hex].
  cbv beta iota zeta.
  pose proof (toFile_frame file
                (Path.join [TOURS_DIR; coverName (params_id req) (clock w)])
                w) as (_ & Hcacc & Hcnew & _).
  destruct (toFile file _ w) as [[e|] w1]; cbv beta iota zeta.
  { destruct Hcacc as [_ Hcacc]. by specialize (Hcacc (conj Hacc Hwr)). }
  pose proof (gallery_run_world sched (params_id req) (clock w)
                (gf :: gfs) w1) as (_ & Hgkeep & _).
  cbv zeta in Hgkeep.
  destruct (run gallery_pending gallery_step _ sched _ _) as [st ts].
  destruct (g_rejection st); simpl; by apply Hgkeep, Hcnew.
Qed.

(** ** Generated names are plain file names *)

Lemma split_app_slash_free a b :
  Path.split a = [a] → Path.split b = [b] →
  Path.split (a +:+ b) = [a +:+ b].
Proof.
  clear. intros Ha Hb. induction a as [|c a IH]; [done|].
  rewrite app_cons. simpl in *.
  destruct (Ascii.eqb c "/"); [done|].
  pose proof (split_not_nil a) as Hne.
  destruct (Path.split a) as [|seg segs] eqn:Hsplit; [done|].
  injection Ha as -> ->. by rewrite IH.
Qed.

Lemma pretty_N_go_slash_free x s :
  Path.split s = [s] → Path.split (pretty_N_go x s) = [pretty_N_go x s].
Proof.
  clear. revert s. induction (N.lt_wf_0 x) as [x _ IH]; intros s Hs.
  destruct (decide (x = 0)%N) as [->|Hx].
  - by rewrite pretty_N_go_0.
  - rewrite pretty_N_go_step by lia. apply IH.
    + apply N.div_lt; lia.
    + unfold pretty_N_char. repeat case_match; simpl; by rewrite Hs.
Qed.

Lemma pretty_N_slash_free (n : N) : Path.split (pretty n) = [pretty n].
Proof.
  clear. unfold pretty, pretty_N.
  case_decide; [done|]. by apply pretty_N_go_slash_free.
Qed.

Lemma pretty_nat_slash_free (n : nat) : Path.split (pretty n) = [pretty n].
Proof. clear. unfold pretty, pretty_nat. apply pretty_N_slash_free. Qed.

Lemma coverName_plain id now : Path.split id = [id] → plain (coverName id now).
Proof.
  clear. intros Hid. unfold coverName. split; [|done].
  repeat first [ apply split_app_slash_free
               | apply pretty_N_slash_free | done ].
Qed.

Lemma galleryName_plain id now i :
  Path.split id = [id] → plain (galleryName id now i).
Proof.
  clear. intros Hid. unfold galleryName. split; [|done].
  repeat first [ apply split_app_slash_free
               | apply pretty_N_slash_free
               | apply pretty_nat_slash_free | done ].
Qed.

(** X5. A plain file name (one path portion other than "." and "..")
    resolves to the tours directory followed by the name, which is also
    where [path.join(TOURS_DIR, name)] puts it; the result lies in the
    tours directory, and different plain names resolve to different
    paths. *)
Theorem safeJoinInTours_plain_name f :
  Path.isAbsolute cwd = true → plain f →
  safeJoinInTours f = TOURS_DIR +:+ "/" +:+ f ∧
  Path.join [TOURS_DIR; f] = safeJoinInTours f ∧
  Path.inside TOURS_DIR (safeJoinInTours f) = true ∧
  ∀ g, plain g → safeJoinInTours g = safeJoinInTours f → g = f.
Proof.
  clear. intros Habs Hf.
  split; [|split; [|split]].
  - by rewrite safeJoinInTours_plain, join_prefix_TOURS_DIR, app_assoc_str.
  - rewrite safeJoinInTours_plain by done.
    apply join_plain; [apply TOURS_DIR_nonempty|done].
  - apply safeJoinInTours_confined; [done|].
    rewrite basename_plain by done. apply Hf.
  - intros g Hg. by apply safeJoinInTours_plain_inj.
Qed.

(** X6. For a request id without a separator, the generated cover and
    gallery names are plain file names, so the file the middleware writes
    for a name is the file [safeJoinInTours] resolves that name to when a
    later update replaces it. *)
Theorem generated_names_resolve id now i :
  Path.isAbsolute cwd = true → Path.split id = [id] →
  let agree name :=
    plain name ∧
    Path.join [TOURS_DIR; name] = TOURS_DIR +:+ "/" +:+ name ∧
    safeJoinInTours name = Path.join [TOURS_DIR; name] in
  agree (coverName id now) ∧ agree (galleryName id now i).
Proof.
  clear. intros Habs Hid agree.
  assert (∀ name, plain name → agree name) as Hagree.
  { intros name Hname. split; [done|].
    rewrite safeJoinInTours_plain by done.
    rewrite join_plain by (apply TOURS_DIR_nonempty || done).
    by rewrite join_prefix_TOURS_DIR, app_assoc_str. }
  split; apply Hagree; [by apply coverName_plain|by apply galleryName_plain].
Qed.

(** X7. [safeJoinInTours] is confined to the tours directory exactly for
    the names whose last portion is not "..". *)
Theorem safeJoinInTours_inside_iff f :
  Path.isAbsolute cwd = true →
  (Path.inside TOURS_DIR (safeJoinInTours f) = true
   ↔ Path.basename (or_else f "") ≠ "..").
Proof.
  clear. intros Habs. split.
  - intros Hin Hdd.
    destruct (safeJoinInTours_dotdot f Habs Hdd) as (_ & _ & Hout).
    congruence.
  - by apply safeJoinInTours_confined.
Qed.

(** ** Which upload ends up in which file *)

Lemma join_plain_inj dir f g :
  dir ≠ "" → plain f → plain g →
  Path.join [dir; f] = Path.join [dir; g] → f = g.
Proof.
  clear. intros Hdir Hf Hg. rewrite !join_plain by done.
  apply (inj (String.app _)).
Qed.

Lemma toFile_disk file p w :
  disk (toFile file p w).2
  = match sharp (buffer file), write_refused p w with
    | Some data, None => <[p := File data]> (disk w)
    | _, _ => disk w
    end.
Proof.
  clear. unfold toFile.
  change (write_refused p (elapse p (emit (EvToFile p) w)))
    with (write_refused p w).
  destruct (sharp (buffer file)); [|done].
  by destruct (write_refused p w).
Qed.

Lemma gallery_step_contents id now fs st ts1 t ts2 :
  Path.split id = [id] →
  gallery_pending t = true →
  gallery_contents id now fs st (ts1 ++ t :: ts2) →
  gallery_contents id now fs (gallery_step st t).1
    (ts1 ++ (gallery_step st t).2 :: ts2).
Proof.
  intros Hid Hpend [Hlen Hc].
  destruct t as [n f|]; [clear Hpend|done].
  assert ((gallery_step st (Transcoding n f)).2 = Finished) as ->.
  { simpl. by destruct (toFile f _ (g_world st)) as [[e|] w1]. }
  assert (g_world (gallery_step st (Transcoding n f)).1
          = (toFile f (Path.join [TOURS_DIR; n]) (g_world st)).2) as Hw.
  { simpl. by destruct (toFile f _ (g_world st)) as [[e|] w1]. }
  split; [by rewrite length_app in *|].
  intros i file Hi. rewrite Hw, toFile_write_refused, toFile_disk.
  destruct (Hc i file Hi) as [Ht|[Ht Hdata]].
  - destruct (decide (i = length ts1)) as [->|Hne].
    + rewrite list_lookup_middle in Ht by done. injection Ht as -> ->.
      right. split; [by rewrite list_lookup_middle|].
      intros data -> ->. by rewrite lookup_insert_eq.
    + left. destruct (decide (i < length ts1)).
      * rewrite lookup_app_l in Ht |- * by done. done.
      * rewrite lookup_app_r in Ht |- * by lia.
        destruct (i - length ts1) as [|k] eqn:Hk; [lia|]. done.
  - destruct (decide (i = length ts1)) as [->|Hne].
    + rewrite list_lookup_middle in Ht by done. done.
    + right. split.
      * destruct (decide (i < length ts1)).
        -- rewrite lookup_app_l in Ht |- * by done. done.
        -- rewrite lookup_app_r in Ht |- * by lia.
           destruct (i - length ts1) as [|k] eqn:Hk; [lia|]. done.
      * intros data Hs Hwr. specialize (Hdata data Hs Hwr).
        destruct (sharp (buffer f)) as [data'|]; [|done].
        destruct (write_refused (Path.join [TOURS_DIR; n]) (g_world st));
          [done|].
        rewrite lookup_insert_ne; [done|].
        assert (fs !! length ts1 = Some f ∧ n = galleryName id now (length ts1))
          as [_ ->].
        { assert (is_Some (fs !! length ts1)) as [f' Hf'].
          { apply lookup_lt_is_Some. rewrite <-Hlen, length_app. simpl. lia. }
          destruct (Hc _ _ Hf') as [Hp|[Hp _]];
            rewrite list_lookup_middle in Hp by done; [|done].
          by injection Hp as -> ->. }
        intros Heq. apply join_plain_inj in Heq;
          [|apply TOURS_DIR_nonempty|by apply galleryName_plain..].
        by apply (inj (galleryName id now)) in Heq.
Qed.

(** Whatever the schedule, when the callbacks are done the path generated
    for position [i] holds the encoding of the file uploaded at [i]. *)
Lemma gallery_run_contents sched id now fs w i file data :
  Path.split id = [id] →
  fs !! i = Some file → sharp (buffer file) = Some data →
  write_refused (Path.join [TOURS_DIR; galleryName id now i]) w = None →
  disk (g_world (run gallery_pending gallery_step (length fs) sched
                   (GalleryState w [] None) (gallery_tasks id now fs)).1)
    !! Path.join [TOURS_DIR; galleryName id now i]
  = Some (File data).
Proof.
  intros Hid Hi Hdata Hwr.
  pose proof (gallery_run_world sched id now fs w) as (_ & _ & _ & Hsame & _).
  cbv zeta in Hsame.
  pose (r := run gallery_pending gallery_step (length fs) sched
               (GalleryState w [] None) (gallery_tasks id now fs)).
  assert (gallery_contents id now fs r.1 r.2) as [_ Hc].
  { apply (run_invariant gallery_pending gallery_step
             (gallery_contents id now fs)).
    - intros st0 ts1 t ts2. by apply gallery_step_contents.
    - unfold gallery_tasks. split; [by rewrite length_imap|].
      intros j f Hj. left. by rewrite list_lookup_imap, Hj. }
  assert (Forall (λ t, gallery_pending t = false) r.2) as Hdone.
  { apply waiting_0_Forall, (run_settles _ _ gallery_work).
    - intros st0 t. apply gallery_step_work.
    - apply imap_gallery_work. }
  destruct (Hc i file Hi) as [Ht|[_ Hfile]].
  2: { apply Hfile; [done|]. unfold r. by rewrite Hsame. }
  rewrite Forall_forall in Hdone.
  by specialize (Hdone _ (list_elem_of_lookup_2 _ _ _ Ht)).
Qed.

(** When [Promise.all] fulfils, every generated path could be written, so
    each holds the encoding of its file. *)
Lemma gallery_run_contents_ok sched id now fs w i file data :
  Path.split id = [id] →
  fs !! i = Some file → sharp (buffer file) = Some data →
  g_rejection (run gallery_pending gallery_step (length fs) sched
                 (GalleryState w [] None) (gallery_tasks id now fs)).1
  = None →
  disk (g_world (run gallery_pending gallery_step (length fs) sched
                   (GalleryState w [] None) (gallery_tasks id now fs)).1)
    !! Path.join [TOURS_DIR; galleryName id now i]
  = Some (File data).
Proof.
  intros Hid Hi Hdata Hrej.
  apply (gallery_run_contents _ _ _ _ _ _ file); [done..|].
  pose proof (gallery_run_world sched id now fs w) as (_ & _ & _ & _ & Hacc).
  cbv zeta in Hacc. apply Hacc in Hrej as [_ Hwr].
  rewrite <-list_fmap_compose, Forall_fmap, Forall_forall in Hwr.
  apply (Hwr i), elem_of_seq. apply lookup_lt_Some in Hi. lia.
Qed.

(** X8. Which upload ends up in which file.  For a request id without
    a separator, in a run that reaches [next()], the cover path holds the
    encoding of the first cover file and the path generated for gallery
    position [i] (the name with index [i + 1]) holds the encoding of the
    gallery file uploaded at position [i], whatever the order in which the
    pipelines complete. *)
Theorem resizeTourImages_file_contents sched req w req' w' :
  Path.split (params_id req) = [params_id req] →
  resizeTourImages sched req w = (req', None, w') →
  (∀ file rest data,
     files req ≫= files_imageCover = Some (file :: rest) →
     sharp (buffer file) = Some data →
     disk w' !! Path.join [TOURS_DIR; coverName (params_id req) (clock w)]
     = Some (File data)) ∧
  (∀ fs i file data,
     files req ≫= files_images = Some fs →
     fs !! i = Some file → sharp (buffer file) = Some data →
     disk w' !! Path.join [TOURS_DIR;
                           galleryName (params_id req) (clock w) i]
     = Some (File data)).
Proof.
  intros Hid Hres.
  assert (∀ i, Path.join [TOURS_DIR; coverName (params_id req) (clock w)]
               ≠ Path.join [TOURS_DIR;
                            galleryName (params_id req) (clock w) i])
    as Hdistinct.
  { intros i Heq. apply join_plain_inj in Heq;
      [|apply TOURS_DIR_nonempty|by apply coverName_plain
       |by apply galleryName_plain].
    by apply coverName_galleryName in Heq. }
  unfold resizeTourImages in Hres.
  destruct (files req ≫= files_imageCover) as [[|cf crest]|] eqn:Hc;
    destruct (files req ≫= files_images) as [[|gf gfs]|] eqn:Hg;
    cbv beta iota zeta in Hres.
  all: try match type of Hres with
    | context [toFile ?f ?p ?w0] =>
        pose proof (toFile_disk f p w0) as Hcdisk;
        pose proof (toFile_frame f p w0) as (_ & Hcacc & _ & _);
        destruct (toFile f p w0) as [[e|] w1] eqn:?;
        cbv beta iota zeta in Hres
    end.
  all: try discriminate Hres.
  all: try match type of Hres with
    | context [run ?a ?b ?c ?d (GalleryState ?w0 [] None) ?f] =>
        pose proof (gallery_run_world sched (params_id req) (clock w)
                      (gf :: gfs) w0) as ((_ & _ & Hgdisk & _) & _);
        pose proof (λ i file data,
                      gallery_run_contents_ok sched (params_id req) (clock w)
                        (gf :: gfs) w0 i file data Hid) as Hgc;
        cbv zeta in Hgdisk;
        destruct (run a b c d (GalleryState w0 [] None) f)
          as [st ts] eqn:Heq;
        cbv beta iota zeta in Hres;
        destruct (g_rejection st) eqn:Hrej;
        cbv beta iota zeta in Hres
    end.
  all: try discriminate Hres.
  all: injection Hres as <- <-.
  all: cbn [fst snd] in *.
  all: split;
    [intros file rest data [= <- <-] Hdata
    |intros fs i file data [= <-] Hi Hdata].
  all: try done.
  all: try (destruct Hcacc as [Hcacc _];
            destruct (Hcacc eq_refl) as [_ Hcwr];
            rewrite Hdata, Hcwr in Hcdisk).
  all: try (by eapply Hgc).
  all: try (rewrite Hcdisk; by rewrite lookup_insert_eq).
  all: destruct (Hgdisk (Path.join [TOURS_DIR;
                                coverName (params_id req) (clock w)]))
         as [->|[Hin _]];
    [rewrite Hcdisk; by rewrite lookup_insert_eq|].
  all: apply list_elem_of_fmap in Hin as (n & Hpath & Hn).
  all: apply list_elem_of_fmap in Hn as (i & -> & _).
  all: by apply Hdistinct in Hpath.
Qed.

(** ** The cleanup and the update, whatever the outcome *)

Lemma safeUnlink_step_shrinks w0 paths w p t :
  p ∈ paths → unlink_tracks w0 w p t → cleanup_shrinks w0 paths w →
  cleanup_shrinks w0 paths (safeUnlink_step w t).1.
Proof.
  clear sharp write_error. intros Hp Ht Hsh. destruct t as [q|q|r]; simpl.
  - by destruct (negb _).
  - destruct Ht as (-> & _ & _). unfold unlink. simpl.
    destruct (disk w !! p) as [[d|reason]|] eqn:Hd; simpl; [|done|done].
    intros q. simpl. destruct (decide (q = p)) as [->|Hne].
    + right. split; [done|]. split; [by rewrite lookup_delete_eq|].
      destruct (Hsh p) as [Heq|(_ & Hnone & _)]; [|congruence].
      exists d. congruence.
    + rewrite lookup_delete_ne by done. apply Hsh.
  - done.
Qed.

Lemma cleanup_run_shrinks sched paths w0 :
  cleanup_shrinks w0 paths (cleanup sched paths w0).1.
Proof.
  unfold cleanup.
  pose (I := λ w ts, (cleanup_frame w0 paths w ∧
                      Forall2 (unlink_tracks w0 w) paths ts) ∧
                     cleanup_shrinks w0 paths w).
  assert (I (run unlink_pending safeUnlink_step (2 * length paths) sched
               w0 (safeUnlink <$> paths)).1
            (run unlink_pending safeUnlink_step (2 * length paths) sched
               w0 (safeUnlink <$> paths)).2) as [_ Hsh]; [|done].
  apply run_invariant.
  - intros w ts1 t ts2 Hpend [[Hframe Htracks] Hsh].
    apply Forall2_app_inv_r in Htracks
      as (ps1 & ps2' & H1 & H2 & Hpaths).
    apply Forall2_cons_inv_r in H2 as (p & ps2 & Ht & H2 & ->).
    assert (p ∈ paths) as Hp.
    { rewrite Hpaths. apply elem_of_app. right. apply list_elem_of_here. }
    destruct (safeUnlink_step_tracks w0 paths w p t Hp Hpend Hframe Ht)
      as (Hframe' & Ht' & Htr & Hdisk).
    split; [split; [done|]|by eapply safeUnlink_step_shrinks].
    rewrite Hpaths.
    apply Forall2_app; [|constructor; [done|]].
    + eapply Forall2_impl; [exact H1|].
      intros q u. by apply unlink_tracks_mono.
    + eapply Forall2_impl; [exact H2|].
      intros q u. by apply unlink_tracks_mono.
  - split; [split; [apply cleanup_frame_refl|]|by left].
    apply Forall2_fmap_r, Forall_Forall2_diag, Forall_forall.
    intros p _. apply safeUnlink_tracks.
Qed.

Lemma cleanup_event_call w0 paths e :
  cleanup_event w0 paths e → is_cleanup_call e.
Proof.
  clear. intros (p & _ & [->|[_ [->|[msg ->]]]]); exact I.
Qed.

(** X9. The cleanup only removes: whatever the schedule and the paths it
    is given, it leaves the record store alone, keeps the entry of every
    path it was not given, creates or rewrites nothing, removes regular
    files only (an entry [fsp.unlink] refuses is still there), and makes
    no call other than [access], [unlink] and [console.error]. *)
Theorem cleanup_only_removes_files sched paths w :
  let w' := (cleanup sched paths w).1 in
  db w' = db w ∧
  (∀ q, q ∉ paths → disk w' !! q = disk w !! q) ∧
  (∀ q, disk w' !! q = disk w !! q ∨
        (disk w' !! q = None ∧ is_file (disk w !! q))) ∧
  (∀ q reason, disk w !! q = Some (Locked reason) →
               disk w' !! q = Some (Locked reason)) ∧
  ∃ evs, trace w' = trace w ++ evs ∧ Forall is_cleanup_call evs.
Proof.
  clear write_error.
  intros w'.
  destruct (cleanup_run sched paths w)
    as ((Hdb & _ & evs & Htr & Hevs) & _ & _).
  pose proof (cleanup_run_shrinks sched paths w) as Hsh.
  split; [done|]. split; [|split; [|split]].
  - intros q Hq. by destruct (Hsh q) as [?|[? _]].
  - intros q. destruct (Hsh q) as [?|(_ & ? & ?)]; [by left|by right].
  - intros q reason Hq.
    destruct (Hsh q) as [Heq|(_ & _ & [d Hd])]; [|congruence].
    unfold w'. by rewrite Heq.
  - exists evs. split; [done|].
    eapply Forall_impl; [exact Hevs|]. apply cleanup_event_call.
Qed.

Lemma cleanup_only_removes_files_aux sched paths w :
  (∀ q, disk (cleanup sched paths w).1 !! q = disk w !! q ∨
        (disk (cleanup sched paths w).1 !! q = None ∧
         is_file (disk w !! q))) ∧
  ∃ evs, trace (cleanup sched paths w).1 = trace w ++ evs ∧
         Forall is_cleanup_call evs.
Proof.
  clear write_error.
  destruct (cleanup_run sched paths w)
    as ((_ & _ & evs & Htr & Hevs) & _ & _).
  pose proof (cleanup_run_shrinks sched paths w) as Hsh.
  split.
  - intros q. destruct (Hsh q) as [?|(_ & ? & ?)]; [by left|by right].
  - exists evs. split; [done|].
    eapply Forall_impl; [exact Hevs|]. apply cleanup_event_call.
Qed.

Lemma cleanup_nil sched (w : world S) : cleanup sched [] w = (w, []).
Proof. done. Qed.

(** What [updateTour] does in every run: it calls the store first (the
    read, then at most the write), the cleanup calls come after both, and
    on disk it only removes regular files. *)
Lemma updateTour_run sched req w :
  let r := updateTour sched req w in
  ∃ calls evs,
    trace r.2 = trace w ++ calls ++ evs ∧
    calls `prefix_of` store_calls req ∧
    Forall is_cleanup_call evs ∧
    (∀ q, disk r.2 !! q = disk w !! q ∨
          (disk r.2 !! q = None ∧ is_file (disk w !! q))) ∧
    ((∃ updated, r.1 = Json 200 updated ∧ calls = store_calls req) ∨
     (∃ e, r.1 = Next (Some e) ∧ evs = [] ∧ disk r.2 = disk w)) ∧
    ((∀ before updated, toDelete (body req) before updated = []) →
     evs = [] ∧ disk r.2 = disk w).
Proof.
  clear write_error.
  intros r. unfold r, store_calls.
  destruct (findById (db w) (params_id req)) as [e|[before|]] eqn:Hfind.
  - exists [EvFindById (params_id req)], [].
    unfold updateTour. simpl. rewrite Hfind. simpl.
    split; [done|]. split; [by eexists [_]|]. split; [done|].
    split; [by left|]. split; [|done]. right. by eexists.
  - destruct (findByIdAndUpdate (db w) (params_id req) (body req))
      as [[e|[updated|]] s] eqn:Hupd.
    + exists [EvFindById (params_id req);
              EvFindByIdAndUpdate (params_id req) (body req)], [].
      unfold updateTour. simpl. rewrite Hfind. simpl. rewrite Hupd. simpl.
      split; [by rewrite <-(assoc_L (++))|]. split; [done|]. split; [done|].
      split; [by left|]. split; [|done]. right. by eexists.
    + rewrite (updateTour_success sched req w before updated s) by done.
      destruct (cleanup_only_removes_files_aux sched
                  (toDelete (body req) before updated)
                  (after_update req s w))
        as (Hsh & evs & Htr & Hevs).
      exists [EvFindById (params_id req);
              EvFindByIdAndUpdate (params_id req) (body req)], evs.
      simpl in *.
      split; [by rewrite Htr, <-!(assoc_L (++))|].
      split; [done|]. split; [done|]. split; [done|].
      split; [left; by eexists|].
      intros Hnil. specialize (Hnil before updated).
      rewrite Hnil, cleanup_nil in Htr. simpl in Htr.
      rewrite Hnil, cleanup_nil. simpl. split; [|done].
      apply (app_inv_head
               ((trace w ++ [EvFindById (params_id req)])
                ++ [EvFindByIdAndUpdate (params_id req) (body req)])).
      by rewrite app_nil_r.
    + exists [EvFindById (params_id req);
              EvFindByIdAndUpdate (params_id req) (body req)], [].
      unfold updateTour. simpl. rewrite Hfind. simpl. rewrite Hupd. simpl.
      split; [by rewrite <-(assoc_L (++))|]. split; [done|]. split; [done|].
      split; [by left|]. split; [|done]. right. by eexists.
  - exists [EvFindById (params_id req)], [].
    unfold updateTour. simpl. rewrite Hfind. simpl.
    split; [done|]. split; [by eexists [_]|]. split; [done|].
    split; [by left|]. split; [|done]. right. by eexists.
Qed.

(** X10. Deletion comes last.  In every run of [updateTour] the calls to
    the record store (the read, then at most the write) precede every call
    of the cleanup; on disk the handler only removes regular files; and a
    run either answers 200 after both store calls, or passes an error to
    [next] having made no file-system call at all. *)
Theorem updateTour_store_then_cleanup sched req w :
  let r := updateTour sched req w in
  ∃ calls evs,
    trace r.2 = trace w ++ calls ++ evs ∧
    calls `prefix_of` store_calls req ∧
    Forall is_cleanup_call evs ∧
    (∀ q, disk r.2 !! q = disk w !! q ∨
          (disk r.2 !! q = None ∧ is_file (disk w !! q))) ∧
    ((∃ updated, r.1 = Json 200 updated ∧ calls = store_calls req) ∨
     (∃ e, r.1 = Next (Some e) ∧ evs = [] ∧ disk r.2 = disk w)).
Proof.
  clear write_error.
  intros r.
  destruct (updateTour_run sched req w)
    as (calls & evs & Htr & Hcalls & Hevs & Hdisk & Hend & _).
  by exists calls, evs.
Qed.

(** X11. An update whose payload has neither image field never touches
    the image directory, whatever the store answers: the disk is unchanged
    and the only calls made are the store calls. *)
Theorem updateTour_without_image_fields sched req w :
  body req !! "imageCover" = None → body req !! "images" = None →
  let r := updateTour sched req w in
  disk r.2 = disk w ∧
  ∃ calls, calls `prefix_of` store_calls req ∧ trace r.2 = trace w ++ calls.
Proof.
  clear write_error.
  intros Hc Hg r.
  destruct (updateTour_run sched req w)
    as (calls & evs & Htr & Hcalls & _ & _ & _ & Hnil).
  destruct Hnil as [-> Hdisk].
  { intros before updated. rewrite toDelete_refines.
    unfold marked_cover_spec, marked_gallery_spec. by rewrite Hc, Hg. }
  split; [done|]. exists calls. split; [done|].
  by rewrite app_nil_r in Htr.
Qed.

(** X12. Re-sending the names a record already has deletes nothing: when
    the updated document has the same cover and still lists every old
    gallery name, no path is marked and the image directory is left as it
    was. *)
Theorem updateTour_same_names_keeps_files sched req w before updated s :
  findById (db w) (params_id req) = inr (Some before) →
  findByIdAndUpdate (db w) (params_id req) (body req)
    = (inr (Some updated), s) →
  imageCover updated = imageCover before →
  (∀ f, f ∈ images before → f ∈ images updated) →
  toDelete (body req) before updated = [] ∧
  (updateTour sched req w).1 = Json 200 updated ∧
  disk (updateTour sched req w).2 = disk w.
Proof.
  intros Hfind Hupd Hcover Hgallery.
  assert (toDelete (body req) before updated = []) as Hnil.
  { rewrite toDelete_refines.
    assert (marked_cover_spec (body req) before updated = []) as ->.
    { unfold marked_cover_spec.
      destruct (body req !! "imageCover"); [|done].
      destruct (imageCover before) as [old|]; [|done].
      rewrite decide_False; [done|]. by intros [_ ?]. }
    assert (marked_gallery_spec (body req) before updated = []) as ->; [|done].
    unfold marked_gallery_spec.
    destruct (body req !! "images"); [|done].
    induction (images before) as [|f fs IH]; [done|].
    rewrite filter_cons, decide_False.
    - apply IH. intros g Hg. apply Hgallery. by right.
    - intros [_ Hf]. apply Hf, Hgallery. by left. }
  split; [done|].
  rewrite (updateTour_success sched req w before updated s) by done.
  by rewrite Hnil, cleanup_nil.
Qed.

(** The image directory after a cleanup, path by path: a regular file at
    one of the given paths is gone, everything else is as it was. *)
Lemma cleanup_final_disk sched (paths : list string) w q :
  "" ∉ paths →
  disk (cleanup sched paths w).1 !! q
  = match disk w !! q with
    | Some (File data) =>
        if bool_decide (q ∈ paths) then None else Some (File data)
    | other => other
    end.
Proof.
  clear write_error.
  intros Hne.
  destruct (cleanup_run sched paths w) as (_ & Htracks & Hdone).
  pose proof (cleanup_run_shrinks sched paths w q) as Hsh.
  destruct (disk w !! q) as [[d|reason]|] eqn:Hq.
  - case_bool_decide as Hin; [|by destruct Hsh as [?|(? & _)]].
    apply list_elem_of_lookup in Hin as [i Hi].
    destruct (Forall2_lookup_l _ _ _ _ _ Htracks Hi) as (t & Ht & Htr).
    rewrite Forall_forall in Hdone.
    specialize (Hdone t (list_elem_of_lookup_2 _ _ _ Ht)).
    destruct t as [?|?|r]; [done|done|]. simpl in Htr.
    destruct Htr as [[-> _]|[_ [[_ ?]|[(_ & _ & ? & _)|Hmsg]]]]; [|done|done|].
    + destruct Hne. by eapply list_elem_of_lookup_2.
    + destruct Hmsg as (msg & _ & _ & _ & _ & [?|Hlocked]); [done|].
      congruence.
  - destruct Hsh as [?|(_ & _ & [d Hd])]; [done|congruence].
  - by destruct Hsh as [?|(_ & ? & _)].
Qed.

(** X13. The image directory after a successful update is determined
    path by path: a regular file at a marked path is gone, every other
    entry is as it was before the request.  So the outcome on disk does not
    depend on the order in which the deletions complete. *)
Theorem updateTour_final_disk sched req w before updated s :
  findById (db w) (params_id req) = inr (Some before) →
  findByIdAndUpdate (db w) (params_id req) (body req)
    = (inr (Some updated), s) →
  (∀ q, disk (updateTour sched req w).2 !! q
        = match disk w !! q with
          | Some (File data) =>
              if bool_decide (q ∈ toDelete (body req) before updated)
              then None else Some (File data)
          | other => other
          end) ∧
  ∀ sched', disk (updateTour sched' req w).2 = disk (updateTour sched req w).2.
Proof.
  clear write_error.
  intros Hfind Hupd.
  assert (∀ sched q,
            disk (updateTour sched req w).2 !! q
            = match disk w !! q with
              | Some (File data) =>
                  if bool_decide (q ∈ toDelete (body req) before updated)
                  then None else Some (File data)
              | other => other
              end) as Hdisk.
  { intros sched0 q.
    rewrite (updateTour_success sched0 req w before updated s) by done.
    simpl. rewrite cleanup_final_disk; [done|].
    rewrite toDelete_refines. intros (f & Hf & _)%list_elem_of_fmap.
    by apply (safeJoinInTours_nonempty f). }
  split; [apply Hdisk|].
  intros sched'. apply map_eq. intros q. by rewrite !Hdisk.
Qed.

(** ** The middleware followed by the update *)

(** X14. The order the protocol is built on.  When [resizeTourImages]
    calls [next()] and [updateTour] then runs on the request it left, the
    calls made since the request came in are: first the sharp pipelines
    writing the new files, then the store calls, then the cleanup. *)
Theorem resize_then_update_order sched1 sched2 req w req' w1 :
  resizeTourImages sched1 req w = (req', None, w1) →
  let r := updateTour sched2 req' w1 in
  ∃ writes calls evs,
    trace r.2 = trace w ++ writes ++ calls ++ evs ∧
    Forall (λ e, ∃ p, e = EvToFile p) writes ∧
    calls `prefix_of` store_calls req' ∧
    Forall is_cleanup_call evs.
Proof.
  intros Hres r.
  destruct (resizeTourImages_world sched1 req w)
    as ((_ & _ & _ & writes & Hwr & Hwrites) & _).
  rewrite Hres in Hwr. simpl in Hwr.
  destruct (updateTour_run sched2 req' w1)
    as (calls & evs & Htr & Hcalls & Hevs & _).
  exists writes, calls, evs.
  split; [|split; [|done]].
  - unfold r. by rewrite Htr, Hwr, <-(assoc_L (++)).
  - eapply Forall_impl; [exact Hwrites|].
    intros e (p & _ & ->). by exists p.
Qed.

(** X15. The new files survive the request.  Take a request id without
    a separator and a before-document with plain file names, none of which
    is one of the names generated for this request.  If the middleware
    calls [next()] and the update succeeds, every file the middleware
    wrote is still in the tours directory when [updateTour] responds,
    whatever the store returned and whatever the cleanup removed. *)
Theorem uploaded_files_survive_update
    sched1 sched2 req w req' w1 before updated s :
  Path.isAbsolute cwd = true →
  Path.split (params_id req) = [params_id req] →
  resizeTourImages sched1 req w = (req', None, w1) →
  findById (db w1) (params_id req') = inr (Some before) →
  findByIdAndUpdate (db w1) (params_id req') (body req')
    = (inr (Some updated), s) →
  Forall plain (referenced before) →
  coverName (params_id req) (clock w) ∉ referenced before →
  (∀ i, galleryName (params_id req) (clock w) i ∉ referenced before) →
  let r := updateTour sched2 req' w1 in
  r.1 = Json 200 updated ∧
  Forall (λ p, is_file (disk r.2 !! p))
    (cover_paths req (clock w) ++ gallery_paths req (clock w)).
Proof.
  intros Habs Hid Hres Hfind Hupd Hplain Hcover Hgallery r.
  unfold r. rewrite (updateTour_success sched2 req' w1 before updated s)
    by done.
  split; [done|]. simpl.
  destruct (resizeTourImages_world sched1 req w)
    as (_ & _ & _ & Hfiles & _).
  rewrite Hres in Hfiles. specialize (Hfiles eq_refl). simpl in Hfiles.
  assert (∀ n, plain n → n ∉ referenced before →
               is_file (disk w1 !! Path.join [TOURS_DIR; n]) →
               is_file (disk (cleanup sched2
                                (toDelete (body req') before updated)
                                (after_update req' s w1)).1
                        !! Path.join [TOURS_DIR; n])) as Hkeep.
  { intros n Hn Hfresh Hfile.
    rewrite cleanup_keeps; [done|].
    rewrite toDelete_refines.
    intros (f & Heq & Hf)%list_elem_of_fmap.
    apply marked_is_referenced in Hf.
    rewrite Forall_forall in Hplain.
    rewrite join_plain in Heq by (apply TOURS_DIR_nonempty || done).
    rewrite <-safeJoinInTours_plain in Heq by done.
    apply safeJoinInTours_plain_inj in Heq; [|done|by apply Hplain].
    by subst. }
  apply Forall_app in Hfiles as [Hc Hg].
  apply Forall_app. split.
  - unfold cover_paths in *.
    apply Forall_fmap, Forall_forall. intros file Hfile. simpl.
    rewrite Forall_fmap, Forall_forall in Hc.
    apply Hkeep; [by apply coverName_plain|done|by apply (Hc file)].
  - unfold gallery_paths in *.
    apply Forall_fmap, Forall_forall. intros i Hi. simpl.
    rewrite Forall_fmap, Forall_forall in Hg.
    apply Hkeep; [by apply galleryName_plain|done|by apply (Hg i)].
Qed.

(** ** How many calls a cleanup makes *)

Lemma tally_app {A} (P : A → bool) l k :
  tally P (l ++ k) = tally P l + tally P k.
Proof. unfold tally. by rewrite sum_list_with_app. Qed.

Lemma tally_cons {A} (P : A → bool) x l :
  tally P (x :: l) = (if P x then 1 else 0) + tally P l.
Proof. done. Qed.

Lemma safeUnlink_step_budget w0 ts0 w ts1 t ts2 :
  unlink_pending t = true →
  cleanup_budget w0 ts0 w (ts1 ++ t :: ts2) →
  cleanup_budget w0 ts0 (safeUnlink_step w t).1
    (ts1 ++ (safeUnlink_step w t).2 :: ts2).
Proof.
  clear sharp write_error. intros Hpend Hb p. specialize (Hb p).
  rewrite !tally_app, !tally_cons in *.
  destruct t as [q|q|r]; [| |done]; simpl.
  - destruct (negb (fileExists q _)); simpl;
      rewrite !tally_app, !tally_cons; simpl in *;
      destruct (bool_decide (q = p)); simpl; lia.
  - unfold unlink. simpl.
    destruct (disk w !! q) as [[d|reason]|]; simpl;
      rewrite ?tally_app, ?tally_cons; simpl in *;
      destruct (bool_decide (q = p)); simpl; lia.
Qed.

Lemma tally_safeUnlink p paths :
  tally (accessing p) (safeUnlink <$> paths)
  = (if bool_decide (p = "") then 0
     else tally (λ q, bool_decide (q = p)) paths) ∧
  tally (in_flight p) (safeUnlink <$> paths)
  = (if bool_decide (p = "") then 0
     else tally (λ q, bool_decide (q = p)) paths).
Proof.
  clear. induction paths as [|q paths [IH1 IH2]].
  - by case_bool_decide.
  - rewrite fmap_cons, !tally_cons, IH1, IH2.
    unfold safeUnlink. destruct q as [|c q]; simpl.
    + repeat case_bool_decide; by subst.
    + repeat case_bool_decide; by subst.
Qed.

Lemma tally_settled p ts :
  Forall (λ t, unlink_pending t = false) ts →
  tally (accessing p) ts = 0 ∧ tally (in_flight p) ts = 0.
Proof.
  clear. induction 1 as [|t ts Ht _ [IH1 IH2]]; [done|].
  rewrite !tally_cons, IH1, IH2. by destruct t.
Qed.

(** X16. The cleanup does no work twice.  For every path other than the
    empty one, it makes exactly one existence check per occurrence of the
    path among the paths it was given, at most one [unlink] per occurrence,
    and at most one [console.error] per [unlink]; for the empty path it
    makes no call at all. *)
Theorem cleanup_call_counts sched paths w p :
  let w' := (cleanup sched paths w).1 in
  let marked := if bool_decide (p = "") then 0
                else tally (λ q, bool_decide (q = p)) paths in
  tally (is_access p) (trace w') = tally (is_access p) (trace w) + marked ∧
  tally (is_unlink p) (trace w') ≤ tally (is_unlink p) (trace w) + marked ∧
  tally (is_console_error p) (trace w') + tally (is_unlink p) (trace w)
  ≤ tally (is_console_error p) (trace w) + tally (is_unlink p) (trace w').
Proof.
  clear write_error.
  intros w' marked.
  assert (cleanup_budget w (safeUnlink <$> paths)
            (cleanup sched paths w).1 (cleanup sched paths w).2) as Hb.
  { unfold cleanup. apply run_invariant.
    - intros w1 ts1 t ts2. apply safeUnlink_step_budget.
    - intros q. lia. }
  destruct (cleanup_run sched paths w) as (_ & _ & Hdone).
  specialize (Hb p). destruct (tally_safeUnlink p paths) as [Ha Hf].
  rewrite Ha, Hf in Hb. fold marked in Hb. fold w' in Hb.
  destruct (tally_settled p _ Hdone) as [Hz1 Hz2].
  rewrite Hz1, Hz2 in Hb. lia.
Qed.

End Handlers.

(** * Beyond the image lifecycle: errors, query strings, aggregations *)

(** ** Facts about [split], [join] and [prefix] *)

Lemma Str_split_not_nil sep s : Str.split sep s ≠ [].
Proof.
  destruct s as [|c s]; simpl; [done|].
  destruct (Ascii.eqb c sep); [done|]. by destruct (Str.split sep s).
Qed.

Lemma Str_join_cons sep seg segs :
  segs ≠ [] → Str.join sep (seg :: segs) = seg +:+ sep +:+ Str.join sep segs.
Proof. by destruct segs. Qed.

(** Splitting on a character and joining with another replaces the one by
    the other. *)
Lemma Str_join_split_replace a b s :
  Str.join (String b "") (Str.split a s) = Str.replace a b s.
Proof.
  induction s as [|c s IH]; [done|]. simpl.
  pose proof (Str_split_not_nil a s) as Hne.
  destruct (Ascii.eqb c a).
  - rewrite Str_join_cons by done. by rewrite IH.
  - destruct (Str.split a s) as [|seg segs]; [done|].
    rewrite <-IH. destruct segs as [|seg' segs]; [done|].
    by rewrite !Str_join_cons, app_cons by done.
Qed.

Lemma Str_replace_same a s : Str.replace a a s = s.
Proof.
  induction s as [|c s IH]; [done|]. simpl. rewrite IH.
  destruct (Ascii.eqb_spec c a); by subst.
Qed.

Lemma Str_replace_free a b s : a ≠ b → Str.free a (Str.replace a b s) = true.
Proof.
  intros Hab. induction s as [|c s IH]; [done|]. simpl. rewrite IH.
  destruct (Ascii.eqb_spec c a) as [->|Hc].
  - destruct (Ascii.eqb_spec b a); [by subst|done].
  - by destruct (Ascii.eqb_spec c a).
Qed.

Lemma Str_replace_length a b s :
  String.length (Str.replace a b s) = String.length s.
Proof. induction s as [|c s IH]; [done|]. simpl. by rewrite IH. Qed.

Lemma Str_split_free a s :
  Forall (λ seg, Str.free a seg = true) (Str.split a s).
Proof.
  induction s as [|c s IH]; simpl; [by constructor|].
  destruct (Ascii.eqb c a) eqn:Hc; [by constructor|].
  destruct (Str.split a s) as [|seg segs].
  { constructor; [|done]. simpl. by rewrite Hc. }
  apply Forall_cons in IH as [Hseg Hsegs].
  constructor; [|done]. simpl. by rewrite Hc.
Qed.

Lemma Str_split_one a s : Str.free a s = true → Str.split a s = [s].
Proof.
  induction s as [|c s IH]; [done|]. simpl.
  destruct (Ascii.eqb c a); [done|]. simpl. intros Hs. by rewrite IH.
Qed.

Lemma Str_split_app a x y :
  Str.free a x = true →
  Str.split a (x +:+ String a y) = x :: Str.split a y.
Proof.
  induction x as [|c x IH]; intros Hx.
  - change ("" +:+ String a y) with (String a y). simpl.
    by rewrite Ascii.eqb_refl.
  - change (String c x +:+ String a y) with (String c (x +:+ String a y)).
    simpl in *. destruct (Ascii.eqb c a); [done|]. by rewrite IH.
Qed.

Lemma prefix_iff p s :
  String.prefix p s = true ↔ ∃ rest, s = p +:+ rest.
Proof.
  split.
  - revert s. induction p as [|c p IH]; intros s Hp; [by exists s|].
    destruct s as [|c' s]; [done|]. simpl in Hp.
    destruct (Ascii.ascii_dec c c') as [->|]; [|done].
    destruct (IH s Hp) as [rest ->]. by exists rest.
  - intros [rest ->]. apply prefix_app.
Qed.

(** ** [AppError] and [multerFilter] *)

Lemma pretty_N_go_leading_4 (x : N) s :
  (0 < x)%N →
  String.prefix "4" (pretty_N_go x s) = true
  ↔ ∃ k : nat, (4 * 10 ^ N.of_nat k ≤ x < 5 * 10 ^ N.of_nat k)%N.
Proof.
  revert s. induction (N.lt_wf_0 x) as [x _ IH]; intros s Hx.
  rewrite pretty_N_go_step by lia.
  destruct (decide (x < 10)%N) as [Hlt|Hge].
  - assert (x / 10 = 0)%N as -> by (apply N.div_small; lia).
    rewrite pretty_N_go_0, N.mod_small by lia.
    split.
    + intros Hp. exists 0. simpl.
      unfold pretty_N_char in Hp.
      repeat case_match; try (vm_compute in Hp; discriminate Hp); lia.
    + intros [[|k] [Hlo Hhi]].
      * simpl in Hlo, Hhi. assert (x = 4)%N as -> by lia.
        by destruct s.
      * rewrite Nat2N.inj_succ, N.pow_succ_r' in Hlo.
        assert (0 < 10 ^ N.of_nat k)%N
          by (apply N.neq_0_lt_0, N.pow_nonzero; lia).
        lia.
  - etrans; [apply IH; [apply N.div_lt; lia|]|].
    { apply N.div_str_pos. lia. }
    pose proof (N.div_mod' x 10) as Hdiv.
    assert (x `mod` 10 < 10)%N as Hmod by (apply N.mod_lt; lia).
    clear IH. revert Hdiv Hmod.
    generalize (x `div` 10)%N (x `mod` 10)%N. intros q r Hdiv Hmod.
    split; intros [k [Hlo Hhi]].
    + exists (Datatypes.S k). rewrite Nat2N.inj_succ, N.pow_succ_r'.
      revert Hlo Hhi. generalize (10 ^ N.of_nat k)%N. intros p Hlo Hhi. lia.
    + destruct k as [|k]; [simpl in *; lia|].
      exists k. rewrite Nat2N.inj_succ, N.pow_succ_r' in Hlo, Hhi.
      revert Hlo Hhi. generalize (10 ^ N.of_nat k)%N. intros p Hlo Hhi. lia.
Qed.

Lemma AppError_status_cases n :
  AppError_status n = "fail" ∨ AppError_status n = "error".
Proof. unfold AppError_status. destruct (String.prefix _ _); auto. Qed.

Lemma AppError_status_leading n :
  AppError_status n = "fail" ↔ ∃ k, 4 * 10 ^ k ≤ n < 5 * 10 ^ k.
Proof.
  unfold AppError_status, pretty, pretty_nat, pretty, pretty_N.
  assert (∀ k, N.of_nat (10 ^ k) = (10 ^ N.of_nat k)%N) as Hpow.
  { intros k. by rewrite Nat2N.inj_pow. }
  case_decide as Hn.
  - simpl. split; [done|]. intros [k [Hlo _]].
    assert (10 ^ k ≠ 0) by (apply Nat.pow_nonzero; lia). lia.
  - destruct (String.prefix "4" (pretty_N_go (N.of_nat n) "")) eqn:Hp.
    + split; [intros _|done].
      apply pretty_N_go_leading_4 in Hp as [k Hk]; [|lia].
      exists k. rewrite <-Hpow in Hk. lia.
    + split; [done|]. intros [k Hk].
      assert (String.prefix "4" (pretty_N_go (N.of_nat n) "") = true)
        as Hp'; [|congruence].
      apply pretty_N_go_leading_4; [lia|].
      exists k. rewrite <-Hpow. lia.
Qed.

(** X17. The [status] of an [AppError] is 'fail' exactly when the decimal
    status code starts with the digit 4, that is, lies between 4·10^k and
    5·10^k - 1 for some k, and 'error' for every other code.  In
    particular every code from 400 to 499 gives 'fail' and every code
    from 500 to 599 gives 'error'. *)
Theorem AppError_status_by_leading_digit :
  (∀ n, AppError_status n = "fail" ↔ ∃ k, 4 * 10 ^ k ≤ n < 5 * 10 ^ k) ∧
  (∀ n, AppError_status n ≠ "fail" ↔ AppError_status n = "error") ∧
  (∀ n, 400 ≤ n ≤ 499 → AppError_status n = "fail") ∧
  (∀ n, 500 ≤ n ≤ 599 → AppError_status n = "error").
Proof.
  split; [apply AppError_status_leading|]. split; [|split].
  - intros n. destruct (AppError_status_cases n) as [Hn|Hn]; rewrite Hn;
      by split.
  - intros n Hn. apply AppError_status_leading. exists 2. simpl. lia.
  - intros n Hn.
    destruct (AppError_status_cases n) as [Hf|He]; [|done].
    apply AppError_status_leading in Hf as [k Hk].
    destruct k as [|[|[|k]]]; simpl in Hk; lia.
Qed.

(** [multerFilter] calls back exactly once, accepting the file without an
    error exactly when its MIME type starts with the five characters
    "image" (compared as they are), and otherwise refusing it with the 400
    error, whose status is 'fail'. *)
Lemma multerFilter_cases file :
  ((multerFilter file).2 = true ↔ ∃ rest, mimetype file = "image" +:+ rest) ∧
  ((multerFilter file).2 = true ↔ (multerFilter file).1 = None) ∧
  (∀ e, (multerFilter file).1 = Some e →
        (multerFilter file).2 = false ∧
        e = AppError "Not an image! Please upload only images." 400 ∧
        AppError_status 400 = "fail").
Proof.
  unfold multerFilter. rewrite <-prefix_iff.
  destruct (String.prefix "image" (mimetype file)); simpl.
  - split; [done|]. split; [done|]. by intros e [=].
  - split; [done|]. split; [done|]. by intros e [= <-].
Qed.

(** ** [aliasTopTours] and [APIFeatures] *)

(** X19. [sort()].  A non-empty string parameter is handed to Mongoose
    with each comma replaced by a space and nothing else changed; a missing
    or empty parameter sorts by '-createdAt'; a parameter that is not a
    string (a repeated or bracketed [sort]) makes the method throw.  When
    it returns, the query string is untouched, the earlier calls on the
    query are kept, and the argument holds no comma. *)
Theorem APIFeatures_sort_commas_to_spaces this :
  let given := APIFeatures.queryString this !! "sort" in
  (∀ s, given = Some (PStr s) → s ≠ "" →
     APIFeatures.sort this
     = APIFeatures.Returned
         (APIFeatures.Make
            (APIFeatures.query this
               ++ [APIFeatures.Sort (Str.replace "," " " s)])
            (APIFeatures.queryString this))
         [Str.replace "," " " s]) ∧
  (given = None ∨ given = Some (PStr "") →
     APIFeatures.sort this
     = APIFeatures.Returned
         (APIFeatures.Make
            (APIFeatures.query this ++ [APIFeatures.Sort "-createdAt"])
            (APIFeatures.queryString this))
         []) ∧
  (APIFeatures.sort this = APIFeatures.Threw
   ↔ ∃ p, given = Some p ∧ ∀ s, p ≠ PStr s) ∧
  (∀ this' console,
     APIFeatures.sort this = APIFeatures.Returned this' console →
     APIFeatures.queryString this' = APIFeatures.queryString this ∧
     ∃ arg, APIFeatures.query this'
            = APIFeatures.query this ++ [APIFeatures.Sort arg] ∧
            Str.free "," arg = true).
Proof.
  intros given. unfold given, APIFeatures.sort.
  destruct (APIFeatures.queryString this !! "sort") as [[s|l|o]|]; simpl.
  - rewrite Str_join_split_replace.
    destruct s as [|c s]; simpl.
    + split; [by intros ? [= <-]|]. split; [done|]. split.
      * split; [done|]. intros (p & [= <-] & Hp). by destruct (Hp "").
      * intros this' console [= <- <-]. split; [done|]. by eexists.
    + split; [by intros ? [= <-]|]. split; [by intros [|[=]]|]. split.
      * split; [done|]. intros (p & [= <-] & Hp). by destruct (Hp (String c s)).
      * intros this' console [= <- <-]. split; [done|].
        eexists. split; [done|].
        by apply (Str_replace_free "," " " (String c s)).
  - split; [done|]. split; [by intros [|[=]]|]. split; [|done].
    split; [|done]. intros _. by eexists.
  - split; [done|]. split; [by intros [|[=]]|]. split; [|done].
    split; [|done]. intros _. by eexists.
  - split; [done|]. split; [done|]. split.
    + split; [done|]. by intros (p & [=] & _).
    + intros this' console [= <- <-]. split; [done|]. by eexists.
Qed.

(** X20. [limitFields()] treats [fields] the same way: commas become
    spaces, a missing or empty parameter selects '-__v', and a parameter
    that is not a string makes the method throw. *)
Theorem APIFeatures_limitFields_commas_to_spaces this :
  let given := APIFeatures.queryString this !! "fields" in
  (∀ s, given = Some (PStr s) → s ≠ "" →
     APIFeatures.limitFields this
     = APIFeatures.Returned
         (APIFeatures.Make
            (APIFeatures.query this
               ++ [APIFeatures.Select (Str.replace "," " " s)])
            (APIFeatures.queryString this))
         []) ∧
  (given = None ∨ given = Some (PStr "") →
     APIFeatures.limitFields this
     = APIFeatures.Returned
         (APIFeatures.Make
            (APIFeatures.query this ++ [APIFeatures.Select "-__v"])
            (APIFeatures.queryString this))
         []) ∧
  (APIFeatures.limitFields this = APIFeatures.Threw
   ↔ ∃ p, given = Some p ∧ ∀ s, p ≠ PStr s).
Proof.
  intros given. unfold given, APIFeatures.limitFields.
  destruct (APIFeatures.queryString this !! "fields") as [[s|l|o]|]; simpl.
  - rewrite Str_join_split_replace.
    destruct s as [|c s]; simpl.
    + split; [by intros ? [= <-]|]. split; [done|].
      split; [done|]. intros (p & [= <-] & Hp). by destruct (Hp "").
    + split; [by intros ? [= <-]|]. split; [by intros [|[=]]|].
      split; [done|]. intros (p & [= <-] & Hp). by destruct (Hp (String c s)).
  - split; [done|]. split; [by intros [|[=]]|].
    split; [|done]. intros _. by eexists.
  - split; [done|]. split; [by intros [|[=]]|].
    split; [|done]. intros _. by eexists.
  - split; [done|]. split; [done|].
    split; [done|]. by intros (p & [=] & _).
Qed.

(** X21. [aliasTopTours] decides the listing.  Whatever the client sent,
    the query it leaves has the three fixed parameters and every other
    parameter as sent; on it [sort()] and [limitFields()] never throw and
    ask Mongoose for '-ratingsAverage price' and
    'name price ratingsAverage difficulty'. *)
Theorem aliasTopTours_decides_the_listing query calls :
  let this := APIFeatures.Make calls (aliasTopTours query) in
  aliasTopTours query !! "limit" = Some (PStr "5") ∧
  (∀ k, k ≠ "limit" → k ≠ "sort" → k ≠ "fields" →
        aliasTopTours query !! k = query !! k) ∧
  APIFeatures.sort this
  = APIFeatures.Returned
      (APIFeatures.Make (calls ++ [APIFeatures.Sort "-ratingsAverage price"])
         (aliasTopTours query))
      ["-ratingsAverage price"] ∧
  APIFeatures.limitFields this
  = APIFeatures.Returned
      (APIFeatures.Make
         (calls ++ [APIFeatures.Select "name price ratingsAverage difficulty"])
         (aliasTopTours query))
      [].
Proof.
  intros this. unfold this, APIFeatures.sort, APIFeatures.limitFields. simpl.
  assert (aliasTopTours query !! "sort" = Some (PStr "-ratingsAverage,price"))
    as -> by (unfold aliasTopTours; by simplify_map_eq).
  assert (aliasTopTours query !! "fields"
          = Some (PStr "name,price,ratingsAverage,difficulty"))
    as -> by (unfold aliasTopTours; by simplify_map_eq).
  split; [unfold aliasTopTours; by simplify_map_eq|].
  split; [intros k ???; unfold aliasTopTours; by simplify_map_eq|].
  split; reflexivity.
Qed.

(** ** Geo queries and aggregations *)

Lemma Str_join_split a s : Str.join (String a "") (Str.split a s) = s.
Proof. by rewrite Str_join_split_replace, Str_replace_same. Qed.

(** The first two parts of [latlng.split(',')] are non-empty exactly when
    [latlng] is well formed, and then they are its [lat] and [lng]. *)
Lemma latlng_parts latlng lat lng :
  (Str.split "," latlng !! 0 = Some lat ∧
   Str.split "," latlng !! 1 = Some lng ∧ lat ≠ "" ∧ lng ≠ "")
  ↔ Geo.well_formed latlng lat lng.
Proof.
  split.
  - intros (H0 & H1 & Hlat & Hlng).
    pose proof (Str_join_split "," latlng) as Hjoin.
    pose proof (Str_split_free "," latlng) as Hfree.
    destruct (Str.split "," latlng) as [|lat' [|lng' rest]]; [done|done|].
    injection H0 as ->. injection H1 as ->.
    apply Forall_cons in Hfree as [Hflat Hfree].
    apply Forall_cons in Hfree as [Hflng _].
    split; [done|]. split; [done|]. split; [done|]. split; [done|].
    rewrite <-Hjoin. destruct rest as [|more rest]; [by left|right].
    exists (Str.join "," (more :: rest)).
    by rewrite !Str_join_cons by done.
  - intros (Hlat & Hlng & Hflat & Hflng & [->|[more ->]]).
    + change (lat +:+ "," +:+ lng) with (lat +:+ String "," lng).
      rewrite Str_split_app, Str_split_one by done. done.
    + change (lat +:+ "," +:+ lng +:+ "," +:+ more)
        with (lat +:+ String "," (lng +:+ String "," more)).
      rewrite !Str_split_app by done. done.
Qed.

Lemma latlng_ill_formed latlng :
  (∀ lat lng, ¬ Geo.well_formed latlng lat lng) →
  match Str.split "," latlng !! 0, Str.split "," latlng !! 1 with
  | Some lat, Some lng => negb (truthy lat) || negb (truthy lng) = true
  | _, _ => True
  end.
Proof.
  intros Hill.
  destruct (Str.split "," latlng !! 0) as [lat|] eqn:H0; [|done].
  destruct (Str.split "," latlng !! 1) as [lng|] eqn:H1; [|done].
  destruct lat as [|c lat]; [done|]. destruct lng as [|d lng]; [done|].
  destruct (Hill (String c lat) (String d lng)).
  by apply latlng_parts.
Qed.

Lemma unit_of_Miles unit : Geo.unit_of unit = Geo.Miles ↔ unit = "mi".
Proof. unfold Geo.unit_of. by case_bool_decide. Qed.

(** X22. [getToursWithin] asks the store for the centre [[lng, lat]]
    exactly when [latlng] reads [lat,lng] or [lat,lng,more] with both
    parts non-empty; the parts are passed on as they are, the unit is
    miles for 'mi' and kilometres for anything else, and a store rejection
    goes to [next].  On any other [latlng] it answers with the 400 error
    and the store is not consulted. *)
Theorem getToursWithin_checks_latlng {D : Type}
    (find : Geo.within → error + list D) distance latlng unit :
  (∀ lat lng,
     Geo.well_formed latlng lat lng →
     Geo.getToursWithin find distance latlng unit
     = match find (Geo.Within lng lat distance (Geo.unit_of unit)) with
       | inl e => Geo.Next e
       | inr tours => Geo.Json 200 (Some (length tours)) tours
       end) ∧
  ((∀ lat lng, ¬ Geo.well_formed latlng lat lng) →
   Geo.getToursWithin find distance latlng unit = Geo.Next Geo.bad_latlng) ∧
  (Geo.unit_of unit = Geo.Miles ↔ unit = "mi").
Proof.
  split; [|split; [|apply unit_of_Miles]].
  - intros lat lng Hwf. pose proof Hwf as (Hlat & Hlng & _).
    apply latlng_parts in Hwf as (H0 & H1 & _ & _).
    unfold Geo.getToursWithin. rewrite H0, H1.
    by destruct lat, lng.
  - intros Hill. apply latlng_ill_formed in Hill.
    unfold Geo.getToursWithin.
    destruct (Str.split "," latlng !! 0) as [lat|]; [|done].
    destruct (Str.split "," latlng !! 1) as [lng|]; [|done].
    by rewrite Hill.
Qed.


(** X23. [getDistances] validates [latlng] like [getToursWithin]; for a
    well-formed one it aggregates with [$geoNear] as the first stage, which
    the model's hook leaves alone: the pipeline carries no secret-tour
    filter. *)
Theorem getDistances_checks_latlng {D : Type}
    (aggregate : list Geo.stage → error + list D) latlng unit :
  (∀ lat lng,
     Geo.well_formed latlng lat lng →
     Geo.getDistances aggregate latlng unit
     = match aggregate
               [Geo.Stage "$geoNear" (Geo.Near lng lat (Geo.unit_of unit));
                Geo.Stage "$project" Geo.DistanceAndName] with
       | inl e => Geo.Next e
       | inr distances => Geo.Json 200 None distances
       end) ∧
  ((∀ lat lng, ¬ Geo.well_formed latlng lat lng) →
   Geo.getDistances aggregate latlng unit = Geo.Next Geo.bad_latlng).
Proof.
  split.
  - intros lat lng Hwf. pose proof Hwf as (Hlat & Hlng & _).
    apply latlng_parts in Hwf as (H0 & H1 & _ & _).
    unfold Geo.getDistances. rewrite H0, H1.
    by destruct lat, lng.
  - intros Hill. apply latlng_ill_formed in Hill.
    unfold Geo.getDistances.
    destruct (Str.split "," latlng !! 0) as [lat|]; [|done].
    destruct (Str.split "," latlng !! 1) as [lng|]; [|done].
    by rewrite Hill.
Qed.


(** ** Route guards *)


(** ** Authentication *)

(** X26. Which token [protect] uses.  An [Authorization] header that
    starts with "Bearer" decides alone: the cookie is not looked at, the
    token is the second space-separated part of the header, and a header
    without such a part (or with an empty one) is answered with 401 even
    when a cookie is present.  A header "Bearer t" is treated like the
    cookie [t], and a header that does not start with "Bearer" like no
    header at all. *)
Theorem protect_token_choice
    (verify : string → error + Auth.decoded)
    (findById : string → error + option Auth.user) header cookie :
  String.prefix "Bearer" header = true →
  let protect := Auth.protect verify findById in
  protect (Some header) cookie = protect (Some header) None ∧
  (Str.split " " header !! 1 ∈ [None; Some ""] →
   protect (Some header) cookie
   = Auth.Denied (AppError "You are not logged in! Please log in." 401)) ∧
  (∀ t, Str.split " " header !! 1 = Some t →
        protect (Some header) cookie = protect None (Some t)) ∧
  (∀ t, Str.free " " t = true →
        protect (Some ("Bearer " +:+ t)) cookie = protect None (Some t)) ∧
  (∀ other, String.prefix "Bearer" other = false →
            protect (Some other) cookie = protect None cookie).
Proof.
  intros Hpre protect.
  assert (truthy header = true) as Htr by (by destruct header).
  assert (∀ c, Auth.token (Some header) c = Str.split " " header !! 1)
    as Htoken.
  { intros c. unfold Auth.token. by rewrite Htr, Hpre. }
  split; [|split; [|split; [|split]]].
  - unfold protect, Auth.protect. by rewrite !Htoken.
  - unfold protect, Auth.protect. rewrite Htoken.
    rewrite !elem_of_cons, elem_of_nil. by intros [->|[->|[]]].
  - intros t Ht. unfold protect, Auth.protect. rewrite Htoken, Ht.
    unfold Auth.token. by destruct t.
  - intros t Hfree. unfold protect, Auth.protect.
    assert (Auth.token (Some ("Bearer " +:+ t)) cookie = Some t) as ->.
    { unfold Auth.token.
      assert (Str.split " " ("Bearer " +:+ t) = ["Bearer"; t]) as ->.
      { change ("Bearer " +:+ t) with ("Bearer" +:+ String " " t).
        by rewrite (Str_split_app " " "Bearer" t), Str_split_one. }
      reflexivity. }
    unfold Auth.token. by destruct t.
  - intros other Hother. unfold protect, Auth.protect, Auth.token.
    rewrite Hother. by rewrite andb_false_r.
Qed.


(** X28. The one-second slack.  After the save hook has stamped a
    password change at time [now] (in milliseconds), a token issued at
    second [iat] counts as older than the change exactly when
    [1000 * iat + 2000 ≤ now]: a token stamped with the second of the save
    or the second before it stays valid, as does every later one.  A user
    who never changed the password, and a document that is new or whose
    password is unmodified, are left alone. *)
Theorem changedPasswordAfter_slack now u JWTTimestamp :
  (1000 ≤ now)%Z →
  (Auth.changedPasswordAfter (Auth.pre_save true false now u) JWTTimestamp
     = true
   ↔ (1000 * JWTTimestamp + 2000 ≤ now)%Z) ∧
  (Auth.passwordChangedAt u = None →
   Auth.changedPasswordAfter u JWTTimestamp = false) ∧
  (∀ isModified isNew,
     isModified = false ∨ isNew = true →
     Auth.pre_save isModified isNew now u = u).
Proof.
  intros Hnow. split; [|split].
  - unfold Auth.changedPasswordAfter, Auth.pre_save. simpl.
    rewrite bool_decide_eq_true.
    rewrite Z.quot_div_nonneg by lia.
    pose proof (Z.div_mod (now - 1000) 1000 ltac:(lia)) as Hdiv.
    pose proof (Z.mod_pos_bound (now - 1000) 1000 ltac:(lia)) as Hmod.
    revert Hdiv Hmod.
    generalize ((now - 1000) `div` 1000)%Z ((now - 1000) `mod` 1000)%Z.
    intros q r Hdiv Hmod. lia.
  - unfold Auth.changedPasswordAfter. by intros ->.
  - intros isModified isNew [->| ->]; unfold Auth.pre_save; simpl; [done|].
    by destruct isModified.
Qed.

(** * The handlers at work on the sample deployment *)

(** The scenario of the specification, end to end: the middleware names
    the two new files after the clock reading 200 and merges them into the
    payload ... *)
Example scenario_resize :
  (resizeTourImages Sample.cwd Sample.sharp Sample.write_error Sample.io_time []
     Sample.req_cover_and_one Sample.w0).1
  = (Sample.req_merged, None).
Proof. vm_compute. reflexivity. Qed.

(** ... and the update handler, given that payload and the world the
    middleware left, answers with the updated document and removes the
    three old files, whatever the order of the deletions. *)
Example scenario_update :
  let w1 := (resizeTourImages Sample.cwd Sample.sharp
                              Sample.write_error Sample.io_time []
               Sample.req_cover_and_one Sample.w0).2 in
  let r := updateTour Sample.cwd Sample.io_time [2; 0; 1] Sample.req_merged w1 in
  r.1 = Json 200 Sample.updated ∧
  disk r.2
  = {[ "/app/public/img/tours/tour-1-200-cover.jpeg" := File [1%N; 2%N];
       "/app/public/img/tours/tour-1-200-1.jpeg" := File [3%N] ]}.
Proof. vm_compute. split; reflexivity. Qed.

(** Two calls for one path: when both existence checks run before either
    unlink, the second unlink finds the file gone and its failure is
    logged; when the calls run one after the other, the second is
    skipped. *)
Example cleanup_same_path_twice :
  let p := "/app/public/img/tours/tour-1-100-cover.jpeg" in
  (cleanup Sample.io_time [0; 1] [p; p] Sample.w0).2
  = [Settled (UnlinkResult true false None);
     Settled (UnlinkResult false false
                (Some ("ENOENT: no such file or directory, unlink '" +:+ p
                       +:+ "'")))] ∧
  (cleanup Sample.io_time [0; 0] [p; p] Sample.w0).2
  = [Settled (UnlinkResult true false None);
     Settled (UnlinkResult true true None)].
Proof. vm_compute. split; reflexivity. Qed.

(** C1.  Two gallery files are uploaded.  When the transcodings complete
    in upload order the array is in upload order; when the second one
    completes first, position 0 holds the name carrying index 2 and
    position 1 the name carrying index 1. *)
Theorem gallery_order_follows_completion :
  let run sched :=
    resizeTourImages Sample.cwd Sample.sharp
                     Sample.write_error Sample.io_time sched
      Sample.req_two_gallery Sample.w0 in
  body (run [0]).1.1 !! "images"
    = Some (VArr [VStr "tour-1-200-1.jpeg"; VStr "tour-1-200-2.jpeg"]) ∧
  body (run [1]).1.1 !! "images"
    = Some (VArr [VStr "tour-1-200-2.jpeg"; VStr "tour-1-200-1.jpeg"]).
Proof. vm_compute. split; reflexivity. Qed.

(** C7.  For the file name ".." the helper returns the parent of the
    tours directory, which is neither that directory nor below it. *)
Theorem safeJoinInTours_parent_escapes :
  TOURS_DIR "/app" = "/app/public/img/tours" ∧
  safeJoinInTours "/app" ".." = "/app/public/img" ∧
  safeJoinInTours "/app" "tours/.." = "/app/public/img" ∧
  Path.inside (TOURS_DIR "/app") (safeJoinInTours "/app" "..") = false.
Proof. vm_compute. repeat split; reflexivity. Qed.

(** Directory parts of a name are dropped, so a traversal attempt lands in
    the tours directory unless its last portion is "..". *)
Example safeJoinInTours_strips_directories :
  safeJoinInTours "/app" "../../etc/passwd" = "/app/public/img/tours/passwd" ∧
  Path.inside (TOURS_DIR "/app") (safeJoinInTours "/app" "../../etc/passwd")
  = true ∧
  Path.inside (TOURS_DIR "/srv/www/") (safeJoinInTours "/srv/www/" "a/./b/")
  = true.
Proof.
  split; [by vm_compute|].
  split; by apply safeJoinInTours_confined.
Qed.

Example safeJoinInTours_dotdot_any_root :
  Path.inside (TOURS_DIR "/srv/www") (safeJoinInTours "/srv/www" "x/..")
  = false.
Proof. by apply safeJoinInTours_dotdot. Qed.

(** C2, as stated, fails: the client sends a new cover name and reuses the
    old cover as the only gallery image.  The update succeeds, the updated
    document refers to the old cover file, and that file is among the
    paths handed to the cleanup and is gone afterwards. *)
Lemma updateTour_deletes_reused_cover :
  let after := Tour (Some "tour-1-150-cover.jpeg") ["tour-1-100-cover.jpeg"] in
  let r := updateTour Sample.cwd Sample.io_time [] Sample.req_reuse Sample.w0 in
  let p := safeJoinInTours Sample.cwd "tour-1-100-cover.jpeg" in
  r.1 = Json 200 after ∧
  "tour-1-100-cover.jpeg" ∈ referenced after ∧
  p ∈ toDelete Sample.cwd (body Sample.req_reuse) Sample.before after ∧
  disk Sample.w0 !! p = Some (File [10%N]) ∧
  disk r.2 !! p = None.
Proof.
  intros after r p. split; [by vm_compute|].
  split; [unfold referenced; simpl; set_solver|].
  split; [vm_compute; set_solver|]. split; by vm_compute.
Qed.

(** C3, as stated, fails in its last clause: the name "a.jpeg" is in the
    before-gallery and in the after-gallery, and it is also the cover that
    the update replaces.  The cover rule marks it: its path is the one
    path handed to the cleanup, and the file is gone afterwards although
    the updated gallery refers to it. *)
Lemma toDelete_marks_name_in_both_galleries :
  let before := Tour (Some "a.jpeg") ["a.jpeg"] in
  let after := Tour (Some "b.jpeg") ["a.jpeg"] in
  let req :=
    Request "1"
      {[ "imageCover" := VStr "b.jpeg"; "images" := VArr [VStr "a.jpeg"] ]}
      None in
  let p := "/app/public/img/tours/a.jpeg" in
  let w : world (gmap string tour) :=
    World {[ "1" := before ]} {[ p := File [10%N] ]} 200 [] in
  let r := updateTour Sample.cwd Sample.io_time [] req w in
  "a.jpeg" ∈ images before ∧ "a.jpeg" ∈ images after ∧
  r.1 = Json 200 after ∧
  safeJoinInTours Sample.cwd "a.jpeg" = p ∧
  toDelete Sample.cwd (body req) before after = [p] ∧
  disk w !! p = Some (File [10%N]) ∧
  disk r.2 !! p = None.
Proof.
  intros before after req p w r.
  split; [apply list_elem_of_here|]. split; [apply list_elem_of_here|].
  repeat split; by vm_compute.
Qed.

(** The same through two names of one file: "old/a.jpeg" leaves the
    gallery, "a.jpeg" stays, and both resolve to the path that is handed to
    the cleanup. *)
Example toDelete_marks_aliased_gallery_name :
  let before := Tour None ["a.jpeg"; "old/a.jpeg"] in
  let after := Tour None ["a.jpeg"] in
  let payload : gmap string value :=
    {[ "images" := VArr [VStr "a.jpeg"] ]} in
  toDelete Sample.cwd payload before after
  = [safeJoinInTours Sample.cwd "a.jpeg"].
Proof. by vm_compute. Qed.


(** An id with a separator: the generated cover name points into a
    directory that does not exist, the pipeline cannot write its output,
    and the middleware calls [next(err)] leaving the request and the image
    directory as they were. *)
Example resizeTourImages_id_with_separator :
  let req :=
    Request "a/b" Sample.fields
      (Some (Uploads (Some [Upload [1%N; 2%N] "image/png"]) None)) in
  let cover := "/app/public/img/tours/tour-a/b-200-cover.jpeg" in
  resizeTourImages Sample.cwd Sample.sharp Sample.write_error
    Sample.io_time [] req Sample.w0
  = (req, Some (Rejected "unable to open for write"),
     World Sample.store Sample.old_files 207 [EvToFile cover]).
Proof. by vm_compute. Qed.

(** ** The theorems at concrete inputs *)

Ltac plain_names :=
  repeat (constructor; [repeat split; (reflexivity || discriminate)|]);
  constructor.

(** The scenario satisfies the side conditions of the amended C2: the two
    new files are not handed to the cleanup and stay on disk. *)
Lemma updateTour_keeps_referenced_witness :
  let w1 := (resizeTourImages Sample.cwd Sample.sharp
                              Sample.write_error Sample.io_time []
               Sample.req_cover_and_one Sample.w0).2 in
  let r := updateTour Sample.cwd Sample.io_time [2; 0; 1] Sample.req_merged w1 in
  r.1 = Json 200 Sample.updated ∧
  ∀ f, f ∈ referenced Sample.updated →
    (safeJoinInTours Sample.cwd f
       ∉ toDelete Sample.cwd (body Sample.req_merged)
           Sample.before Sample.updated) ∧
    disk r.2 !! safeJoinInTours Sample.cwd f
      = disk w1 !! safeJoinInTours Sample.cwd f.
Proof.
  intros w1 r.
  apply (updateTour_keeps_referenced Sample.cwd Sample.io_time [2; 0; 1]
           Sample.req_merged w1 Sample.before Sample.updated
           (<["1" := Sample.updated]> Sample.store)).
  - vm_compute. reflexivity.
  - vm_compute. reflexivity.
  - unfold referenced. simpl. plain_names.
  - unfold referenced. simpl. plain_names.
  - intros c [= <-]. simpl. rewrite !elem_of_cons, elem_of_nil.
    intros [?|?]; [discriminate|done].
  - intros c [= <-]. simpl. rewrite !elem_of_cons, elem_of_nil.
    intros [?|[?|?]]; [discriminate..|done].
Defined.

(** No tour has the id "2". *)
Lemma updateTour_not_found_witness :
  let r := updateTour Sample.cwd Sample.io_time [] Sample.req_unknown Sample.w0 in
  r.1 = Next (Some (AppError "No tour found with that ID" 404)) ∧
  db r.2 = Sample.store ∧
  disk r.2 = Sample.old_files ∧
  trace r.2 = [EvFindById "2"].
Proof.
  apply (updateTour_not_found Sample.cwd Sample.io_time []
           Sample.req_unknown Sample.w0).
  vm_compute. reflexivity.
Defined.

(** The schema rejects a null cover. *)
Lemma updateTour_update_failed_witness :
  let r := updateTour Sample.cwd Sample.io_time []
             Sample.req_null_cover Sample.w0 in
  r.1 = Next (Some (Rejected
                      "Validation failed: imageCover: An image is required")) ∧
  disk r.2 = Sample.old_files ∧
  trace r.2 = [EvFindById "1";
               EvFindByIdAndUpdate "1" (body Sample.req_null_cover)].
Proof.
  apply (updateTour_update_failed Sample.cwd Sample.io_time []
           Sample.req_null_cover Sample.w0 Sample.before
           (inl (Rejected
                   "Validation failed: imageCover: An image is required"))
           Sample.store).
  - vm_compute. reflexivity.
  - vm_compute. reflexivity.
  - intros updated. discriminate.
Defined.

(** The other way an update fails: the document is gone when the write
    arrives. *)
Example updateTour_lost_race :
  let r := updateTour Sample.cwd Sample.io_time []
             Sample.req_merged Sample.w_racing in
  r.1 = Next (Some (AppError "Failed to update the tour" 500)) ∧
  disk r.2 = Sample.old_files.
Proof. vm_compute. split; reflexivity. Qed.

(** The guard of line 223 compares names, the cleanup acts on resolved
    paths: an old cover stored with a directory part resolves to the file
    of the new cover, which is removed. *)
Example updateTour_deletes_aliased_cover :
  let w := World {[ "1" := Tour (Some "old/cover.jpeg") [] ]}
             {[ "/app/public/img/tours/cover.jpeg" := File [1%N] ]} 200 [] in
  let req := Request "1" {[ "imageCover" := VStr "cover.jpeg" ]} None in
  let r := updateTour Sample.cwd Sample.io_time [] req w in
  r.1 = Json 200 (Tour (Some "cover.jpeg") []) ∧
  disk r.2 !! safeJoinInTours Sample.cwd "cover.jpeg" = None.
Proof. vm_compute. split; reflexivity. Qed.


(** The three results of that cleanup, in the order of the marked paths. *)
Example cleanup_rough_results :
  let s := <["1" := Sample.updated]> Sample.store in
  (cleanup Sample.io_time [1; 1; 0]
     (toDelete Sample.cwd (body Sample.req_merged)
        Sample.before Sample.updated)
     (after_update Sample.req_merged s Sample.w_rough)).2
  = [Settled (UnlinkResult true false None);
     Settled (UnlinkResult true true None);
     Settled (UnlinkResult false false
                (Some "EPERM: operation not permitted"))].
Proof. vm_compute. reflexivity. Qed.


(** A request without files passes through. *)
Lemma resizeTourImages_no_uploads_witness :
  resizeTourImages Sample.cwd Sample.sharp Sample.write_error Sample.io_time []
    Sample.req_plain Sample.w0 = (Sample.req_plain, None, Sample.w0) ∧
  (∀ k, body (resizeTourImages Sample.cwd Sample.sharp
                               Sample.write_error Sample.io_time []
                Sample.req_plain Sample.w0).1.1 !! k
        = Sample.fields !! k) ∧
  (∀ before updated,
     Sample.fields !! "imageCover" = None →
     Sample.fields !! "images" = None →
     toDelete Sample.cwd
       (body (resizeTourImages Sample.cwd Sample.sharp
                               Sample.write_error Sample.io_time []
                Sample.req_plain Sample.w0).1.1) before updated = []).
Proof.
  apply (resizeTourImages_no_uploads Sample.cwd Sample.sharp
                                     Sample.write_error Sample.io_time
           [] Sample.req_plain Sample.w0).
  split; simpl; apply list_elem_of_here.
Defined.

(** Two gallery uploads, the second completing first: the client's text
    under [images] is replaced, its text under [imageCover] and its other
    fields are kept. *)
Lemma resizeTourImages_merge_witness :
  let r := resizeTourImages Sample.cwd Sample.sharp
                            Sample.write_error Sample.io_time [1]
             Sample.req_two_gallery Sample.w0 in
  (∃ names,
     body r.1.1 !! "images" = Some (VArr (VStr <$> names)) ∧
     names ≡ₚ ["tour-1-200-1.jpeg"; "tour-1-200-2.jpeg"]) ∧
  body r.1.1 !! "imageCover" = Some (VStr "x.jpeg") ∧
  body r.1.1 !! "name" = Some (VStr "The Forest Hiker") ∧
  body r.1.1 !! "price" = Some (VNum 397).
Proof.
  intros r.
  destruct (resizeTourImages_merge Sample.cwd Sample.sharp
                                   Sample.write_error Sample.io_time [1]
              Sample.req_two_gallery Sample.w0 r.1.1 r.2)
    as (_ & Hgallery & Hcover & _ & Hother).
  - vm_compute. reflexivity.
  - split; [exact (Hgallery _ _ eq_refl)|].
    split; [rewrite Hcover; [by vm_compute|apply list_elem_of_here]|].
    split; (rewrite Hother; [by vm_compute|discriminate..]).
Defined.

(** ** The further properties at concrete inputs *)

(** The two files of the scenario are on disk when the middleware is
    done. *)
Lemma resizeTourImages_files_written_witness :
  let r := resizeTourImages Sample.cwd Sample.sharp
                            Sample.write_error Sample.io_time []
             Sample.req_cover_and_one Sample.w0 in
  is_file (disk r.2 !! Path.join [TOURS_DIR Sample.cwd;
                                  "tour-1-200-cover.jpeg"]) ∧
  Forall (λ name, is_file (disk r.2 !! Path.join [TOURS_DIR Sample.cwd; name]))
    ["tour-1-200-1.jpeg"].
Proof.
  intros r.
  destruct (resizeTourImages_files_written Sample.cwd Sample.sharp
                                           Sample.write_error
              Sample.io_time [] Sample.req_cover_and_one Sample.w0
              r.1.1 r.2) as [Hcover Hgallery].
  - vm_compute. reflexivity.
  - split.
    + apply Hcover; [discriminate|]. vm_compute. reflexivity.
    + apply Hgallery; [discriminate|]. vm_compute. reflexivity.
Defined.

(** The gallery file is rejected after the cover has been written. *)
Lemma resizeTourImages_leaves_written_cover_witness :
  let r := resizeTourImages Sample.cwd Sample.sharp
                            Sample.write_error Sample.io_time []
             Sample.req_bad_gallery Sample.w0 in
  is_Some r.1.2 ∧ r.1.1 = Sample.req_bad_gallery ∧
  db r.2 = db Sample.w0 ∧
  is_file (disk r.2 !! Path.join [TOURS_DIR Sample.cwd;
                                  coverName "1" 200]).
Proof.
  apply (resizeTourImages_leaves_written_cover Sample.cwd Sample.sharp
                                               Sample.write_error
           Sample.io_time [] Sample.req_bad_gallery Sample.w0
           (Upload [1%N; 2%N] "image/png") []).
  - reflexivity.
  - by eexists.
  - reflexivity.
  - apply Exists_cons_hd. reflexivity.
Defined.

Lemma safeJoinInTours_plain_name_witness :
  let f := "tour-1-100-cover.jpeg" in
  safeJoinInTours Sample.cwd f = TOURS_DIR Sample.cwd +:+ "/" +:+ f ∧
  Path.join [TOURS_DIR Sample.cwd; f] = safeJoinInTours Sample.cwd f ∧
  Path.inside (TOURS_DIR Sample.cwd) (safeJoinInTours Sample.cwd f) = true ∧
  ∀ g, plain g →
       safeJoinInTours Sample.cwd g = safeJoinInTours Sample.cwd f → g = f.
Proof.
  apply (safeJoinInTours_plain_name Sample.cwd "tour-1-100-cover.jpeg").
  - reflexivity.
  - repeat split; (reflexivity || discriminate).
Defined.

Lemma generated_names_resolve_witness :
  let agree name :=
    plain name ∧
    Path.join [TOURS_DIR Sample.cwd; name]
    = TOURS_DIR Sample.cwd +:+ "/" +:+ name ∧
    safeJoinInTours Sample.cwd name
    = Path.join [TOURS_DIR Sample.cwd; name] in
  agree (coverName "1" 200) ∧ agree (galleryName "1" 200 0).
Proof.
  apply (generated_names_resolve Sample.cwd "1" 200 0); reflexivity.
Defined.

(** Directory parts are dropped; the name stays inside. *)
Lemma safeJoinInTours_inside_iff_witness :
  Path.inside (TOURS_DIR Sample.cwd)
    (safeJoinInTours Sample.cwd "../../etc/passwd") = true
  ↔ Path.basename (or_else "../../etc/passwd" "") ≠ "..".
Proof.
  apply (safeJoinInTours_inside_iff Sample.cwd "../../etc/passwd").
  reflexivity.
Defined.

Lemma updateTour_without_image_fields_witness :
  let r := updateTour Sample.cwd Sample.io_time []
             Sample.req_plain Sample.w0 in
  disk r.2 = disk Sample.w0 ∧
  ∃ calls, calls `prefix_of` store_calls Sample.req_plain ∧
           trace r.2 = trace Sample.w0 ++ calls.
Proof.
  apply (updateTour_without_image_fields Sample.cwd Sample.io_time []
           Sample.req_plain Sample.w0).
  - vm_compute. reflexivity.
  - vm_compute. reflexivity.
Defined.

Lemma updateTour_same_names_keeps_files_witness :
  toDelete Sample.cwd (body Sample.req_same_cover)
    Sample.before Sample.before = [] ∧
  (updateTour Sample.cwd Sample.io_time [] Sample.req_same_cover
     Sample.w0).1 = Json 200 Sample.before ∧
  disk (updateTour Sample.cwd Sample.io_time [] Sample.req_same_cover
          Sample.w0).2 = disk Sample.w0.
Proof.
  apply (updateTour_same_names_keeps_files Sample.cwd Sample.io_time []
           Sample.req_same_cover Sample.w0 Sample.before Sample.before
           (<["1" := Sample.before]> Sample.store)).
  - vm_compute. reflexivity.
  - vm_compute. reflexivity.
  - reflexivity.
  - intros f Hf. exact Hf.
Defined.

Lemma resize_then_update_order_witness :
  let r0 := resizeTourImages Sample.cwd Sample.sharp
                             Sample.write_error Sample.io_time []
              Sample.req_cover_and_one Sample.w0 in
  let r := updateTour Sample.cwd Sample.io_time [2; 0; 1] r0.1.1 r0.2 in
  ∃ writes calls evs,
    trace r.2 = trace Sample.w0 ++ writes ++ calls ++ evs ∧
    Forall (λ e, ∃ p, e = EvToFile p) writes ∧
    calls `prefix_of` store_calls r0.1.1 ∧
    Forall is_cleanup_call evs.
Proof.
  intros r0.
  apply (resize_then_update_order Sample.cwd Sample.sharp
                                  Sample.write_error Sample.io_time
           [] [2; 0; 1] Sample.req_cover_and_one Sample.w0 r0.1.1 r0.2).
  vm_compute. reflexivity.
Defined.

Lemma uploaded_files_survive_update_witness :
  let r0 := resizeTourImages Sample.cwd Sample.sharp
                             Sample.write_error Sample.io_time []
              Sample.req_cover_and_one Sample.w0 in
  let r := updateTour Sample.cwd Sample.io_time [2; 0; 1] r0.1.1 r0.2 in
  r.1 = Json 200 Sample.updated ∧
  Forall (λ p, is_file (disk r.2 !! p))
    (cover_paths Sample.cwd Sample.req_cover_and_one 200
     ++ gallery_paths Sample.cwd Sample.req_cover_and_one 200).
Proof.
  intros r0.
  apply (uploaded_files_survive_update Sample.cwd Sample.sharp
                                       Sample.write_error
           Sample.io_time [] [2; 0; 1] Sample.req_cover_and_one Sample.w0
           r0.1.1 r0.2 Sample.before Sample.updated
           (<["1" := Sample.updated]> Sample.store)).
  - reflexivity.
  - reflexivity.
  - vm_compute. reflexivity.
  - vm_compute. reflexivity.
  - vm_compute. reflexivity.
  - unfold referenced. simpl. plain_names.
  - unfold referenced. simpl. rewrite !elem_of_cons, elem_of_nil.
    intros [H|[H|[H|[]]]]; vm_compute in H; discriminate H.
  - intros i. unfold referenced, galleryName. simpl.
    rewrite !elem_of_cons, elem_of_nil.
    intros [H|[H|[H|[]]]]; apply (f_equal (λ s, String.get 7 s)) in H;
      vm_compute in H; discriminate H.
Defined.


(** A bearer header with the good token wins over a stale cookie. *)
Lemma protect_token_choice_witness :
  let protect := Auth.protect Sample.verify Sample.findUser in
  let header := "Bearer good" in
  let cookie := Some "stale" in
  protect (Some header) cookie = protect (Some header) None ∧
  (Str.split " " header !! 1 ∈ [None; Some ""] →
   protect (Some header) cookie
   = Auth.Denied (AppError "You are not logged in! Please log in." 401)) ∧
  (∀ t, Str.split " " header !! 1 = Some t →
        protect (Some header) cookie = protect None (Some t)) ∧
  (∀ t, Str.free " " t = true →
        protect (Some ("Bearer " +:+ t)) cookie = protect None (Some t)) ∧
  (∀ other, String.prefix "Bearer" other = false →
            protect (Some other) cookie = protect None cookie).
Proof.
  apply (protect_token_choice Sample.verify Sample.findUser
           "Bearer good" (Some "stale")).
  reflexivity.
Defined.


(** A password saved at 5000 ms: the token of second 3 is older than the
    change. *)
Lemma changedPasswordAfter_slack_witness :
  let u := Auth.User "user" None in
  (Auth.changedPasswordAfter (Auth.pre_save true false 5000 u) 3 = true
   ↔ (1000 * 3 + 2000 ≤ 5000)%Z) ∧
  (Auth.passwordChangedAt u = None →
   Auth.changedPasswordAfter u 3 = false) ∧
  (∀ isModified isNew,
     isModified = false ∨ isNew = true →
     Auth.pre_save isModified isNew 5000 u = u).
Proof.
  apply (changedPasswordAfter_slack 5000 (Auth.User "user" None) 3). lia.
Defined.

(** The scenario's update: the three old files are gone, nothing else
    changed, whatever the schedule. *)
Lemma updateTour_final_disk_witness :
  let run sched := updateTour Sample.cwd Sample.io_time sched
                     Sample.req_merged Sample.w0 in
  (∀ q, disk (run [2; 0; 1]).2 !! q
        = match disk Sample.w0 !! q with
          | Some (File data) =>
              if bool_decide
                   (q ∈ toDelete Sample.cwd (body Sample.req_merged)
                          Sample.before Sample.updated)
              then None else Some (File data)
          | other => other
          end) ∧
  ∀ sched', disk (run sched').2 = disk (run [2; 0; 1]).2.
Proof.
  apply (updateTour_final_disk Sample.cwd Sample.io_time [2; 0; 1]
           Sample.req_merged Sample.w0 Sample.before Sample.updated
           (<["1" := Sample.updated]> Sample.store)).
  - vm_compute. reflexivity.
  - vm_compute. reflexivity.
Defined.

(** In the scenario the cover path holds the cover's bytes and the first
    gallery path the bytes of the first gallery upload. *)
Lemma resizeTourImages_file_contents_witness :
  let r := resizeTourImages Sample.cwd Sample.sharp
                            Sample.write_error Sample.io_time []
             Sample.req_cover_and_one Sample.w0 in
  disk r.2 !! Path.join [TOURS_DIR Sample.cwd; coverName "1" 200]
  = Some (File [1%N; 2%N]) ∧
  disk r.2 !! Path.join [TOURS_DIR Sample.cwd; galleryName "1" 200 0]
  = Some (File [3%N]).
Proof.
  intros r.
  destruct (resizeTourImages_file_contents Sample.cwd Sample.sharp
                                           Sample.write_error
              Sample.io_time [] Sample.req_cover_and_one Sample.w0
              r.1.1 r.2) as [Hcover Hgallery].
  - reflexivity.
  - vm_compute. reflexivity.
  - split.
    + exact (Hcover _ _ _ eq_refl eq_refl).
    + exact (Hgallery _ 0 _ _ eq_refl eq_refl eq_refl).
Defined.
